(** * PurC interpreter: coroutine engine, observers, requests, timers

    A shallow embedding of the parts of
    [Source/PurC/interpreter/interpreter.c], [interpreter/match.c],
    [interpreter/timer.cpp] and [vcm/vcm-ev.c] that drive a document:
    the per-frame state machine, coroutine termination, observer
    registration and matching, expression-variable change detection, the
    request queues and the [$TIMERS] listeners.

    Conventions of the embedding.
    - A C pointer to a heap object is [option] of the object (or of its
      address); [None] is [NULL] / [PURC_VARIANT_INVALID].
    - Stateful code passes its state explicitly.  A function that can trip
      a [PC_ASSERT] returns an [outcome]; [Aborted] is the failed assertion
      (or a use of a pointer that is not valid any more).
    - [purc_variant_ref] / [purc_variant_unref] only manage memory; values
      of the model are immutable data, so the calls leave no trace here. *)

From Stdlib Require Import Ascii.
From stdpp Require Import base option numbers list strings gmap.

Set Warnings "-register-all".

Open Scope Z_scope.

(** ** Outcomes: a computation that may stop at a failed [PC_ASSERT] *)

Inductive outcome (A : Type) : Type :=
  | Done (a : A)
  | Aborted.
Arguments Done {A} a.
Arguments Aborted {A}.

#[global] Instance outcome_ret : MRet outcome := λ A a, Done a.
#[global] Instance outcome_bind : MBind outcome := λ A B k m,
  match m with
  | Done a => k a
  | Aborted => Aborted
  end.

#[global] Instance outcome_fmap : FMap outcome := λ A B f m,
  match m with
  | Done a => Done (f a)
  | Aborted => Aborted
  end.

(** [PC_ASSERT(cond)] ([private/debug.h]) checks a condition the code relies
    on.  A computation whose assertion fails ends [Aborted]; what the process
    does from there is not followed. *)
Definition PC_ASSERT (cond : bool) : outcome unit :=
  if cond then Done tt else Aborted.

(** ** Values (variants) *)

(** Payload of a native variant: the entity pointer it wraps. *)
Inductive native_entity : Type :=
  | NativeElements (edom : nat)   (* pcdvobjs_make_elements(edom_element) *)
  | NativeVcmEv (ev : nat)        (* struct pcvcm_ev*, vcm-ev.c *)
  | NativePointer (p : nat).      (* pointer_to_variant(p), timer.cpp *)

Inductive value : Type :=
  | VUndefined
  | VNull
  | VBoolean (b : bool)
  | VLongint (i : Z)
  | VUlongint (u : Z)
  | VString (s : string)
  | VArray (items : list value)
  | VObject (fields : list (string * value))
  | VDynamic (getter setter : nat)
  | VNative (entity : native_entity).

(** A variant object: its address (the identity that [==] on
    [purc_variant_t] compares) and its contents. *)
Record purc_variant : Type := Variant {
  v_addr : nat;
  v_val : value;
}.

Abbreviation purc_variant_t := (option purc_variant).
Abbreviation PURC_VARIANT_INVALID := (@None purc_variant).

Inductive purc_variant_type : Type :=
  | PURC_VARIANT_TYPE_DYNAMIC
  | PURC_VARIANT_TYPE_NATIVE
  | PURC_VARIANT_TYPE_OTHER.

Definition purc_variant_get_type (v : purc_variant) : purc_variant_type :=
  match v_val v with
  | VDynamic _ _ => PURC_VARIANT_TYPE_DYNAMIC
  | VNative _ => PURC_VARIANT_TYPE_NATIVE
  | _ => PURC_VARIANT_TYPE_OTHER
  end.

Definition purc_variant_is_dynamic (v : purc_variant) : bool :=
  match v_val v with VDynamic _ _ => true | _ => false end.

Definition purc_variant_is_native (v : purc_variant) : bool :=
  match v_val v with VNative _ => true | _ => false end.

(** ** The interpreter instance (thread-local state) *)

Inductive purc_error : Type :=
  | PURC_ERROR_OK
  | PURC_ERROR_OUT_OF_MEMORY
  | PURC_ERROR_INVALID_VALUE
  | PURC_ERROR_NOT_IMPLEMENTED.

Definition purc_error_is_set (e : purc_error) : bool :=
  match e with PURC_ERROR_OK => false | _ => true end.

(** What the embedding application and the callbacks are seen to do. *)
Inductive event : Type :=
  | EvCtxtDestroy (ctxt : nat)          (* frame->ctxt_destroy(frame->ctxt) *)
  | EvDumpCStack                        (* dump_c_stack(exception.bt) *)
  | EvOnTerminated (co : nat)           (* stack.ops.on_terminated *)
  | EvOnCleanup (co : nat)              (* stack.ops.on_cleanup *)
  | EvCoroutineDestroy (co : nat)       (* coroutine_destroy(co) *)
  | EvDumpDocument (co : nat)           (* pcintr_dump_document(stack) *)
  | EvOnRevoke (observer data : nat)    (* observer->on_revoke(observer, data) *)
  | EvOnForget (entity : native_entity) (msg_type_atom : nat)
               (sub_type : option string)          (* ops->on_forget(...) *)
  | EvPostMessage (source : purc_variant) (type sub_type extra : purc_variant_t).
                                        (* purc_runloop_dispatch(runloop,
                                           pcintr_handle_message, msg) *)

(** [struct pcinst] as far as the interpreter touches it: the thread-local
    error code, the allocator, the heap's list of live coroutines and its
    running coroutine.  [alloc_plan] lists the results of the coming
    allocations ([false] is a failed [calloc]); once it is used up every
    allocation succeeds.  [events] records the calls that leave the
    interpreter. *)
Record pcinst : Type := Inst {
  errcode : purc_error;
  next_addr : nat;
  alloc_plan : list bool;
  heap_coroutines : list nat;
  running_coroutine : option nat;
  events : list event;
}.

Definition purc_set_error (e : purc_error) (inst : pcinst) : pcinst :=
  Inst e (next_addr inst) (alloc_plan inst) (heap_coroutines inst)
       (running_coroutine inst) (events inst).

Definition pcinst_clear_error (inst : pcinst) : pcinst :=
  purc_set_error PURC_ERROR_OK inst.

Definition emit (ev : event) (inst : pcinst) : pcinst :=
  Inst (errcode inst) (next_addr inst) (alloc_plan inst) (heap_coroutines inst)
       (running_coroutine inst) (events inst ++ [ev]).

Definition coroutine_set_current (co : option nat) (inst : pcinst) : pcinst :=
  Inst (errcode inst) (next_addr inst) (alloc_plan inst) (heap_coroutines inst)
       co (events inst).

Definition heap_unlink (co : nat) (inst : pcinst) : pcinst :=
  Inst (errcode inst) (next_addr inst) (alloc_plan inst)
       (filter (λ c, c ≠ co) (heap_coroutines inst))
       (running_coroutine inst) (events inst).

(** [calloc]/[malloc]: consume one entry of the plan. *)
Definition calloc (inst : pcinst) : bool * pcinst :=
  match alloc_plan inst with
  | [] => (true, inst)
  | ok :: plan =>
      (ok, Inst (errcode inst) (next_addr inst) plan (heap_coroutines inst)
                (running_coroutine inst) (events inst))
  end.

(** [calloc] of an object whose address matters: the address, or [None]
    when out of memory. *)
Definition calloc_addr (inst : pcinst) : option nat * pcinst :=
  let '(ok, inst) := calloc inst in
  if ok then
    (Some (next_addr inst),
     Inst (errcode inst) (S (next_addr inst)) (alloc_plan inst)
          (heap_coroutines inst) (running_coroutine inst) (events inst))
  else (None, inst).

(** Modelled from the spec: the value constructors [make_{kind}] of the
    value substrate (variant module, not under the sources at hand).  A
    constructor that cannot allocate sets the thread-local error and returns
    the sentinel; otherwise it returns a new object holding the value. *)
Definition purc_variant_make (val : value) (inst : pcinst)
    : purc_variant_t * pcinst :=
  let '(ok, inst) := calloc inst in
  if ok then
    (Some (Variant (next_addr inst) val),
     Inst (errcode inst) (S (next_addr inst)) (alloc_plan inst)
          (heap_coroutines inst) (running_coroutine inst) (events inst))
  else (PURC_VARIANT_INVALID, purc_set_error PURC_ERROR_OUT_OF_MEMORY inst).

Definition purc_variant_make_undefined := purc_variant_make VUndefined.
Definition purc_variant_make_ulongint (u : Z) := purc_variant_make (VUlongint u).
Definition purc_variant_make_boolean (b : bool) := purc_variant_make (VBoolean b).
Definition purc_variant_make_string (s : string) := purc_variant_make (VString s).
Definition purc_variant_make_object_0 := purc_variant_make (VObject []).
Definition pcdvobjs_make_elements (edom : nat) :=
  purc_variant_make (VNative (NativeElements edom)).

(** ** The element tree *)

Inductive pcvdom_node : Type :=
  | PCVDOM_NODE_DOCUMENT (children : list pcvdom_node)
  | PCVDOM_NODE_ELEMENT (tag_name : string) (silently : bool)
                        (children : list pcvdom_node)
  | PCVDOM_NODE_CONTENT (text : string)
  | PCVDOM_NODE_COMMENT (text : string).

Abbreviation pcvdom_element_t := (option pcvdom_node).

(** ** Stack frames *)

(** Modelled from the spec: [enum purc_symbol_var] (its header is not under
    the sources at hand).  The spec fixes seven symbol variables: [?], [@],
    [!], [%], [<] and two reserved ones. *)
Inductive purc_symbol_var : Type :=
  | PURC_SYMBOL_VAR_QUESTION_MARK
  | PURC_SYMBOL_VAR_AT_SIGN
  | PURC_SYMBOL_VAR_EXCLAMATION
  | PURC_SYMBOL_VAR_PERCENT_SIGN
  | PURC_SYMBOL_VAR_LESS_THAN
  | PURC_SYMBOL_VAR_RESERVED_1
  | PURC_SYMBOL_VAR_RESERVED_2.

#[global] Instance purc_symbol_var_eq_dec : EqDecision purc_symbol_var.
Proof. solve_decision. Defined.

Inductive pcintr_stack_frame_type : Type :=
  | STACK_FRAME_TYPE_NORMAL
  | STACK_FRAME_TYPE_PSEUDO.

(** [enum pcintr_stack_frame_next_step]; a [calloc]ed frame holds the first
    enumerator. *)
Inductive pcintr_next_step : Type :=
  | NEXT_STEP_AFTER_PUSHED
  | NEXT_STEP_ON_POPPING
  | NEXT_STEP_RERUN
  | NEXT_STEP_SELECT_CHILD.

#[global] Instance pcintr_next_step_eq_dec : EqDecision pcintr_next_step.
Proof. solve_decision. Defined.

(** [frame->ops] is a table of four function pointers.  A frame of the model
    holds the name of its table; [None] is the all-[NULL] table of a fresh
    frame.  What the named table does is given by the [ops_table] of
    section [Machine] below. *)
Abbreviation ops_name := (option nat).

Record pcintr_stack_frame : Type := Frame {
  f_type : pcintr_stack_frame_type;
  f_scope : pcvdom_element_t;
  f_pos : pcvdom_element_t;
  f_edom_element : option nat;
  f_ctxt : option nat;
  f_ctxt_destroy : bool;          (* is the destructor pointer set? *)
  f_silently : bool;
  f_ops : ops_name;
  f_symbol_vars : purc_symbol_var → purc_variant_t;
  f_attr_vars : purc_variant_t;
  f_ctnt_var : purc_variant_t;
  f_result_from_child : purc_variant_t;
  f_next_step : pcintr_next_step;
  f_preemptor : bool;             (* is the preemptor pointer set? *)
}.

(** The zeroed frame [calloc] returns, with [frame->type] set. *)
Definition frame_calloc (ty : pcintr_stack_frame_type) : pcintr_stack_frame :=
  Frame ty None None None None false false None (λ _, PURC_VARIANT_INVALID)
        PURC_VARIANT_INVALID PURC_VARIANT_INVALID PURC_VARIANT_INVALID
        NEXT_STEP_AFTER_PUSHED false.

Definition frame_set_symbol_var (sym : purc_symbol_var) (v : purc_variant_t)
    (f : pcintr_stack_frame) : pcintr_stack_frame :=
  Frame (f_type f) (f_scope f) (f_pos f) (f_edom_element f) (f_ctxt f)
        (f_ctxt_destroy f) (f_silently f) (f_ops f)
        (λ s, if decide (s = sym) then v else f_symbol_vars f s)
        (f_attr_vars f) (f_ctnt_var f) (f_result_from_child f)
        (f_next_step f) (f_preemptor f).

Definition frame_set_all_symbol_vars (v : purc_variant_t)
    (f : pcintr_stack_frame) : pcintr_stack_frame :=
  Frame (f_type f) (f_scope f) (f_pos f) (f_edom_element f) (f_ctxt f)
        (f_ctxt_destroy f) (f_silently f) (f_ops f) (λ _, v)
        (f_attr_vars f) (f_ctnt_var f) (f_result_from_child f)
        (f_next_step f) (f_preemptor f).

Definition frame_set_next_step (ns : pcintr_next_step)
    (f : pcintr_stack_frame) : pcintr_stack_frame :=
  Frame (f_type f) (f_scope f) (f_pos f) (f_edom_element f) (f_ctxt f)
        (f_ctxt_destroy f) (f_silently f) (f_ops f) (f_symbol_vars f)
        (f_attr_vars f) (f_ctnt_var f) (f_result_from_child f)
        ns (f_preemptor f).

(** ** Observers, stacks and coroutines *)

(** A [char*]: where the bytes live and what they are.  [==] on two
    [char*] compares the addresses. *)
Record cstr : Type := CStr {
  c_addr : nat;
  c_str : string;
}.

Abbreviation cstr_t := (option cstr).

Record pcintr_observer : Type := Observer {
  o_addr : nat;                    (* the [struct pcintr_observer] itself *)
  o_observed : purc_variant_t;
  o_scope : pcvdom_element_t;
  o_edom_element : option nat;
  o_pos : pcvdom_element_t;
  o_msg_type_atom : nat;
  o_sub_type : cstr_t;
  o_on_revoke : option nat;        (* callback data when a callback is set *)
}.

Inductive pcintr_stack_stage : Type :=
  | STACK_STAGE_FIRST_ROUND
  | STACK_STAGE_EVENT_LOOP.

(** [struct pcintr_stack].  [nr_frames] is not a field of its own: every
    [list_add_tail]/[list_del] on [frames] is paired with [++]/[--] on the
    counter, so the counter is the length of the list.  The first frame of
    the C list is the head; the bottom frame is the last one. *)
Record pcintr_stack : Type := Stack {
  frames : list pcintr_stack_frame;
  common_variant_observer_list : list pcintr_observer;
  dynamic_variant_observer_list : list pcintr_observer;
  native_variant_observer_list : list pcintr_observer;
  except : bool;
  exception_errcode : purc_error;
  exited : bool;
  stage : pcintr_stack_stage;
  back_anchor : option nat;
  s_on_terminated : bool;          (* is stack.ops.on_terminated set? *)
  s_on_cleanup : bool;             (* is stack.ops.on_cleanup set? *)
  s_ctxt : option nat;
}.

Definition stack_set_frames (fs : list pcintr_stack_frame) (s : pcintr_stack)
    : pcintr_stack :=
  Stack fs (common_variant_observer_list s) (dynamic_variant_observer_list s)
        (native_variant_observer_list s) (except s) (exception_errcode s)
        (exited s) (stage s) (back_anchor s) (s_on_terminated s)
        (s_on_cleanup s) (s_ctxt s).

(** A write through a frame pointer: the frame at position [i]. *)
Definition stack_update_frame (i : nat)
    (g : pcintr_stack_frame → pcintr_stack_frame) (s : pcintr_stack)
    : pcintr_stack :=
  stack_set_frames (alter g i (frames s)) s.

Definition nr_frames (s : pcintr_stack) : nat := length (frames s).

Inductive pcintr_coroutine_state : Type :=
  | CO_STATE_READY
  | CO_STATE_RUN
  | CO_STATE_WAIT.

#[global] Instance pcintr_coroutine_state_eq_dec :
  EqDecision pcintr_coroutine_state.
Proof. solve_decision. Defined.

Record pcintr_coroutine : Type := Coroutine {
  co_addr : nat;
  co_stack : pcintr_stack;
  co_state : pcintr_coroutine_state;
  co_waits : Z;
}.

Definition co_set_stack (s : pcintr_stack) (co : pcintr_coroutine) :=
  Coroutine (co_addr co) s (co_state co) (co_waits co).
Definition co_set_state (st : pcintr_coroutine_state) (co : pcintr_coroutine) :=
  Coroutine (co_addr co) (co_stack co) st (co_waits co).
Definition co_set_waits (w : Z) (co : pcintr_coroutine) :=
  Coroutine (co_addr co) (co_stack co) (co_state co) w.

(** The model follows one coroutine: [pcintr_get_stack()] is its stack when
    it is the running coroutine of the heap, and [NULL] otherwise. *)
Definition pcintr_get_stack (co : pcintr_coroutine) (inst : pcinst)
    : option pcintr_stack :=
  match running_coroutine inst with
  | Some running =>
      if decide (running = co_addr co) then Some (co_stack co) else None
  | None => None
  end.

(** ** Pushing and popping frames (interpreter.c, 100-151 and 654-867) *)

(** A frame pointer is the position of the frame in [frames]. *)
Definition pcintr_stack_get_bottom_frame (s : pcintr_stack) : option nat :=
  if decide (nr_frames s < 1)%nat then None
  else Some (pred (nr_frames s)).

Definition pcintr_stack_frame_get_parent (s : pcintr_stack) (frame : option nat)
    : option nat :=
  match frame with
  | None => None
  | Some i =>
      match frames s !! i with
      | None => None
      | Some f =>
          match f_type f with
          | STACK_FRAME_TYPE_PSEUDO => None
          | STACK_FRAME_TYPE_NORMAL =>
              if decide (i = 0%nat) then None else Some (pred i)
          end
      end
  end.

Definition stack_frame_release (f : pcintr_stack_frame) (inst : pcinst)
    : outcome pcinst :=
  match f_ctxt f with
  | Some c =>
      _ ← PC_ASSERT (f_ctxt_destroy f);
      mret (emit (EvCtxtDestroy c) inst)
  | None => mret inst
  end.

Definition pop_stack_frame (s : pcintr_stack) (inst : pcinst)
    : outcome (pcintr_stack * pcinst) :=
  _ ← PC_ASSERT (bool_decide (0 < nr_frames s)%nat);
  match last (frames s) with
  | None => Aborted
  | Some f =>
      (* both frame types end in stack_frame_release *)
      inst ← stack_frame_release f inst;
      mret (stack_set_frames (removelast (frames s)) s, inst)
  end.

Definition pcintr_set_symbol_var (s : pcintr_stack) (frame : nat)
    (symbol : purc_symbol_var) (val : purc_variant_t)
    : outcome (Z * pcintr_stack) :=
  _ ← PC_ASSERT (bool_decide (is_Some (frames s !! frame)));
  _ ← PC_ASSERT (bool_decide (is_Some val));
  mret (0, stack_update_frame frame (frame_set_symbol_var symbol val) s).

Definition pcintr_set_at_var s frame val :=
  pcintr_set_symbol_var s frame PURC_SYMBOL_VAR_AT_SIGN val.
Definition pcintr_set_question_var s frame val :=
  pcintr_set_symbol_var s frame PURC_SYMBOL_VAR_QUESTION_MARK val.
Definition pcintr_set_exclamation_var s frame val :=
  pcintr_set_symbol_var s frame PURC_SYMBOL_VAR_EXCLAMATION val.

Definition init_percent_symval (s : pcintr_stack) (frame : nat) (inst : pcinst)
    : Z * pcintr_stack * pcinst :=
  let '(idx, inst) := purc_variant_make_ulongint 0 inst in
  match idx with
  | None => (-1, s, inst)
  | Some _ =>
      (0, stack_update_frame frame
            (frame_set_symbol_var PURC_SYMBOL_VAR_PERCENT_SIGN idx) s, inst)
  end.

Definition init_at_symval (s : pcintr_stack) (frame : nat) (inst : pcinst)
    : outcome (Z * pcintr_stack * pcinst) :=
  match pcintr_stack_frame_get_parent s (Some frame) with
  | None => mret (0, s, inst)
  | Some parent =>
      match frames s !! parent ≫= f_edom_element with
      | None => mret (0, s, inst)
      | Some edom =>
          let '(at_, inst) := pcdvobjs_make_elements edom inst in
          match at_ with
          | None => mret (-1, s, inst)
          | Some _ =>
              '(r, s) ← pcintr_set_at_var s frame at_;
              mret (if decide (r = 0) then 0 else -1, s, inst)
          end
      end
  end.

Definition init_exclamation_symval (s : pcintr_stack) (frame : nat)
    (inst : pcinst) : outcome (Z * pcintr_stack * pcinst) :=
  let '(exclamation_var, inst) := purc_variant_make_object_0 inst in
  match exclamation_var with
  | None => mret (-1, s, inst)
  | Some _ =>
      '(r, s) ← pcintr_set_exclamation_var s frame exclamation_var;
      mret (if decide (r = 0) then 0 else -1, s, inst)
  end.

Definition init_undefined_symvals (s : pcintr_stack) (frame : nat)
    (inst : pcinst) : Z * pcintr_stack * pcinst :=
  let '(undefined, inst) := purc_variant_make_undefined inst in
  match undefined with
  | None => (-1, s, inst)
  | Some _ =>
      (0, stack_update_frame frame (frame_set_all_symbol_vars undefined) s,
       inst)
  end.

Definition frame_is_pseudo (s : pcintr_stack) (frame : nat) : bool :=
  match frames s !! frame with
  | Some f =>
      match f_type f with
      | STACK_FRAME_TYPE_PSEUDO => true
      | STACK_FRAME_TYPE_NORMAL => false
      end
  | None => false
  end.

Definition init_symvals_with_vals (s : pcintr_stack) (frame : nat)
    (inst : pcinst) : outcome (Z * pcintr_stack * pcinst) :=
  let '(r, s, inst) := init_undefined_symvals s frame inst in
  if decide (r ≠ 0) then mret (-1, s, inst)
  else if frame_is_pseudo s frame then mret (0, s, inst)
  else
    (* $0% *)
    let '(r, s, inst) := init_percent_symval s frame inst in
    if decide (r ≠ 0) then mret (-1, s, inst)
    else
      (* $0@ *)
      '(r, s, inst) ← init_at_symval s frame inst;
      if decide (r ≠ 0) then mret (-1, s, inst)
      else
        (* $0! *)
        '(r, s, inst) ← init_exclamation_symval s frame inst;
        if decide (r ≠ 0) then mret (-1, s, inst)
        else mret (0, s, inst).

(** Returns the new frame, or [None] for [NULL]. *)
Definition push_stack_frame_normal (s : pcintr_stack) (inst : pcinst)
    : outcome (option nat * pcintr_stack * pcinst) :=
  let '(ok, inst) := calloc inst in
  if negb ok then
    mret (None, s, purc_set_error PURC_ERROR_OUT_OF_MEMORY inst)
  else
    (* init_stack_frame returns 0; list_add_tail; ++nr_frames *)
    let frame := nr_frames s in
    let s := stack_set_frames
               (frames s ++ [frame_calloc STACK_FRAME_TYPE_NORMAL]) s in
    '(r, s, inst) ← init_symvals_with_vals s frame inst;
    if decide (r = 0) then mret (Some frame, s, inst)
    else
      '(s, inst) ← pop_stack_frame s inst;
      mret (None, s, inst).

(** The symbol variable of a frame, by contents. *)
Definition symval (f : pcintr_stack_frame) (sym : purc_symbol_var)
    : option value :=
  v_val <$> f_symbol_vars f sym.

(** A stack without frames and an instance whose allocations all succeed. *)
Definition stack0 : pcintr_stack :=
  Stack [] [] [] [] false PURC_ERROR_OK false STACK_STAGE_FIRST_ROUND None
        false false None.

Definition inst0 : pcinst := Inst PURC_ERROR_OK 0 [] [] None [].

Definition frames_after_push (s : pcintr_stack) (inst : pcinst)
    : option (list pcintr_stack_frame) :=
  match push_stack_frame_normal s inst with
  | Done (Some _, s', _) => Some (frames s')
  | _ => None
  end.

(** ** The frame state machine (interpreter.c, 1119-1357) *)

Definition stack_set_except (b : bool) (e : purc_error) (s : pcintr_stack)
    : pcintr_stack :=
  Stack (frames s) (common_variant_observer_list s)
        (dynamic_variant_observer_list s) (native_variant_observer_list s)
        b e (exited s) (stage s) (back_anchor s) (s_on_terminated s)
        (s_on_cleanup s) (s_ctxt s).

Definition stack_set_exited (b : bool) (s : pcintr_stack) : pcintr_stack :=
  Stack (frames s) (common_variant_observer_list s)
        (dynamic_variant_observer_list s) (native_variant_observer_list s)
        (except s) (exception_errcode s) b (stage s) (back_anchor s)
        (s_on_terminated s) (s_on_cleanup s) (s_ctxt s).

Definition stack_set_stage (st : pcintr_stack_stage) (s : pcintr_stack)
    : pcintr_stack :=
  Stack (frames s) (common_variant_observer_list s)
        (dynamic_variant_observer_list s) (native_variant_observer_list s)
        (except s) (exception_errcode s) (exited s) st (back_anchor s)
        (s_on_terminated s) (s_on_cleanup s) (s_ctxt s).

Definition stack_set_hooks (on_terminated on_cleanup : bool)
    (ctxt : option nat) (s : pcintr_stack) : pcintr_stack :=
  Stack (frames s) (common_variant_observer_list s)
        (dynamic_variant_observer_list s) (native_variant_observer_list s)
        (except s) (exception_errcode s) (exited s) (stage s) (back_anchor s)
        on_terminated on_cleanup ctxt.

(** What a table of element operations does.  A callback receives the
    coroutine (it is handed [&co->stack]) and the instance, and returns its
    result with the state it leaves; [None] is a [NULL] function pointer.
    A returned [void*] context or element pointer is [None] when [NULL]. *)
Record pcintr_element_ops : Type := ElementOps {
  ops_after_pushed :
    option (pcvdom_element_t → pcintr_coroutine → pcinst →
            option nat * pcintr_coroutine * pcinst);
  ops_on_popping :
    option (option nat → pcintr_coroutine → pcinst →
            bool * pcintr_coroutine * pcinst);
  ops_rerun :
    option (option nat → pcintr_coroutine → pcinst →
            bool * pcintr_coroutine * pcinst);
  ops_select_child :
    option (option nat → pcintr_coroutine → pcinst →
            pcvdom_element_t * pcintr_coroutine * pcinst);
}.

Definition pcintr_is_element_silently (element : pcvdom_element_t) : bool :=
  match element with
  | Some (PCVDOM_NODE_ELEMENT _ silently _) => silently
  | _ => false
  end.

(** A write through the frame pointer [frame].  The frame a callback was
    entered with may be gone when it returns; writing through the dangling
    pointer has no defined result. *)
Definition frame_write (co : pcintr_coroutine) (frame : nat)
    (g : pcintr_stack_frame → pcintr_stack_frame) : outcome pcintr_coroutine :=
  match frames (co_stack co) !! frame with
  | Some _ => mret (co_set_stack (stack_update_frame frame g (co_stack co)) co)
  | None => Aborted
  end.

(** [frame->next_step = ns] through a frame pointer that is still valid. *)
Definition set_next_step (frame : nat) (ns : pcintr_next_step)
    (co : pcintr_coroutine) : pcintr_coroutine :=
  co_set_stack (stack_update_frame frame (frame_set_next_step ns) (co_stack co))
               co.

Definition frame_set_child_fields (ops : ops_name) (scope pos : pcvdom_element_t)
    (silently : bool) (edom_element : option nat) (ns : pcintr_next_step)
    (f : pcintr_stack_frame) : pcintr_stack_frame :=
  Frame (f_type f) scope pos edom_element (f_ctxt f) (f_ctxt_destroy f)
        silently ops (f_symbol_vars f) (f_attr_vars f) (f_ctnt_var f)
        (f_result_from_child f) ns (f_preemptor f).

(** [co_is_observed], line for line. *)
Definition co_is_observed (co : pcintr_coroutine) : bool :=
  if negb (bool_decide (common_variant_observer_list (co_stack co) = [])) then
    true
  else if negb (bool_decide (dynamic_variant_observer_list (co_stack co) = []))
  then true
  else if negb (bool_decide (native_variant_observer_list (co_stack co) = []))
  then true
  else true.

(** [terminating_co]: returns the coroutine if it is alive, otherwise
    [None] for [NULL]. *)
Definition terminating_co (co : pcintr_coroutine) (inst : pcinst)
    : outcome (option pcintr_coroutine * pcinst) :=
  let '(co, inst) :=
    if except (co_stack co) then
      (co_set_stack
         (stack_set_except false (exception_errcode (co_stack co))
            (co_stack co)) co,
       emit EvDumpCStack inst)
    else (co, inst) in
  if negb (co_is_observed co) then
    mret (Some (co_set_state CO_STATE_WAIT co), inst)
  else
    _ ← PC_ASSERT (bool_decide (back_anchor (co_stack co) = None));
    let s := co_stack co in
    let '(s, inst) :=
      if s_on_terminated s then
        (stack_set_hooks false (s_on_cleanup s) (s_ctxt s) s,
         emit (EvOnTerminated (co_addr co)) inst)
      else (s, inst) in
    let '(s, inst) :=
      if s_on_cleanup s then
        (stack_set_hooks (s_on_terminated s) false None s,
         emit (EvOnCleanup (co_addr co)) inst)
      else (s, inst) in
    (* list_del(&co->node); coroutine_destroy(co) *)
    let inst := heap_unlink (co_addr co) inst in
    let inst := emit (EvCoroutineDestroy (co_addr co)) inst in
    mret (None, inst).

Section Machine.

(** The tables of element operations by name, and the two functions of
    the interpreter that are declared in headers only: the table of an
    element's kind ([ops.h]) and the hand-over of the finished document to
    the renderer. *)
Variable ops_table : nat → pcintr_element_ops.
Variable pcintr_get_ops_by_element : pcvdom_element_t → ops_name.
Variable pcintr_rdr_page_control_load : pcintr_stack → pcinst → bool * pcinst.

Definition frame_ops (f : pcintr_stack_frame) : pcintr_element_ops :=
  match f_ops f with
  | Some name => ops_table name
  | None => ElementOps None None None None
  end.

Definition after_pushed (co : pcintr_coroutine) (inst : pcinst) (frame : nat)
    : outcome (pcintr_coroutine * pcinst) :=
  f ← (match frames (co_stack co) !! frame with
       | Some f => Done f | None => Aborted end);
  match ops_after_pushed (frame_ops f) with
  | Some cb =>
      let '(ctxt, co, inst) := cb (f_pos f) co inst in
      match ctxt with
      | None =>
          co ← frame_write co frame (frame_set_next_step NEXT_STEP_ON_POPPING);
          mret (co, inst)
      | Some _ =>
          co ← frame_write co frame
                 (frame_set_next_step NEXT_STEP_SELECT_CHILD);
          mret (co, inst)
      end
  | None =>
      co ← frame_write co frame (frame_set_next_step NEXT_STEP_SELECT_CHILD);
      mret (co, inst)
  end.

Definition on_popping (co : pcintr_coroutine) (inst : pcinst) (frame : nat)
    : outcome (pcintr_coroutine * pcinst) :=
  f ← (match frames (co_stack co) !! frame with
       | Some f => Done f | None => Aborted end);
  let '(ok, co, inst) :=
    match ops_on_popping (frame_ops f) with
    | Some cb => cb (f_ctxt f) co inst
    | None => (true, co, inst)
    end in
  if ok then
    '(s, inst) ← pop_stack_frame (co_stack co) inst;
    mret (co_set_stack s co, inst)
  else
    co ← frame_write co frame (frame_set_next_step NEXT_STEP_RERUN);
    mret (co, inst).

Definition on_rerun (co : pcintr_coroutine) (inst : pcinst) (frame : nat)
    : outcome (pcintr_coroutine * pcinst) :=
  f ← (match frames (co_stack co) !! frame with
       | Some f => Done f | None => Aborted end);
  let '(ok, co, inst) :=
    match ops_rerun (frame_ops f) with
    | Some cb => cb (f_ctxt f) co inst
    | None => (false, co, inst)
    end in
  _ ← PC_ASSERT ok;
  co ← frame_write co frame (frame_set_next_step NEXT_STEP_SELECT_CHILD);
  mret (co, inst).

Definition on_select_child (co : pcintr_coroutine) (inst : pcinst)
    (frame : nat) : outcome (pcintr_coroutine * pcinst) :=
  f ← (match frames (co_stack co) !! frame with
       | Some f => Done f | None => Aborted end);
  let '(element, co, inst) :=
    match ops_select_child (frame_ops f) with
    | Some cb => cb (f_ctxt f) co inst
    | None => (None, co, inst)
    end in
  match element with
  | None =>
      co ← frame_write co frame (frame_set_next_step NEXT_STEP_ON_POPPING);
      mret (co, inst)
  | Some _ =>
      co ← frame_write co frame (frame_set_next_step NEXT_STEP_SELECT_CHILD);
      (* push child frame *)
      '(frame_normal, s, inst) ← push_stack_frame_normal (co_stack co) inst;
      match frame_normal with
      | None => mret (co_set_stack s co, inst)
      | Some child_frame =>
          let edom := frames s !! frame ≫= f_edom_element in
          co ← frame_write (co_set_stack s co) child_frame
                 (frame_set_child_fields
                    (pcintr_get_ops_by_element element) None element
                    (pcintr_is_element_silently element) edom
                    NEXT_STEP_AFTER_PUSHED);
          mret (co, inst)
      end
  end.

(** The [switch (frame->next_step)] of [execute_one_step_on_frame]. *)
Definition dispatch_next_step (co : pcintr_coroutine) (inst : pcinst)
    (frame : nat) (f : pcintr_stack_frame)
    : outcome (pcintr_coroutine * pcinst) :=
  match f_next_step f with
  | NEXT_STEP_AFTER_PUSHED => after_pushed co inst frame
  | NEXT_STEP_ON_POPPING => on_popping co inst frame
  | NEXT_STEP_RERUN => on_rerun co inst frame
  | NEXT_STEP_SELECT_CHILD => on_select_child co inst frame
  end.

(** Returns the coroutine if it is alive, otherwise [None]. *)
Definition execute_one_step_on_frame (co : pcintr_coroutine) (inst : pcinst)
    : outcome (option pcintr_coroutine * pcinst) :=
  match pcintr_stack_get_bottom_frame (co_stack co) with
  | None => Aborted                               (* PC_ASSERT(frame) *)
  | Some frame =>
      f ← (match frames (co_stack co) !! frame with
           | Some f => Done f | None => Aborted end);
      '(co, inst) ←
        (if f_preemptor f then Aborted            (* not implemented yet *)
         else dispatch_next_step co inst frame f);
      _ ← PC_ASSERT (bool_decide (co_state co = CO_STATE_RUN));
      let co := co_set_state CO_STATE_READY co in
      '(co, inst) ←
        (if purc_error_is_set (errcode inst) then
           _ ← PC_ASSERT (negb (except (co_stack co)));
           mret (co_set_stack
                   (stack_set_except true (errcode inst) (co_stack co)) co,
                 pcinst_clear_error inst)
         else mret (co, inst));
      let no_frames := bool_decide (frames (co_stack co) = []) in
      if no_frames then
        (* send doc to rdr *)
        let '(loaded, inst1) :=
          match stage (co_stack co) with
          | STACK_STAGE_FIRST_ROUND =>
              pcintr_rdr_page_control_load (co_stack co) inst
          | STACK_STAGE_EVENT_LOOP => (true, inst)
          end in
        if negb loaded then
          terminating_co
            (co_set_stack (stack_set_exited true (co_stack co)) co) inst1
        else
          let inst := emit (EvDumpDocument (co_addr co)) inst1 in
          let co :=
            co_set_stack
              (stack_set_stage STACK_STAGE_EVENT_LOOP (co_stack co)) co in
          (* do not run execute-one-step until event's fired
             if co->waits > 0 *)
          if negb (except (co_stack co)) && bool_decide (co_waits co ≠ 0)
          then mret (Some (co_set_state CO_STATE_WAIT co), inst)
          else
            terminating_co
              (co_set_stack (stack_set_exited true (co_stack co)) co) inst
      else
        match pcintr_stack_get_bottom_frame (co_stack co) with
        | Some frame =>
            match frames (co_stack co) !! frame with
            | Some f =>
                if f_preemptor f then Aborted else mret (Some co, inst)
            | None => Aborted
            end
        | None => mret (Some co, inst)
        end
  end.

End Machine.

(** A table whose callbacks leave the state alone: [after_pushed] returns a
    context, [on_popping] and [rerun] return true, [select_child] returns no
    element.  A coroutine that runs one frame of it. *)
Definition demo_ops_table (name : nat) : pcintr_element_ops :=
  ElementOps (Some (λ _ co inst, (Some 1%nat, co, inst)))
             (Some (λ _ co inst, (true, co, inst)))
             (Some (λ _ co inst, (true, co, inst)))
             (Some (λ _ co inst, (None, co, inst))).

Definition demo_get_ops (element : pcvdom_element_t) : ops_name := Some 0%nat.

Definition demo_frame : pcintr_stack_frame :=
  frame_set_child_fields (Some 0%nat) None
    (Some (PCVDOM_NODE_ELEMENT "hvml" false [])) false None
    NEXT_STEP_AFTER_PUSHED (frame_calloc STACK_FRAME_TYPE_NORMAL).

Definition demo_co : pcintr_coroutine :=
  Coroutine 1 (stack_set_frames [demo_frame] stack0) CO_STATE_RUN 0.

(** A coroutine without frames that is still observed: one observer, on a
    string value, sits in its common list, and [waits] counts it.  Both
    document hooks are set.  The heap lists the coroutine. *)
Definition observed_value : purc_variant := Variant 40 (VString "counter").

Definition observer1 : pcintr_observer :=
  Observer 50 (Some observed_value) None None None 3 None None.

Definition observed_co : pcintr_coroutine :=
  Coroutine 7
    (Stack [] [observer1] [] [] true PURC_ERROR_INVALID_VALUE true
           STACK_STAGE_EVENT_LOOP None true true (Some 9%nat))
    CO_STATE_READY 1.

Definition observed_inst : pcinst := Inst PURC_ERROR_OK 100 [] [7%nat] None [].

(** The same coroutine one step earlier: its last frame is about to pop, and
    the [on_popping] callback of the frame leaves an error behind. *)
Definition failing_ops_table (name : nat) : pcintr_element_ops :=
  ElementOps None
             (Some (λ _ co inst,
                      (true, co, purc_set_error PURC_ERROR_INVALID_VALUE inst)))
             None None.

Definition popping_frame : pcintr_stack_frame :=
  frame_set_child_fields (Some 0%nat) None
    (Some (PCVDOM_NODE_ELEMENT "hvml" false [])) false None
    NEXT_STEP_ON_POPPING (frame_calloc STACK_FRAME_TYPE_NORMAL).

Definition observed_co_before : pcintr_coroutine :=
  Coroutine 7
    (Stack [popping_frame] [observer1] [] [] false PURC_ERROR_OK false
           STACK_STAGE_EVENT_LOOP None true true (Some 9%nat))
    CO_STATE_RUN 1.







(** ** Observers (interpreter.c, 353-393 and 1912-2033) *)

Inductive observer_list : Type :=
  | COMMON_VARIANT_OBSERVER_LIST
  | DYNAMIC_VARIANT_OBSERVER_LIST
  | NATIVE_VARIANT_OBSERVER_LIST.

(** The list head [get_observer_list] (and the same chain of tests in
    [pcintr_register_observer]) selects. *)
Definition get_observer_list (observed : purc_variant) : observer_list :=
  if purc_variant_is_dynamic observed then DYNAMIC_VARIANT_OBSERVER_LIST
  else if purc_variant_is_native observed then NATIVE_VARIANT_OBSERVER_LIST
  else COMMON_VARIANT_OBSERVER_LIST.

Definition observers_of (l : observer_list) (s : pcintr_stack)
    : list pcintr_observer :=
  match l with
  | COMMON_VARIANT_OBSERVER_LIST => common_variant_observer_list s
  | DYNAMIC_VARIANT_OBSERVER_LIST => dynamic_variant_observer_list s
  | NATIVE_VARIANT_OBSERVER_LIST => native_variant_observer_list s
  end.

Definition stack_set_observers (c d n : list pcintr_observer)
    (s : pcintr_stack) : pcintr_stack :=
  Stack (frames s) c d n (except s) (exception_errcode s) (exited s) (stage s)
        (back_anchor s) (s_on_terminated s) (s_on_cleanup s) (s_ctxt s).

(** [list_add_tail(&observer->node, list)]. *)
Definition observer_list_add_tail (l : observer_list) (o : pcintr_observer)
    (s : pcintr_stack) : pcintr_stack :=
  match l with
  | COMMON_VARIANT_OBSERVER_LIST =>
      stack_set_observers (common_variant_observer_list s ++ [o])
        (dynamic_variant_observer_list s) (native_variant_observer_list s) s
  | DYNAMIC_VARIANT_OBSERVER_LIST =>
      stack_set_observers (common_variant_observer_list s)
        (dynamic_variant_observer_list s ++ [o])
        (native_variant_observer_list s) s
  | NATIVE_VARIANT_OBSERVER_LIST =>
      stack_set_observers (common_variant_observer_list s)
        (dynamic_variant_observer_list s)
        (native_variant_observer_list s ++ [o]) s
  end.


(** [strdup]: a fresh copy of the bytes, or [NULL] when out of memory. *)
Definition strdup (str : cstr) (inst : pcinst) : cstr_t * pcinst :=
  let '(ok, inst) := calloc inst in
  if ok then
    (Some (CStr (next_addr inst) (c_str str)),
     Inst (errcode inst) (S (next_addr inst)) (alloc_plan inst)
          (heap_coroutines inst) (running_coroutine inst) (events inst))
  else (None, inst).

(** ** Matching an observer against a message (interpreter.c, 2005-2016) *)

(** [a == b] on two [purc_variant_t]. *)
Definition purc_variant_ptr_eq (a b : purc_variant_t) : bool :=
  match a, b with
  | None, None => true
  | Some x, Some y => bool_decide (v_addr x = v_addr y)
  | _, _ => false
  end.

(** [a == b] on two [char*]. *)
Definition cstr_ptr_eq (a b : cstr_t) : bool :=
  match a, b with
  | None, None => true
  | Some x, Some y => bool_decide (c_addr x = c_addr y)
  | _, _ => false
  end.

(** Regular expressions for sub-type patterns, matched by derivatives. *)
Inductive regex : Type :=
  | ReEmpty                       (* matches nothing *)
  | ReEps                         (* matches the empty string *)
  | ReChar (c : ascii)
  | ReAny                         (* [.] *)
  | ReSeq (r1 r2 : regex)
  | ReAlt (r1 r2 : regex)
  | ReStar (r : regex).

Fixpoint re_nullable (r : regex) : bool :=
  match r with
  | ReEmpty | ReChar _ | ReAny => false
  | ReEps | ReStar _ => true
  | ReSeq r1 r2 => re_nullable r1 && re_nullable r2
  | ReAlt r1 r2 => re_nullable r1 || re_nullable r2
  end.

Fixpoint re_deriv (c : ascii) (r : regex) : regex :=
  match r with
  | ReEmpty | ReEps => ReEmpty
  | ReChar d => if bool_decide (c = d) then ReEps else ReEmpty
  | ReAny => ReEps
  | ReSeq r1 r2 =>
      if re_nullable r1
      then ReAlt (ReSeq (re_deriv c r1) r2) (re_deriv c r2)
      else ReSeq (re_deriv c r1) r2
  | ReAlt r1 r2 => ReAlt (re_deriv c r1) (re_deriv c r2)
  | ReStar r1 => ReSeq (re_deriv c r1) (ReStar r1)
  end.

Fixpoint re_match (r : regex) (s : list ascii) : bool :=
  match s with
  | [] => re_nullable r
  | c :: s => re_match (re_deriv c r) s
  end.

Definition re_atom (prev : option regex) : regex :=
  match prev with
  | Some a => a
  | None => ReEps
  end.

(** The pattern syntax: a sequence of atoms (a character, [\\c] for the
    character [c] itself, [.] for any character), each optionally followed
    by one of the quantifiers [*], [+], [?].  [prev] is the atom read last,
    which a quantifier may still follow. *)
Fixpoint re_compile (prev : option regex) (p : list ascii) : regex :=
  match p with
  | [] => re_atom prev
  | "\"%char :: c :: rest =>
      ReSeq (re_atom prev) (re_compile (Some (ReChar c)) rest)
  | "."%char :: rest => ReSeq (re_atom prev) (re_compile (Some ReAny) rest)
  | "*"%char :: rest =>
      match prev with
      | Some a => ReSeq (ReStar a) (re_compile None rest)
      | None => re_compile (Some (ReChar "*")) rest
      end
  | "+"%char :: rest =>
      match prev with
      | Some a => ReSeq (ReSeq a (ReStar a)) (re_compile None rest)
      | None => re_compile (Some (ReChar "+")) rest
      end
  | "?"%char :: rest =>
      match prev with
      | Some a => ReSeq (ReAlt ReEps a) (re_compile None rest)
      | None => re_compile (Some (ReChar "?")) rest
      end
  | c :: rest => ReSeq (re_atom prev) (re_compile (Some (ReChar c)) rest)
  end.

(** Modelled from the spec: [pcregex_is_match(pattern, str)], declared in
    [private/regex.h] and defined outside the sources at hand.  The spec:
    the sub-type pattern "is either an exact string or a compiled regex; a
    null pattern matches anything of the given type".  So a [NULL] pattern
    matches every sub-type, and a pattern matches a sub-type when the whole
    sub-type is a word of the pattern (an exact string is a pattern without
    operators, which matches itself only).  A message without sub-type
    matches no pattern but the null one. *)
Definition pcregex_is_match (pattern str : option string) : bool :=
  match pattern, str with
  | None, _ => true
  | Some _, None => false
  | Some p, Some s =>
      re_match (re_compile None (String.list_ascii_of_string p))
               (String.list_ascii_of_string s)
  end.

Definition is_observer_match (observer : pcintr_observer)
    (observed : purc_variant_t) (type_atom : nat) (sub_type : cstr_t) : bool :=
  if purc_variant_ptr_eq (o_observed observer) observed
     && bool_decide (o_msg_type_atom observer = type_atom) then
    if cstr_ptr_eq (o_sub_type observer) sub_type
       || pcregex_is_match (c_str <$> o_sub_type observer) (c_str <$> sub_type)
    then true
    else false
  else false.

(** The observers [pcintr_handle_message] pushes a frame for: it walks the
    list of the kind of the message source and takes every match. *)
Definition matching_observers (s : pcintr_stack) (source : purc_variant)
    (msg_type_atom : nat) (sub_type : cstr_t) : list pcintr_observer :=
  List.filter (λ p, is_observer_match p (Some source) msg_type_atom sub_type)
              (observers_of (get_observer_list source) s).

Section Observers.

(** Whether the operations of a native entity have an [on_forget]. *)
Variable native_on_forget : native_entity → bool.

(** [co] is the coroutine the observer is registered on; the functions
    reach it through [pcintr_get_stack()]. *)
Definition add_observer_into_list (l : observer_list) (o : pcintr_observer)
    (co : pcintr_coroutine) (inst : pcinst) : outcome pcintr_coroutine :=
  let s := observer_list_add_tail l o (co_stack co) in
  (* TODO: *)
  _ ← PC_ASSERT (bool_decide (is_Some (pcintr_get_stack co inst)));
  _ ← PC_ASSERT (bool_decide (0 ≤ co_waits co));
  mret (co_set_waits (co_waits co + 1) (co_set_stack s co)).

Definition pcintr_register_observer (observed : purc_variant)
    (msg_type_atom : nat) (sub_type : cstr_t)
    (scope : pcvdom_element_t) (edom_element : option nat)
    (pos : pcvdom_element_t) (on_revoke : option nat)
    (co : pcintr_coroutine) (inst : pcinst)
    : outcome (option pcintr_observer * pcintr_coroutine * pcinst) :=
  (* the list heads are fields of the stack pcintr_get_stack() returns *)
  _ ← (match pcintr_get_stack co inst with
       | Some _ => Done tt | None => Aborted end);
  let list := get_observer_list observed in
  let '(ok, inst) := calloc inst in
  if negb ok then
    mret (None, co, purc_set_error PURC_ERROR_OUT_OF_MEMORY inst)
  else
    let addr := next_addr inst in
    let inst := Inst (errcode inst) (S addr) (alloc_plan inst)
                     (heap_coroutines inst) (running_coroutine inst)
                     (events inst) in
    let '(sub_type, inst) :=
      match sub_type with
      | Some str => strdup str inst
      | None => (None, inst)
      end in
    let observer :=
      Observer addr (Some observed) scope edom_element pos msg_type_atom
               sub_type on_revoke in
    co ← add_observer_into_list list observer co inst;
    mret (Some observer, co, inst).





Definition all_observers (s : pcintr_stack) : list pcintr_observer :=
  common_variant_observer_list s ++ dynamic_variant_observer_list s
  ++ native_variant_observer_list s.



End Observers.

#[global] Instance observer_list_eq_dec : EqDecision observer_list.
Proof. solve_decision. Defined.

(** The observers of a coroutine are well kept: the coroutine is the
    running one, no observer is linked twice (in one list or in two), each
    sits in the list of the kind of the value it observes, its address is
    one the allocator has handed out, and [waits] counts at least all of
    them. *)
Definition observers_wf (co : pcintr_coroutine) (inst : pcinst) : Prop :=
  running_coroutine inst = Some (co_addr co) ∧
  NoDup (o_addr <$> all_observers (co_stack co)) ∧
  (∀ l o, o ∈ observers_of l (co_stack co) →
          ∃ v, o_observed o = Some v ∧ get_observer_list v = l) ∧
  (∀ o, o ∈ all_observers (co_stack co) → (o_addr o < next_addr inst)%nat) ∧
  Z.of_nat (length (all_observers (co_stack co))) ≤ co_waits co.

(** An observer of clicks on a button value, with a regex sub-type. *)
Definition button_value : purc_variant := Variant 60 (VString "button").

Definition click_observer : pcintr_observer :=
  Observer 61 (Some button_value) None None None 8
           (Some (CStr 62 "click\..+")) None.

(** A pattern without operators: an exact string. *)
Definition re_plain_char (c : ascii) : bool :=
  negb (bool_decide (c = "\"%char) || bool_decide (c = "."%char)
        || bool_decide (c = "*"%char) || bool_decide (c = "+"%char)
        || bool_decide (c = "?"%char)).

Definition re_plain (p : list ascii) : bool := forallb re_plain_char p.

(** ** Expression variables (vcm-ev.c) and their scan (interpreter.c,
       3172-3260) *)

Record pcvcm_ev : Type := VcmEv {
  ev_vcm : nat;                          (* the expression tree *)
  ev_method_name : string;
  ev_const_method_name : string;
  ev_const_value : purc_variant_t;
  ev_last_value : purc_variant_t;
  ev_release_vcm : bool;
  ev_constantly : bool;
}.

Definition ev_set_const_value (v : purc_variant_t) (ev : pcvcm_ev) : pcvcm_ev :=
  VcmEv (ev_vcm ev) (ev_method_name ev) (ev_const_method_name ev) v
        (ev_last_value ev) (ev_release_vcm ev) (ev_constantly ev).

Definition ev_set_last_value (v : purc_variant_t) (ev : pcvcm_ev) : pcvcm_ev :=
  VcmEv (ev_vcm ev) (ev_method_name ev) (ev_const_method_name ev)
        (ev_const_value ev) v (ev_release_vcm ev) (ev_constantly ev).

(** The functions a [purc_nvariant_method] of an expression variable can
    point to. *)
Inductive purc_nvariant_method : Type :=
  | Method_eval_getter
  | Method_eval_const_getter
  | Method_vcm_ev_getter
  | Method_last_value_getter
  | Method_last_value_setter
  | Method_method_name_getter
  | Method_const_method_name_getter.

Definition last_value_getter (ev : pcvcm_ev) : purc_variant_t :=
  ev_last_value ev.

(** [argv] holds the [nr_args] arguments. *)
Definition last_value_setter (ev : pcvcm_ev) (argv : list purc_variant_t)
    : purc_variant_t * pcvcm_ev :=
  match argv with
  | [] => (PURC_VARIANT_INVALID, ev)
  | arg0 :: _ => (arg0, ev_set_last_value arg0 ev)
  end.

(** A message of the bus, and its hand-over to the loop. *)
Definition pcintr_dispatch_message_ex (source : purc_variant)
    (type sub_type extra : purc_variant_t) (inst : pcinst) : purc_error * pcinst :=
  (* pcintr_message_create *)
  let '(ok, inst) := calloc inst in
  if negb ok then
    (PURC_ERROR_OUT_OF_MEMORY, purc_set_error PURC_ERROR_OUT_OF_MEMORY inst)
  else
    (PURC_ERROR_OK, emit (EvPostMessage source type sub_type extra) inst).

Definition MSG_TYPE_CHANGE : string := "change".

Section ExpressionVariable.

(** The property names of [private/vcm.h], the evaluator of expression
    trees, the comparison of two values under
    [PCVARIANT_COMPARE_OPT_AUTO], and the table of an element's kind. *)
Variable PCVCM_EV_PROPERTY_EVAL : string.
Variable PCVCM_EV_PROPERTY_VCM_EV : string.
Variable PCVCM_EV_PROPERTY_LAST_VALUE : string.
Variable PCVCM_EV_PROPERTY_METHOD_NAME : string.
Variable PCVCM_EV_PROPERTY_CONST_METHOD_NAME : string.
Variable pcvcm_eval :
  nat → pcintr_stack → bool → pcinst → purc_variant_t * pcinst.
Variable purc_variant_compare_ex : purc_variant → purc_variant_t → Z.
Variable pcintr_get_ops_by_element : pcvdom_element_t → ops_name.

Definition eval_getter (co : pcintr_coroutine) (ev : pcvcm_ev)
    (silently : bool) (inst : pcinst) : purc_variant_t * pcinst :=
  match pcintr_get_stack co inst with
  | None => (PURC_VARIANT_INVALID, inst)
  | Some stack => pcvcm_eval (ev_vcm ev) stack silently inst
  end.

Definition eval_const_getter (co : pcintr_coroutine) (ev : pcvcm_ev)
    (silently : bool) (inst : pcinst)
    : purc_variant_t * pcvcm_ev * pcinst :=
  match ev_const_value ev with
  | Some v => (Some v, ev, inst)
  | None =>
      let '(v, inst) := eval_getter co ev silently inst in
      (v, ev_set_const_value v ev, inst)
  end.

Definition property_getter (ev : pcvcm_ev) (key_name : string)
    : option purc_nvariant_method :=
  if decide (ev_method_name ev = key_name) then Some Method_eval_getter
  else if decide (ev_const_method_name ev = key_name)
  then Some Method_eval_const_getter
  else if decide (key_name = PCVCM_EV_PROPERTY_VCM_EV)
  then Some Method_vcm_ev_getter
  else if decide (key_name = PCVCM_EV_PROPERTY_LAST_VALUE)
  then Some Method_last_value_getter
  else if decide (key_name = PCVCM_EV_PROPERTY_METHOD_NAME)
  then Some Method_method_name_getter
  else if decide (key_name = PCVCM_EV_PROPERTY_CONST_METHOD_NAME)
  then Some Method_const_method_name_getter
  else None.

Definition property_setter (key_name : string)
    : option purc_nvariant_method :=
  if decide (key_name = PCVCM_EV_PROPERTY_LAST_VALUE)
  then Some Method_last_value_setter
  else None.

(** A call through a method pointer. *)
Definition call_method (m : purc_nvariant_method) (co : pcintr_coroutine)
    (ev : pcvcm_ev) (argv : list purc_variant_t) (call_flags : bool)
    (inst : pcinst) : purc_variant_t * pcvcm_ev * pcinst :=
  match m with
  | Method_eval_getter =>
      let '(v, inst) := eval_getter co ev call_flags inst in (v, ev, inst)
  | Method_eval_const_getter => eval_const_getter co ev call_flags inst
  | Method_vcm_ev_getter =>
      let '(v, inst) := purc_variant_make_boolean true inst in (v, ev, inst)
  | Method_last_value_getter => (last_value_getter ev, ev, inst)
  | Method_last_value_setter =>
      let '(v, ev) := last_value_setter ev argv in (v, ev, inst)
  | Method_method_name_getter =>
      let '(v, inst) := purc_variant_make_string (ev_method_name ev) inst in
      (v, ev, inst)
  | Method_const_method_name_getter =>
      let '(v, inst) :=
        purc_variant_make_string (ev_const_method_name ev) inst in
      (v, ev, inst)
  end.

(** The fields [pcintr_observe_vcm_ev] sets on its virtual frame; the
    [next_step] of the frame is left as [calloc] gave it. *)
Definition frame_set_observer_fields (observer : pcintr_observer)
    (f : pcintr_stack_frame) : pcintr_stack_frame :=
  frame_set_child_fields (pcintr_get_ops_by_element (o_pos observer))
    (o_scope observer) (o_pos observer)
    (pcintr_is_element_silently (o_pos observer)) (o_edom_element observer)
    (f_next_step f) f.

(** [var] is the observed native value and [ev] the [struct pcvcm_ev] it
    wraps.  The calls through [NULL] when a property has no method, and
    the reads of [frame->silently] after the frame is popped, are taken
    as the source means them: the former stops, the latter yield the
    value the frame had. *)
Definition pcintr_observe_vcm_ev (co : pcintr_coroutine)
    (observer : pcintr_observer) (var : purc_variant) (ev : pcvcm_ev)
    (inst : pcinst) : outcome (pcintr_coroutine * pcvcm_ev * pcinst) :=
  (* create virtual frame *)
  '(frame_normal, s, inst) ← push_stack_frame_normal (co_stack co) inst;
  let co := co_set_stack s co in
  match frame_normal with
  | None => mret (co, ev, inst)
  | Some frame =>
      co ← frame_write co frame (frame_set_observer_fields observer);
      let silently := pcintr_is_element_silently (o_pos observer) in
      (* eval value *)
      eval_getter_ ← (match property_getter ev PCVCM_EV_PROPERTY_EVAL with
                      | Some m => Done m | None => Aborted end);
      let '(new_val, ev, inst) :=
        call_method eval_getter_ co ev [] silently inst in
      '(s, inst) ← pop_stack_frame (co_stack co) inst;
      let co := co_set_stack s co in
      match new_val with
      | None => mret (co, ev, inst)
      | Some new_value =>
          (* get last value *)
          last_value_getter_ ←
            (match property_getter ev PCVCM_EV_PROPERTY_LAST_VALUE with
             | Some m => Done m | None => Aborted end);
          let '(last_value, ev, inst) :=
            call_method last_value_getter_ co ev [] silently inst in
          let cmp := purc_variant_compare_ex new_value last_value in
          if decide (cmp = 0) then mret (co, ev, inst)
          else
            last_value_setter_ ←
              (match property_setter PCVCM_EV_PROPERTY_LAST_VALUE with
               | Some m => Done m | None => Aborted end);
            let '(_, ev, inst) :=
              call_method last_value_setter_ co ev [new_val] silently inst in
            (* dispatch change event *)
            let '(type, inst) :=
              purc_variant_make_string MSG_TYPE_CHANGE inst in
            let '(_, inst) :=
              pcintr_dispatch_message_ex var type PURC_VARIANT_INVALID
                PURC_VARIANT_INVALID inst in
            mret (co, ev, inst)
      end
  end.

(** The walk of [pcintr_event_timer_fire] over the native observers;
    [evs] maps the address of an expression variable to its [struct
    pcvcm_ev].  Only expression variables answer the [vcm_ev] property. *)
Fixpoint scan_observers (observers : list pcintr_observer)
    (co : pcintr_coroutine) (evs : gmap nat pcvcm_ev) (inst : pcinst)
    : outcome (pcintr_coroutine * gmap nat pcvcm_ev * pcinst) :=
  match observers with
  | [] => mret (co, evs, inst)
  | p :: rest =>
      '(co, evs, inst) ←
        match o_observed p with
        | Some var =>
            match v_val var with
            | VNative (NativeVcmEv e) =>
                match evs !! e with
                | Some ev =>
                    match property_getter ev PCVCM_EV_PROPERTY_VCM_EV with
                    | Some _ =>
                        '(co, ev, inst) ←
                          pcintr_observe_vcm_ev co p var ev inst;
                        mret (co, <[e := ev]> evs, inst)
                    | None => mret (co, evs, inst)
                    end
                | None => mret (co, evs, inst)
                end
            | _ => mret (co, evs, inst)
            end
        | None => mret (co, evs, inst)
        end;
      scan_observers rest co evs inst
  end.

Definition pcintr_event_timer_fire (ctxt : option pcintr_coroutine)
    (evs : gmap nat pcvcm_ev) (inst : pcinst)
    : outcome (option pcintr_coroutine * gmap nat pcvcm_ev * pcinst) :=
  match ctxt with
  | None => mret (None, evs, inst)
  | Some co =>
      '(co, evs, inst) ←
        scan_observers (native_variant_observer_list (co_stack co))
                       co evs inst;
      mret (Some co, evs, inst)
  end.

End ExpressionVariable.

(** [inst'] differs from [inst] at most in the addresses handed out. *)
Definition inst_allocated (inst inst' : pcinst) : Prop :=
  errcode inst' = errcode inst ∧
  alloc_plan inst' = alloc_plan inst ∧
  heap_coroutines inst' = heap_coroutines inst ∧
  running_coroutine inst' = running_coroutine inst ∧
  events inst' = events inst.

(** Everything of a stack but its frames. *)
Definition stack_rest (s : pcintr_stack) : pcintr_stack := stack_set_frames [] s.

(** An expression variable whose tree evaluates to 2 and whose last value
    is 1, observed by the demo coroutine; values compare by contents. *)
Definition demo_fresh_value : purc_variant := Variant 900 (VLongint 2).

Definition demo_eval (vcm : nat) (s : pcintr_stack) (silently : bool)
    (inst : pcinst) : purc_variant_t * pcinst :=
  (Some demo_fresh_value, inst).

Definition demo_compare (a : purc_variant) (b : purc_variant_t) : Z :=
  match v_val a, v_val <$> b with
  | VLongint x, Some (VLongint y) => x - y
  | _, _ => 1
  end.

Definition demo_ev : pcvcm_ev :=
  VcmEv 0 "eval" "eval_const" None (Some (Variant 901 (VLongint 1)))
        false false.

Definition ev_var : purc_variant := Variant 902 (VNative (NativeVcmEv 5)).

Definition ev_observer : pcintr_observer :=
  Observer 903 (Some ev_var) None None None 3 None None.

Definition ev_inst : pcinst := Inst PURC_ERROR_OK 1000 [] [1%nat] (Some 1%nat) [].

(** The coroutine of [ev_inst] between two turns, with [ev_observer] in
    its list of observers of native values; and the instance as the run
    loop has it when it calls a timer: no coroutine is current. *)
Definition scan_co : pcintr_coroutine :=
  Coroutine 1
    (stack_set_observers [] [] [ev_observer]
       (stack_set_frames [demo_frame] stack0))
    CO_STATE_READY 1.

Definition timer_inst : pcinst :=
  Inst PURC_ERROR_OK 1000 [] [1%nat] None [].

(** ** Requests (interpreter.c, 521-540 and 3436-3682) *)

Inductive pcintr_req_type : Type :=
  | REQ_TYPE_RAW
  | REQ_TYPE_SYNC
  | REQ_TYPE_ASYNC.

Inductive pcintr_req_state : Type :=
  | REQ_STATE_PENDING
  | REQ_STATE_ACTIVATING
  | REQ_STATE_HIBERNATING
  | REQ_STATE_CANCELLED
  | REQ_STATE_DYING.

#[global] Instance pcintr_req_state_eq_dec : EqDecision pcintr_req_state.
Proof. solve_decision. Defined.

(** [struct pcintr_req] without [pseudo_frame], which the code at hand does
    not read, and without [ops]: the callbacks of a request show as the
    calls that are made, and [pcintr_post_req] has asserted that none of
    them is [NULL]. *)
Record pcintr_req : Type := Req {
  req_owner : nat;                 (* the owning coroutine *)
  req_type : pcintr_req_type;
  req_frame : option nat;
  req_ctxt : nat;
  req_refc : Z;
  req_state : pcintr_req_state;
}.

Definition req_set_state (st : pcintr_req_state) (r : pcintr_req) : pcintr_req :=
  Req (req_owner r) (req_type r) (req_frame r) (req_ctxt r) (req_refc r) st.

Definition req_set_refc (n : Z) (r : pcintr_req) : pcintr_req :=
  Req (req_owner r) (req_type r) (req_frame r) (req_ctxt r) n (req_state r).

(** Modelled from the spec: the [callbacks] of a request,
    [struct pcintr_req_ops], which is declared in a header that is not among
    the sources.  Its members are the three that interpreter.c checks and
    calls.  [req] is handed the new request and the context and returns an
    [int]; the request is an opaque pointer to it, [struct pcintr_req]
    being private to interpreter.c, so the callback is given by its
    result. *)
Record pcintr_req_ops : Type := ReqOps {
  req_ops_req : option (nat → nat → Z);
  req_ops_cancel : bool;           (* is the pointer set? *)
  req_ops_callback : bool;         (* is the pointer set? *)
}.

(** The calls that leave the request code. *)
Inductive req_call : Type :=
  | CallReq (req ctxt : nat)          (* ops->req(req, ctxt) *)
  | CallCancel (req ctxt : nat)       (* req->ops->cancel(req, req->ctxt) *)
  | CallWakeupActivating              (* wakeup_heap(.., on_req_activating) *)
  | CallWakeupDying.                  (* wakeup_heap(.., on_req_dying) *)

Inductive req_queue : Type :=
  | PENDING_REQS
  | ACTIVE_REQS
  | CANCELLED_REQS
  | HIBERNATING_REQS
  | DYING_REQS.

(** The heap as the request code sees it: the requests by address, the five
    queues (of addresses), the running coroutine and the calls made so
    far.  The heap lock is taken and released around every access; with one
    thread it has no effect and is left out. *)
Record pcintr_heap : Type := Heap {
  reqs : gmap nat pcintr_req;
  pending_reqs : list nat;
  active_reqs : list nat;
  cancelled_reqs : list nat;
  hibernating_reqs : list nat;
  dying_reqs : list nat;
  h_running_coroutine : option nat;
  h_calls : list req_call;
}.

Definition heap_set_req (req : nat) (r : pcintr_req) (h : pcintr_heap)
    : pcintr_heap :=
  Heap (<[req := r]> (reqs h)) (pending_reqs h) (active_reqs h)
       (cancelled_reqs h) (hibernating_reqs h) (dying_reqs h)
       (h_running_coroutine h) (h_calls h).

Definition heap_set_current (co : option nat) (h : pcintr_heap) : pcintr_heap :=
  Heap (reqs h) (pending_reqs h) (active_reqs h) (cancelled_reqs h)
       (hibernating_reqs h) (dying_reqs h) co (h_calls h).

Definition heap_call (c : req_call) (h : pcintr_heap) : pcintr_heap :=
  Heap (reqs h) (pending_reqs h) (active_reqs h) (cancelled_reqs h)
       (hibernating_reqs h) (dying_reqs h) (h_running_coroutine h)
       (h_calls h ++ [c]).

#[global] Instance req_queue_eq_dec : EqDecision req_queue.
Proof. solve_decision. Defined.

(** [list_del(&req->node); list_add_tail(&req->node, &heap->q)]: the node
    leaves the queue it is linked in and joins [q] at the tail. *)
Definition heap_move (req : nat) (q : req_queue) (h : pcintr_heap)
    : pcintr_heap :=
  let del := filter (λ r, r ≠ req) in
  let add (q' : req_queue) (l : list nat) :=
    if decide (q' = q) then del l ++ [req] else del l in
  Heap (reqs h)
       (add PENDING_REQS (pending_reqs h)) (add ACTIVE_REQS (active_reqs h))
       (add CANCELLED_REQS (cancelled_reqs h))
       (add HIBERNATING_REQS (hibernating_reqs h))
       (add DYING_REQS (dying_reqs h))
       (h_running_coroutine h) (h_calls h).

(** [list_add_tail(&req->node, &heap->pending_reqs)] on a node that is not
    linked yet. *)
Definition heap_add_pending (req : nat) (h : pcintr_heap) : pcintr_heap :=
  Heap (reqs h) (pending_reqs h ++ [req]) (active_reqs h) (cancelled_reqs h)
       (hibernating_reqs h) (dying_reqs h) (h_running_coroutine h) (h_calls h).

(** [free(req)]: the request is gone; its node is not unlinked. *)
Definition heap_free_req (req : nat) (h : pcintr_heap) : pcintr_heap :=
  Heap (delete req (reqs h)) (pending_reqs h) (active_reqs h)
       (cancelled_reqs h) (hibernating_reqs h) (dying_reqs h)
       (h_running_coroutine h) (h_calls h).

(** [pcintr_post_req] (3436-3505).  [cos] holds the coroutines by address;
    the result is the [int] the function returns.  The [default] case of
    the [switch] is for values outside the enumeration. *)
Definition pcintr_post_req (cos : gmap nat pcintr_coroutine)
    (type : pcintr_req_type) (ctxt : option nat)
    (ops : option pcintr_req_ops) (h : pcintr_heap) (inst : pcinst)
    : outcome (Z * pcintr_heap * pcinst) :=
  ctxt ← (match ctxt with Some c => Done c | None => Aborted end);
  ops ← (match ops with Some o => Done o | None => Aborted end);
  ops_req ← (match req_ops_req ops with Some f => Done f | None => Aborted end);
  _ ← PC_ASSERT (req_ops_cancel ops);
  _ ← PC_ASSERT (req_ops_callback ops);
  co_ptr ← (match h_running_coroutine h with
            | Some co => Done co | None => Aborted end);
  co ← (match cos !! co_ptr with Some co => Done co | None => Aborted end);
  let frame := pcintr_stack_get_bottom_frame (co_stack co) in
  let refused :=
    match type with
    | REQ_TYPE_RAW => false
    | REQ_TYPE_SYNC =>
        match frame with
        | None => true
        | Some i =>
            match f_type <$> frames (co_stack co) !! i with
            | Some STACK_FRAME_TYPE_NORMAL => false
            | _ => true
            end
        end
    | REQ_TYPE_ASYNC =>
        match frame with
        | None => true
        | Some _ => false
        end
    end in
  if refused then mret (-1, h, purc_set_error PURC_ERROR_INVALID_VALUE inst)
  else
    let '(req, inst) := calloc_addr inst in
    match req with
    | None => mret (-1, h, purc_set_error PURC_ERROR_OUT_OF_MEMORY inst)
    | Some req =>
        let r := Req co_ptr type frame ctxt 1 REQ_STATE_PENDING in
        (* boundary: vm/c *)
        let h := heap_set_current None h in
        let h := heap_add_pending req (heap_set_req req r h) in
        let h := heap_call (CallReq req ctxt) h in
        let res := ops_req req ctxt in
        let h := heap_set_current (Some co_ptr) h in
        if decide (res ≠ 0) then mret (-1, heap_free_req req h, inst)
        else mret (0, h, inst)
    end.

Definition pcintr_cancel_req (req : nat) (h : pcintr_heap)
    : outcome pcintr_heap :=
  r ← (match reqs h !! req with Some r => Done r | None => Aborted end);
  co ← (match h_running_coroutine h with
        | Some co => Done co | None => Aborted end);
  _ ← PC_ASSERT (bool_decide (co = req_owner r));
  (* boundary: vm/c *)
  let h := heap_set_current None h in
  h ← match req_state r with
      | REQ_STATE_PENDING =>
          let r := req_set_state REQ_STATE_CANCELLED r in
          let h := heap_move req CANCELLED_REQS (heap_set_req req r h) in
          let h := heap_call (CallCancel req (req_ctxt r)) h in
          let r := req_set_refc (req_refc r - 1) r in
          let h := heap_set_req req r h in
          _ ← PC_ASSERT (negb (bool_decide (req_refc r = 0)));
          mret h
      | REQ_STATE_ACTIVATING => mret h
      | _ => Aborted                                     (* PC_ASSERT(0) *)
      end;
  mret (heap_set_current (Some co) h).

Definition pcintr_activate_req (req : nat) (h : pcintr_heap)
    : outcome pcintr_heap :=
  r ← (match reqs h !! req with Some r => Done r | None => Aborted end);
  let curr_co := h_running_coroutine h in
  (* boundary: vm/c *)
  let h := heap_set_current None h in
  h ← match req_state r with
      | REQ_STATE_PENDING =>
          let r := req_set_state REQ_STATE_ACTIVATING r in
          let h := heap_move req ACTIVE_REQS (heap_set_req req r h) in
          let h := heap_call CallWakeupActivating h in
          let r := req_set_refc (req_refc r - 1) r in
          let h := heap_set_req req r h in
          _ ← PC_ASSERT (negb (bool_decide (req_refc r = 0)));
          mret h
      | REQ_STATE_CANCELLED =>
          let r := req_set_state REQ_STATE_DYING r in
          let h := heap_move req DYING_REQS (heap_set_req req r h) in
          mret (heap_call CallWakeupDying h)
      | _ => Aborted                                     (* PC_ASSERT(0) *)
      end;
  mret (heap_set_current curr_co h).

Definition pcintr_hibernate_active_req (req : nat) (h : pcintr_heap)
    : outcome pcintr_heap :=
  r ← (match reqs h !! req with Some r => Done r | None => Aborted end);
  co ← (match h_running_coroutine h with
        | Some co => Done co | None => Aborted end);
  _ ← PC_ASSERT (bool_decide (co = req_owner r));
  match req_state r with
  | REQ_STATE_ACTIVATING =>
      let r := req_set_state REQ_STATE_HIBERNATING r in
      let h := heap_move req HIBERNATING_REQS (heap_set_req req r h) in
      _ ← PC_ASSERT (negb (bool_decide (req_refc r = 0)));
      mret h
  | _ => Aborted                                         (* PC_ASSERT(0) *)
  end.

(** A coroutine at address 7 with one frame, running; its heap holds no
    request yet.  The callbacks of [demo_req_ops] are all set and [req]
    accepts every request. *)
Definition req_co : pcintr_coroutine :=
  Coroutine 7 (stack_set_frames [frame_calloc STACK_FRAME_TYPE_NORMAL] stack0)
            CO_STATE_RUN 0.

Definition req_cos : gmap nat pcintr_coroutine := {[ 7%nat := req_co ]}.

Definition demo_req_ops : pcintr_req_ops :=
  ReqOps (Some (λ _ _, 0)) true true.

Definition heap0 : pcintr_heap :=
  Heap ∅ [] [] [] [] [] (Some 7%nat) [].

Definition req_inst : pcinst := Inst PURC_ERROR_OK 100 [] [7%nat] None [].

(** ** Timers and the [$TIMERS] collection (timer.cpp) *)

(** [class PurcTimer]: its fields, and whether the loop has it started
    ([Some ms] after [startRepeating(ms)], [None] after [stop()]). *)
Record PurcTimer : Type := Timer {
  m_id : string;
  m_interval : Z;                  (* uint32_t *)
  m_attach : option nat;
  m_repeating : option Z;
}.

(** An object of the [$TIMERS] set: its address and its fields, in
    insertion order. *)
Record timer_object : Type := TimerObject {
  tv_addr : nat;
  tv_fields : list (string * value);
}.

(** The timers by address, the change listeners registered (listener
    handle, observed object), and the instance. *)
Record timer_world : Type := TimerWorld {
  tw_timers : gmap nat PurcTimer;
  tw_listeners : list (nat * nat);
  tw_inst : pcinst;
}.

Inductive pcvariant_atom : Type :=
  | pcvariant_atom_grow
  | pcvariant_atom_shrink
  | pcvariant_atom_change.

#[global] Instance pcvariant_atom_eq_dec : EqDecision pcvariant_atom.
Proof. solve_decision. Defined.

Definition TIMERS_STR_ID : string := "id".
Definition TIMERS_STR_INTERVAL : string := "interval".
Definition TIMERS_STR_ACTIVE : string := "active".
Definition TIMERS_STR_ON : string := "on".
Definition TIMERS_STR_HANDLE : string := "__handle".

Fixpoint fields_get (fields : list (string * value)) (key : string)
    : option value :=
  match fields with
  | [] => None
  | (k, v) :: rest => if decide (k = key) then Some v else fields_get rest key
  end.

Fixpoint fields_set (fields : list (string * value)) (key : string)
    (val : value) : list (string * value) :=
  match fields with
  | [] => [(key, val)]
  | (k, v) :: rest =>
      if decide (k = key) then (k, val) :: rest
      else (k, v) :: fields_set rest key val
  end.

Definition fields_remove (fields : list (string * value)) (key : string)
    : list (string * value) :=
  filter (λ kv, fst kv ≠ key) fields.

Definition purc_variant_object_get_by_ckey (obj : timer_object) (key : string)
    : option value :=
  fields_get (tv_fields obj) key.

Definition uint32_max : Z := 2 ^ 32 - 1.

Definition tw_set_timer (t : nat) (tm : PurcTimer) (w : timer_world)
    : timer_world :=
  TimerWorld (<[t := tm]> (tw_timers w)) (tw_listeners w) (tw_inst w).

(** The [pcintr_timer_*] functions; [timer] is [None] for [NULL].  A
    pointer to a destroyed timer is not modelled: the functions leave the
    world alone when the address holds no timer. *)
Definition pcintr_timer_set_interval (timer : option nat) (interval : Z)
    (w : timer_world) : timer_world :=
  match timer with
  | Some t =>
      match tw_timers w !! t with
      | Some tm =>
          tw_set_timer t (Timer (m_id tm) (interval `mod` 2 ^ 32) (m_attach tm)
                                (m_repeating tm)) w
      | None => w
      end
  | None => w
  end.

Definition pcintr_timer_start (timer : option nat) (w : timer_world)
    : timer_world :=
  match timer with
  | Some t =>
      match tw_timers w !! t with
      | Some tm =>
          tw_set_timer t (Timer (m_id tm) (m_interval tm) (m_attach tm)
                                (Some (m_interval tm))) w
      | None => w
      end
  | None => w
  end.

Definition pcintr_timer_stop (timer : option nat) (w : timer_world)
    : timer_world :=
  match timer with
  | Some t =>
      match tw_timers w !! t with
      | Some tm =>
          tw_set_timer t (Timer (m_id tm) (m_interval tm) (m_attach tm) None) w
      | None => w
      end
  | None => w
  end.

Definition pcintr_timer_destroy (timer : option nat) (w : timer_world)
    : timer_world :=
  match timer with
  | Some t => TimerWorld (delete t (tw_timers w)) (tw_listeners w) (tw_inst w)
  | None => w
  end.

Definition pcintr_timer_set_attach (timer : option nat) (attach : option nat)
    (w : timer_world) : timer_world :=
  match timer with
  | Some t =>
      match tw_timers w !! t with
      | Some tm =>
          tw_set_timer t (Timer (m_id tm) (m_interval tm) attach
                                (m_repeating tm)) w
      | None => w
      end
  | None => w
  end.

Definition pcintr_timer_get_attach (timer : option nat) (w : timer_world)
    : option nat :=
  match timer with
  | Some t =>
      match tw_timers w !! t with
      | Some tm => m_attach tm
      | None => None
      end
  | None => None
  end.

(** A fresh address, or nothing when the allocation fails. *)
Definition tw_alloc (w : timer_world) : option nat * timer_world :=
  let '(ok, inst) := calloc (tw_inst w) in
  if ok then
    (Some (next_addr inst),
     TimerWorld (tw_timers w) (tw_listeners w)
       (Inst (errcode inst) (S (next_addr inst)) (alloc_plan inst)
             (heap_coroutines inst) (running_coroutine inst) (events inst)))
  else (None, TimerWorld (tw_timers w) (tw_listeners w) inst).

Definition tw_set_error (e : purc_error) (w : timer_world) : timer_world :=
  TimerWorld (tw_timers w) (tw_listeners w) (purc_set_error e (tw_inst w)).

Definition pcintr_timer_create (id : string) (w : timer_world)
    : option nat * timer_world :=
  let '(timer, w) := tw_alloc w in
  match timer with
  | None => (None, tw_set_error PURC_ERROR_OUT_OF_MEMORY w)
  | Some t =>
      (* m_interval and m_attach are not initialised by the constructor;
         the model starts them at zero *)
      (Some t, tw_set_timer t (Timer id 0 None None) w)
  end.

(** [is_euqal]: [strcmp] on the string of [var]; of a value that is not a
    string [purc_variant_get_string_const] is [NULL], and the comparison
    has no defined result. *)
Definition is_euqal (var : option value) (comp : string) : outcome bool :=
  match var with
  | None => mret false
  | Some (VString s) => mret (bool_decide (s = comp))
  | Some _ => Aborted
  end.

Definition purc_variant_native_get_entity (entity : native_entity) : nat :=
  match entity with
  | NativeElements p | NativeVcmEv p | NativePointer p => p
  end.

Definition variant_to_pointer (var : option value) : option nat :=
  match var with
  | Some (VNative entity) => Some (purc_variant_native_get_entity entity)
  | _ => None
  end.

Definition purc_variant_register_post_listener (obj : timer_object)
    (w : timer_world) : option nat * timer_world :=
  let '(listener, w) := tw_alloc w in
  match listener with
  | None => (None, w)
  | Some l =>
      (Some l, TimerWorld (tw_timers w) (tw_listeners w ++ [(l, tv_addr obj)])
                          (tw_inst w))
  end.

Definition purc_variant_revoke_listener (listener : option nat)
    (w : timer_world) : timer_world :=
  TimerWorld (tw_timers w)
    (filter (λ lo, Some (fst lo) ≠ listener) (tw_listeners w)) (tw_inst w).

(** Modelled from the spec: the operations of the value substrate (variant
    module, not under the sources at hand) "that cannot satisfy their
    contract set a thread-local error ... and return a sentinel".
    [pointer_to_variant(p)] makes a native value for the pointer, which
    takes memory; [NULL] gives the sentinel. *)
Definition pointer_to_variant (p : option nat) (w : timer_world)
    : option value * timer_world :=
  match p with
  | None => (None, w)
  | Some t =>
      let '(ok, inst) := calloc (tw_inst w) in
      let w := TimerWorld (tw_timers w) (tw_listeners w) inst in
      if ok then (Some (VNative (NativePointer t)), w)
      else (None, tw_set_error PURC_ERROR_OUT_OF_MEMORY w)
  end.

(** Modelled from the spec: [purc_variant_object_set_by_static_ckey(obj,
    key, val)].  The sentinel is no value to store, and storing takes
    memory; when the field cannot be stored the object is unchanged.
    Returns whether the field was stored. *)
Definition purc_variant_object_set_by_static_ckey (obj : timer_object)
    (key : string) (val : option value) (w : timer_world)
    : bool * timer_object * timer_world :=
  match val with
  | None => (false, obj, tw_set_error PURC_ERROR_INVALID_VALUE w)
  | Some v =>
      let '(ok, inst) := calloc (tw_inst w) in
      let w := TimerWorld (tw_timers w) (tw_listeners w) inst in
      if ok then
        (true, TimerObject (tv_addr obj) (fields_set (tv_fields obj) key v), w)
      else (false, obj, tw_set_error PURC_ERROR_OUT_OF_MEMORY w)
  end.

Definition get_inner_timer (timer_var : timer_object) (w : timer_world)
    : outcome (option nat * timer_object * timer_world) :=
  let tm := purc_variant_object_get_by_ckey timer_var TIMERS_STR_HANDLE in
  match variant_to_pointer tm with
  | Some timer => mret (Some timer, timer_var, w)
  | None =>
      match purc_variant_object_get_by_ckey timer_var TIMERS_STR_ID with
      | None => mret (None, timer_var, tw_set_error PURC_ERROR_INVALID_VALUE w)
      | Some id =>
          (* a string is needed for strdup(id) *)
          id_str ← (match id with VString s => Done s | _ => Aborted end);
          let '(timer, w) := pcintr_timer_create id_str w in
          match timer with
          | None => mret (None, timer_var, w)
          | Some t =>
              (* neither the native value nor the result of the store is
                 looked at *)
              let '(native, w) := pointer_to_variant timer w in
              let '(_, timer_var, w) :=
                purc_variant_object_set_by_static_ckey timer_var
                  TIMERS_STR_HANDLE native w in
              let '(listener, w) :=
                purc_variant_register_post_listener timer_var w in
              match listener with
              | None =>
                  let w := pcintr_timer_destroy timer w in
                  mret (None,
                        TimerObject (tv_addr timer_var)
                          (fields_remove (tv_fields timer_var)
                             TIMERS_STR_HANDLE), w)
              | Some _ =>
                  mret (timer, timer_var,
                        pcintr_timer_set_attach timer listener w)
              end
          end
      end
  end.

Definition destroy_inner_timer (timer_var : timer_object) (w : timer_world)
    : timer_object * timer_world :=
  let tm := purc_variant_object_get_by_ckey timer_var TIMERS_STR_HANDLE in
  match variant_to_pointer tm with
  | Some t =>
      let listener := pcintr_timer_get_attach (Some t) w in
      let w := purc_variant_revoke_listener listener w in
      (TimerObject (tv_addr timer_var)
         (fields_remove (tv_fields timer_var) TIMERS_STR_HANDLE),
       pcintr_timer_destroy (Some t) w)
  | None => (timer_var, w)
  end.

Section Timers.

(** [purc_variant_cast_to_ulongint(v, &ret, force)] of the variant module:
    the number when the cast succeeds, in which case it is stored in
    [ret]. *)
Variable purc_variant_cast_to_ulongint : option value → bool → option Z.

(** [uint64_t ret = 0; purc_variant_cast_to_ulongint(v, &ret, false);] *)
Definition cast_or_zero (v : option value) : Z :=
  default 0 (purc_variant_cast_to_ulongint v false).

(** The listener on one object; [argv] is key-new, value-new, key-old,
    value-old.  Returns the [bool] of the handler. *)
Definition timer_listener_handler (source : timer_object)
    (msg_type : pcvariant_atom) (argv : list (option value))
    (w : timer_world) : outcome (bool * timer_object * timer_world) :=
  if decide (msg_type ≠ pcvariant_atom_change) then mret (true, source, w)
  else
    '(timer, source, w) ← get_inner_timer source w;
    match timer with
    | None => mret (false, source, w)
    | Some _ =>
        (* argv key-new, value-new, key-old, value-old *)
        let argv0 := mjoin (argv !! 0%nat) in
        let argv1 := mjoin (argv !! 1%nat) in
        is_interval ← is_euqal argv0 TIMERS_STR_INTERVAL;
        if (is_interval : bool) then
          let ret := cast_or_zero argv0 in
          mret (true, source, pcintr_timer_set_interval timer ret w)
        else
          is_active ← is_euqal argv0 TIMERS_STR_ACTIVE;
          if (is_active : bool) then
            is_on ← is_euqal argv1 TIMERS_STR_ON;
            if (is_on : bool)
            then mret (true, source, pcintr_timer_start timer w)
            else mret (true, source, pcintr_timer_stop timer w)
          else mret (true, source, w)
    end.

(** The listener on the set; [argv0] is the object that joined or left. *)
Definition timers_listener_handler (msg_type : pcvariant_atom)
    (argv0 : timer_object) (w : timer_world)
    : outcome (bool * timer_object * timer_world) :=
  if decide (msg_type = pcvariant_atom_grow) then
    let interval :=
      purc_variant_object_get_by_ckey argv0 TIMERS_STR_INTERVAL in
    let active := purc_variant_object_get_by_ckey argv0 TIMERS_STR_ACTIVE in
    '(timer, argv0, w) ← get_inner_timer argv0 w;
    match timer with
    | None => mret (false, argv0, w)
    | Some _ =>
        let ret := cast_or_zero interval in
        let w := pcintr_timer_set_interval timer ret w in
        is_on ← is_euqal active TIMERS_STR_ON;
        if (is_on : bool) then mret (true, argv0, pcintr_timer_start timer w)
        else mret (true, argv0, w)
    end
  else if decide (msg_type = pcvariant_atom_shrink) then
    let '(argv0, w) := destroy_inner_timer argv0 w in
    mret (true, argv0, w)
  else mret (true, argv0, w).

End Timers.

(** A cast that takes the unsigned and the non-negative signed integers and,
    unforced, nothing else. *)
Definition demo_cast (v : option value) (force : bool) : option Z :=
  match v with
  | Some (VUlongint u) => Some u
  | Some (VLongint i) => if decide (0 ≤ i) then Some i else None
  | _ => None
  end.

(** The object [{id:"u", interval:100, active:"on"}] with its backing timer
    9, started at 100 ms by the grow listener. *)
Definition timer_u : timer_object :=
  TimerObject 80
    [("id", VString "u"); ("interval", VUlongint 100); ("active", VString "on");
     ("__handle", VNative (NativePointer 9))].

Definition timer_u_world : timer_world :=
  TimerWorld {[ 9%nat := Timer "u" 100 (Some 10%nat) (Some 100) ]}
             [(10%nat, 80%nat)] (Inst PURC_ERROR_OK 11 [] [] None []).

Definition timer_interval (t : nat) (w : timer_world) : option Z :=
  m_interval <$> tw_timers w !! t.

Definition timer_repeating (t : nat) (w : timer_world) : option (option Z) :=
  m_repeating <$> tw_timers w !! t.

Definition world_after (r : outcome (bool * timer_object * timer_world))
    : option timer_world :=
  match r with
  | Done (_, _, w) => Some w
  | Aborted => None
  end.

(** ** The [match] element (match.c) *)

(** [struct ctxt_for_match].  [cm_curr] is the child of the element that
    was visited last: its position among the children, [None] for
    [NULL]. *)
Record ctxt_for_match : Type := CtxtForMatch {
  cm_curr : option nat;
  cm_for_var : option value;
  cm_param : option nat;            (* the parsed rule of [for] *)
  cm_is_exclusively : bool;
  cm_matched : bool;
}.

(** The context [calloc] returns. *)
Definition ctxt_for_match_calloc : ctxt_for_match :=
  CtxtForMatch None None None false false.

(** [purc_variant_object_get_by_ckey(frame->attr_vars, key, true)] *)
Definition attr_vars_get (attr_vars : purc_variant_t) (key : string)
    : option value :=
  match attr_vars with
  | Some v =>
      match v_val v with
      | VObject fields => fields_get fields key
      | _ => None
      end
  | None => None
  end.

Definition pcvdom_children (element : pcvdom_element_t) : list pcvdom_node :=
  match element with
  | Some (PCVDOM_NODE_ELEMENT _ _ children) => children
  | Some (PCVDOM_NODE_DOCUMENT children) => children
  | _ => []
  end.

(** The loop of [select_child] ([again:]): [siblings] are the children from
    position [i] on.  Returns the new cursor and the element found. *)
Fixpoint select_from (siblings : list pcvdom_node) (i : nat) (except_ : bool)
    : outcome (option nat * pcvdom_element_t) :=
  match siblings with
  | [] => mret (None, None)                      (* purc_clr_error() *)
  | curr :: rest =>
      match curr with
      | PCVDOM_NODE_DOCUMENT _ => Aborted        (* not implemented yet *)
      | PCVDOM_NODE_ELEMENT _ _ _ =>
          _ ← PC_ASSERT (negb except_);
          mret (Some i, Some curr)
      | PCVDOM_NODE_CONTENT _ => select_from rest (S i) except_
      | PCVDOM_NODE_COMMENT _ => select_from rest (S i) except_
      end
  end.

Section Match.

(** The executor of [for] rules ([executors/match_for.h]): the parser
    yields a rule or fails, the evaluation of a rule on a value yields
    whether it matches or fails. *)
Variable match_for_parse : string → option nat.
Variable match_for_rule_eval : nat → purc_variant → option bool.

Definition match_post_process (frame : pcintr_stack_frame)
    (ctxt : option ctxt_for_match) : outcome ctxt_for_match :=
  ctxt ← (match ctxt with Some c => Done c | None => Aborted end);
  let for_var := attr_vars_get (f_attr_vars frame) "for" in
  '(matched, ctxt) ←
    match for_var with
    | None => mret (true, ctxt)
    | Some for_value =>
        let ctxt := CtxtForMatch (cm_curr ctxt) for_var (cm_param ctxt)
                      (cm_is_exclusively ctxt) (cm_matched ctxt) in
        for_str ← (match for_value with
                   | VString s => Done s | _ => Aborted end);
        param ← (match match_for_parse for_str with
                 | Some p => Done p | None => Aborted end);
        let ctxt := CtxtForMatch (cm_curr ctxt) for_var (Some param)
                      (cm_is_exclusively ctxt) (cm_matched ctxt) in
        parent_result ←
          (match f_symbol_vars frame PURC_SYMBOL_VAR_QUESTION_MARK with
           | Some v => Done v | None => Aborted end);
        matched ← (match match_for_rule_eval param parent_result with
                   | Some m => Done m | None => Aborted end);
        mret (matched, ctxt)
    end;
  let ctxt := CtxtForMatch (cm_curr ctxt) (cm_for_var ctxt) (cm_param ctxt)
                (cm_is_exclusively ctxt) matched in
  let is_exclusively :=
    match attr_vars_get (f_attr_vars frame) "exclusively" with
    | Some _ => true
    | None => cm_is_exclusively ctxt      (* purc_clr_error() *)
    end in
  let is_exclusively :=
    if is_exclusively then true
    else
      match attr_vars_get (f_attr_vars frame) "excl" with
      | Some _ => true
      | None => false                     (* purc_clr_error() *)
      end in
  mret (CtxtForMatch (cm_curr ctxt) (cm_for_var ctxt) (cm_param ctxt)
          is_exclusively (cm_matched ctxt)).

Definition match_select_child (frame : pcintr_stack_frame)
    (ctxt : ctxt_for_match) (except_ : bool)
    : outcome (pcvdom_element_t * ctxt_for_match) :=
  if negb (cm_matched ctxt) then mret (None, ctxt)
  else
    let start :=
      match cm_curr ctxt with
      | None => 0%nat                    (* pcvdom_node_first_child *)
      | Some c => S c                    (* pcvdom_node_next_sibling *)
      end in
    '(curr, element) ←
      select_from (drop start (pcvdom_children (f_pos frame))) start except_;
    mret (element,
          CtxtForMatch curr (cm_for_var ctxt) (cm_param ctxt)
                       (cm_is_exclusively ctxt) (cm_matched ctxt)).

End Match.

(** A [match] element without attributes that counts, with a text, a
    comment and an [update] child. *)
Definition match_element : pcvdom_node :=
  PCVDOM_NODE_ELEMENT "match" false
    [PCVDOM_NODE_CONTENT "text"; PCVDOM_NODE_COMMENT "note";
     PCVDOM_NODE_ELEMENT "update" false []].

Definition match_frame : pcintr_stack_frame :=
  Frame STACK_FRAME_TYPE_NORMAL None (Some match_element) None (Some 1%nat)
        true false (Some 0%nat) (λ _, Some (Variant 0 (VString "hello")))
        (Some (Variant 1 (VObject [("exclusively", VUndefined)])))
        None None NEXT_STEP_AFTER_PUSHED false.

(** A [match] element between two element children has text and a
    comment. *)
Definition match_element_2 : pcvdom_node :=
  PCVDOM_NODE_ELEMENT "match" false
    [PCVDOM_NODE_ELEMENT "init" false []; PCVDOM_NODE_CONTENT "text";
     PCVDOM_NODE_COMMENT "note"; PCVDOM_NODE_ELEMENT "update" false []].

Definition match_frame_2 : pcintr_stack_frame :=
  Frame STACK_FRAME_TYPE_NORMAL None (Some match_element_2) None (Some 1%nat)
        true false (Some 0%nat) (λ _, Some (Variant 0 (VString "hello")))
        (Some (Variant 1 (VObject [("exclusively", VUndefined)])))
        None None NEXT_STEP_SELECT_CHILD false.

(** The same element with a [for] rule. *)
Definition match_frame_for : pcintr_stack_frame :=
  Frame STACK_FRAME_TYPE_NORMAL None (Some match_element_2) None (Some 1%nat)
        true false (Some 0%nat) (λ _, Some (Variant 0 (VString "hello")))
        (Some (Variant 1 (VObject [("for", VString "hello")])))
        None None NEXT_STEP_SELECT_CHILD false.

Definition pcvdom_node_is_element (node : pcvdom_node) : bool :=
  match node with
  | PCVDOM_NODE_ELEMENT _ _ _ => true
  | _ => false
  end.

Definition pcvdom_node_is_document (node : pcvdom_node) : bool :=
  match node with
  | PCVDOM_NODE_DOCUMENT _ => true
  | _ => false
  end.

(** The calls of [select_child] that the frame machine makes one after
    another on a frame, the child selected being run in between: at most
    [n] calls, up to the first one that returns [NULL].  Returns the
    children selected and the context that the last call left. *)
Fixpoint match_select_children (n : nat) (frame : pcintr_stack_frame)
    (ctxt : ctxt_for_match) (except_ : bool)
    : outcome (list pcvdom_node * ctxt_for_match) :=
  match n with
  | O => mret ([], ctxt)
  | S n =>
      '(element, ctxt) ← match_select_child frame ctxt except_;
      match element with
      | None => mret ([], ctxt)
      | Some child =>
          '(children, ctxt) ← match_select_children n frame ctxt except_;
          mret (child :: children, ctxt)
      end
  end.

(** * Further parts of the interpreter

    The functions around the ones above: the accessors of the symbol
    variables, the scheduler that drives [execute_one_step_on_frame], the
    message bus, the request queues as a whole, the timer behind an object
    of [$TIMERS], the other callbacks of [match] and the construction of
    expression variables. *)

(** ** Symbol variables of a frame (interpreter.c, 690-709, 869-876 and
       3082-3170) *)

Definition pcintr_get_symbol_var (s : pcintr_stack) (frame : nat)
    (symbol : purc_symbol_var) : outcome purc_variant_t :=
  _ ← PC_ASSERT (bool_decide (is_Some (frames s !! frame)));
  match frames s !! frame with
  | Some f => mret (f_symbol_vars f symbol)
  | None => Aborted
  end.

Definition pcintr_get_question_var s frame :=
  pcintr_get_symbol_var s frame PURC_SYMBOL_VAR_QUESTION_MARK.
Definition pcintr_get_exclamation_var s frame :=
  pcintr_get_symbol_var s frame PURC_SYMBOL_VAR_EXCLAMATION.
Definition pcintr_get_percent_var s frame :=
  pcintr_get_symbol_var s frame PURC_SYMBOL_VAR_PERCENT_SIGN.

(** [frame] is dereferenced without a check; the caller hands in a frame of
    the stack. *)
Definition set_lessthan_symval (s : pcintr_stack) (frame : nat)
    (val : purc_variant_t) (inst : pcinst) : Z * pcintr_stack * pcinst :=
  match val with
  | Some _ =>
      (0, stack_update_frame frame
            (frame_set_symbol_var PURC_SYMBOL_VAR_LESS_THAN val) s, inst)
  | None =>
      let '(undefined, inst) := purc_variant_make_undefined inst in
      match undefined with
      | None => (-1, s, inst)
      | Some _ =>
          (0, stack_update_frame frame
                (frame_set_symbol_var PURC_SYMBOL_VAR_LESS_THAN undefined) s,
           inst)
      end
  end.

(** The result of [set_lessthan_symval] is dropped. *)
Definition pcintr_set_input_var (s : pcintr_stack) (val : purc_variant_t)
    (inst : pcinst) : outcome (pcintr_stack * pcinst) :=
  match pcintr_stack_get_bottom_frame s with
  | None => Aborted                               (* PC_ASSERT(frame) *)
  | Some frame =>
      let '(_, s, inst) := set_lessthan_symval s frame val inst in
      mret (s, inst)
  end.

(** ** The scheduler (interpreter.c, 1264-1273 and 1359-1436) *)

Definition co_is_preemptor_set (co : option pcintr_coroutine) : bool :=
  match co with
  | None => false
  | Some co =>
      match pcintr_stack_get_bottom_frame (co_stack co) with
      | Some frame =>
          match frames (co_stack co) !! frame with
          | Some f => f_preemptor f
          | None => false
          end
      | None => false
      end
  end.

(** What [run_coroutines] asks of the run loop when its round is over:
    another round ([pcintr_coroutine_ready]), or to stop. *)
Inductive runloop_call : Type :=
  | RUNLOOP_DISPATCH_RUN_COROUTINES
  | RUNLOOP_STOP.

Section Scheduler.

Variable ops_table : nat → pcintr_element_ops.
Variable pcintr_get_ops_by_element : pcvdom_element_t → ops_name.
Variable pcintr_rdr_page_control_load : pcintr_stack → pcinst → bool * pcinst.

(** Returns the coroutine if it is alive, otherwise [None]. *)
Definition execute_on_frame (co : pcintr_coroutine) (inst : pcinst)
    : outcome (option pcintr_coroutine * pcinst) :=
  let run (co : pcintr_coroutine) :=
    let inst := coroutine_set_current (Some (co_addr co)) inst in
    '(co, inst) ←
      execute_one_step_on_frame ops_table pcintr_get_ops_by_element
        pcintr_rdr_page_control_load co inst;
    mret (co, coroutine_set_current None inst) in
  match co_state co with
  | CO_STATE_READY => run (co_set_state CO_STATE_RUN co)  (* fall-through *)
  | CO_STATE_RUN => run co
  | CO_STATE_WAIT => mret (Some co, inst)
  end.

(** Returns the coroutine if it is alive, otherwise [None]. *)
Definition run_co (co : pcintr_coroutine) (inst : pcinst)
    : outcome (option pcintr_coroutine * pcinst) :=
  match pcintr_stack_get_bottom_frame (co_stack co) with
  | Some _ => execute_on_frame co inst
  | None =>
      if exited (co_stack co) then terminating_co co inst
      else
        _ ← PC_ASSERT (bool_decide (co_state co = CO_STATE_WAIT));
        mret (Some co, inst)
  end.

(** The walk of [run_coroutines] over the coroutines of the heap, in list
    order; the callbacks of a coroutine act on that coroutine and on the
    instance.  Returns the coroutines that are still alive and the two
    counters. *)
Fixpoint run_coroutines_walk (coroutines : list pcintr_coroutine)
    (inst : pcinst) (readies waits : nat)
    : outcome (list pcintr_coroutine * pcinst * nat * nat) :=
  match coroutines with
  | [] => mret ([], inst, readies, waits)
  | co :: rest =>
      '(co, inst) ← run_co co inst;
      match co with
      | None => run_coroutines_walk rest inst readies waits
      | Some co =>
          '(readies, waits) ←
            match co_state co with
            | CO_STATE_READY => mret (S readies, waits)
            | CO_STATE_WAIT => mret (readies, S waits)
            | CO_STATE_RUN =>
                _ ← PC_ASSERT (co_is_preemptor_set (Some co));
                mret (readies, waits)
            end;
          '(rest, inst, readies, waits) ←
            run_coroutines_walk rest inst readies waits;
          mret (co :: rest, inst, readies, waits)
      end
  end.

Definition run_coroutines (coroutines : list pcintr_coroutine)
    (inst : pcinst)
    : outcome (list pcintr_coroutine * pcinst * option runloop_call) :=
  '(coroutines, inst, readies, waits) ←
    run_coroutines_walk coroutines inst 0 0;
  if decide (readies ≠ 0%nat) then
    mret (coroutines, inst, Some RUNLOOP_DISPATCH_RUN_COROUTINES)
  else if decide (waits = 0%nat) then
    mret (coroutines, inst, Some RUNLOOP_STOP)
  else mret (coroutines, inst, None).

End Scheduler.

(** Two coroutines of the demo table: one about to run its only frame, one
    waiting without frames. *)
Definition waiting_co : pcintr_coroutine :=
  Coroutine 2 (stack_set_stage STACK_STAGE_EVENT_LOOP stack0) CO_STATE_WAIT 1.

Definition ready_co : pcintr_coroutine :=
  Coroutine 1 (stack_set_frames [demo_frame] stack0) CO_STATE_READY 0.

Definition demo_page_control_load (s : pcintr_stack) (inst : pcinst)
    : bool * pcinst := (true, inst).

(** ** Posting a message (interpreter.c, 2143-2172) *)


Section Messages.

(** The string of an atom ([purc-utils.h]); [None] for an atom that is not
    registered. *)
Variable purc_atom_to_string : nat → option string.


End Messages.


(** ** Native wrappers: vdom elements and templates (interpreter.c,
       2626-2813 and 3262-3302) *)

(** The tables of native operations, by identity: the two that this file
    defines ([ops_tpl], [ops_vdom]) and the ones defined elsewhere. *)
Inductive purc_native_ops : Type :=
  | ops_tpl
  | ops_vdom
  | ops_elsewhere (table : nat).

#[global] Instance purc_native_ops_eq_dec : EqDecision purc_native_ops.
Proof. solve_decision. Defined.

(** Modelled from the spec: a native value is "an opaque payload plus a
    vtable of operations".  A variant as the wrappers look at it: native,
    with its entity pointer ([None] is [NULL]) and its table, or of
    another type. *)
Inductive native_variant : Type :=
  | NATIVE (entity : option nat) (ops : purc_native_ops)
  | NOT_NATIVE.

Abbreviation native_variant_t := (option native_variant).

(** Modelled from the spec: [purc_variant_make_native(entity, ops)], a
    value constructor; it sets the error and returns the sentinel when it
    cannot allocate. *)
Definition purc_variant_make_native (entity : option nat)
    (ops : purc_native_ops) (inst : pcinst) : native_variant_t * pcinst :=
  let '(ok, inst) := calloc inst in
  if ok then (Some (NATIVE entity ops), inst)
  else (None, purc_set_error PURC_ERROR_OUT_OF_MEMORY inst).

Definition pcintr_wrap_vdom (vdom : option nat) (inst : pcinst)
    : outcome (native_variant_t * pcinst) :=
  _ ← PC_ASSERT (bool_decide (is_Some vdom));
  mret (purc_variant_make_native vdom ops_vdom inst).

Definition pcintr_get_vdom_from_variant (val : native_variant_t)
    (inst : pcinst) : option nat * pcinst :=
  match val with
  | None => (None, purc_set_error PURC_ERROR_INVALID_VALUE inst)
  | Some NOT_NATIVE => (None, purc_set_error PURC_ERROR_INVALID_VALUE inst)
  | Some (NATIVE None _) =>
      (None, purc_set_error PURC_ERROR_INVALID_VALUE inst)
  | Some (NATIVE (Some native) ops) =>
      if decide (ops ≠ ops_vdom)
      then (None, purc_set_error PURC_ERROR_INVALID_VALUE inst)
      else (Some native, inst)
  end.

(** The templates by address: [struct pcvdom_template] is a list of
    nodes, each holding the pointer to an expression tree. *)
Abbreviation templates := (gmap nat (list nat)).

(** Returns the node, that is the expression tree it holds. *)
Definition template_node_create (vcm : option nat) (inst : pcinst)
    : outcome (option nat * pcinst) :=
  vcm ← (match vcm with Some v => Done v | None => Aborted end);
  let '(ok, inst) := calloc inst in
  if negb ok then mret (None, purc_set_error PURC_ERROR_OUT_OF_MEMORY inst)
  else mret (Some vcm, inst).

Definition template_create (tpls : templates) (inst : pcinst)
    : option nat * templates * pcinst :=
  let '(tpl, inst) := calloc_addr inst in
  match tpl with
  | None => (None, tpls, purc_set_error PURC_ERROR_OUT_OF_MEMORY inst)
  | Some t => (Some t, <[t := []]> tpls, inst)
  end.

Definition template_cleaner (tpl : option nat) (tpls : templates)
    : templates :=
  match tpl with
  | None => tpls
  | Some t => if decide (is_Some (tpls !! t)) then <[t := []]> tpls else tpls
  end.

Definition template_destroy (tpl : option nat) (tpls : templates)
    : templates :=
  match tpl with
  | None => tpls
  | Some t => delete t (template_cleaner tpl tpls)
  end.

Definition template_append (tpl : list nat) (vcm : option nat)
    (inst : pcinst) : outcome (Z * list nat * pcinst) :=
  if bool_decide (Exists (λ p, Some p = vcm) tpl) then
    mret (-1, tpl, purc_set_error PURC_ERROR_INVALID_VALUE inst)
  else
    '(p, inst) ← template_node_create vcm inst;
    match p with
    | None => mret (-1, tpl, inst)
    | Some node => mret (0, tpl ++ [node], inst)
    end.

Definition pcintr_template_make (tpls : templates) (inst : pcinst)
    : native_variant_t * templates * pcinst :=
  let '(tpl, tpls, inst) := template_create tpls inst in
  match tpl with
  | None => (None, tpls, inst)
  | Some _ =>
      let '(v, inst) := purc_variant_make_native tpl ops_tpl inst in
      match v with
      | None => (None, template_destroy tpl tpls, inst)
      | Some _ => (v, tpls, inst)
      end
  end.

Definition is_template_variant (val : native_variant_t) (inst : pcinst)
    : Z * pcinst :=
  match val with
  | None | Some NOT_NATIVE =>
      (-1, purc_set_error PURC_ERROR_INVALID_VALUE inst)
  | Some (NATIVE _ ops) =>
      if decide (ops ≠ ops_tpl)
      then (-1, purc_set_error PURC_ERROR_INVALID_VALUE inst)
      else (0, inst)
  end.

Definition purc_native_get_entity (val : native_variant_t) : option nat :=
  match val with
  | Some (NATIVE entity _) => entity
  | _ => None
  end.

(** The template behind a native entity pointer; a pointer to no template
    has no defined use. *)
Definition template_at (tpls : templates) (entity : option nat)
    : outcome (nat * list nat) :=
  match entity with
  | Some t =>
      match tpls !! t with
      | Some tpl => Done (t, tpl)
      | None => Aborted
      end
  | None => Aborted                            (* PC_ASSERT(native_entity) *)
  end.

Definition pcintr_template_append (val : native_variant_t) (vcm : option nat)
    (tpls : templates) (inst : pcinst)
    : outcome (Z * templates * pcinst) :=
  _ ← PC_ASSERT (bool_decide (is_Some val));
  _ ← PC_ASSERT (bool_decide (is_Some vcm));
  let '(r, inst) := is_template_variant val inst in
  if decide (r ≠ 0) then mret (-1, tpls, inst)
  else
    '(t, tpl) ← template_at tpls (purc_native_get_entity val);
    '(r, tpl, inst) ← template_append tpl vcm inst;
    mret (r, <[t := tpl]> tpls, inst).

(** The walk over the nodes; the callback gets the expression tree and the
    context of the caller, and stops the walk by returning non-zero. *)
Fixpoint template_walk {C : Type} (tpl : list nat) (ctxt : C)
    (cb : nat → C → Z * C) : C :=
  match tpl with
  | [] => ctxt
  | p :: rest =>
      let '(r, ctxt) := cb p ctxt in
      if decide (r ≠ 0) then ctxt else template_walk rest ctxt cb
  end.

Definition pcintr_template_walk {C : Type} (val : native_variant_t)
    (ctxt : C) (cb : nat → C → Z * C) (tpls : templates) (inst : pcinst)
    : outcome (C * pcinst) :=
  let '(r, inst) := is_template_variant val inst in
  _ ← PC_ASSERT (bool_decide (r = 0));
  '(_, tpl) ← template_at tpls (purc_native_get_entity val);
  mret (template_walk tpl ctxt cb, inst).

(** A caller that appends the trees of a list one after the other and
    gives up at the first failure. *)
Fixpoint pcintr_template_append_all (val : native_variant_t)
    (vcms : list nat) (tpls : templates) (inst : pcinst)
    : outcome (Z * templates * pcinst) :=
  match vcms with
  | [] => mret (0, tpls, inst)
  | vcm :: rest =>
      '(r, tpls, inst) ← pcintr_template_append val (Some vcm) tpls inst;
      if decide (r ≠ 0) then mret (r, tpls, inst)
      else pcintr_template_append_all val rest tpls inst
  end.

(** The callback that notes every tree it is shown and never stops. *)
Definition template_collect (vcm : nat) (seen : list nat) : Z * list nat :=
  (0, seen ++ [vcm]).

(** ** The ids of the asynchronous requests in flight (interpreter.c,
       2325-2349) *)

(** Modelled from the spec: the "ordered array" of the value substrate.
    [purc_variant_array_append] adds at the end and fails when it cannot
    allocate; [purc_variant_array_remove] takes out the member at an
    index. *)
Definition purc_variant_array_append (array : list purc_variant)
    (v : purc_variant) (inst : pcinst) : bool * list purc_variant * pcinst :=
  let '(ok, inst) := calloc inst in
  if ok then (true, array ++ [v], inst)
  else (false, array, purc_set_error PURC_ERROR_OUT_OF_MEMORY inst).

Definition purc_variant_array_remove (array : list purc_variant) (i : nat)
    : list purc_variant :=
  delete i array.

(** [stack] is the array [stack->async_request_ids], which
    [pcintr_init_vdom_under_stack] makes; [None] stands for a [NULL]
    stack. *)
Definition pcintr_save_async_request_id (stack : option (list purc_variant))
    (req_id : purc_variant_t) (inst : pcinst)
    : bool * option (list purc_variant) * pcinst :=
  match stack, req_id with
  | Some ids, Some req =>
      let '(ok, ids, inst) := purc_variant_array_append ids req inst in
      (ok, Some ids, inst)
  | _, _ => (false, stack, inst)
  end.

(** The loop of [pcintr_remove_async_request_id] from index [i] on. *)
Fixpoint remove_async_from (ids : list purc_variant) (rest : list purc_variant)
    (i : nat) (req : purc_variant) : list purc_variant :=
  match rest with
  | [] => ids
  | x :: rest =>
      if purc_variant_ptr_eq (Some req) (Some x)
      then purc_variant_array_remove ids i
      else remove_async_from ids rest (S i) req
  end.

Definition pcintr_remove_async_request_id
    (stack : option (list purc_variant)) (req_id : purc_variant_t)
    : bool * option (list purc_variant) :=
  match stack, req_id with
  | Some ids, Some req => (true, Some (remove_async_from ids ids 0 req))
  | _, _ => (false, stack)
  end.

(** ** The request queues as a whole (interpreter.c, 3436-3682) *)

Definition queue_of (q : req_queue) (h : pcintr_heap) : list nat :=
  match q with
  | PENDING_REQS => pending_reqs h
  | ACTIVE_REQS => active_reqs h
  | CANCELLED_REQS => cancelled_reqs h
  | HIBERNATING_REQS => hibernating_reqs h
  | DYING_REQS => dying_reqs h
  end.

(** The queue a request of a given state is linked in. *)
Definition state_queue (st : pcintr_req_state) : req_queue :=
  match st with
  | REQ_STATE_PENDING => PENDING_REQS
  | REQ_STATE_ACTIVATING => ACTIVE_REQS
  | REQ_STATE_HIBERNATING => HIBERNATING_REQS
  | REQ_STATE_CANCELLED => CANCELLED_REQS
  | REQ_STATE_DYING => DYING_REQS
  end.

Definition all_queues (h : pcintr_heap) : list nat :=
  pending_reqs h ++ active_reqs h ++ cancelled_reqs h
  ++ hibernating_reqs h ++ dying_reqs h.

(** The queues are well kept: no request is linked twice, and a request
    that is linked in a queue is a live request in the state of that
    queue. *)
Definition req_queues_wf (h : pcintr_heap) : Prop :=
  NoDup (all_queues h) ∧
  ∀ q req, req ∈ queue_of q h →
           ∃ r, reqs h !! req = Some r ∧ state_queue (req_state r) = q.

(** ** The timer behind an object of [$TIMERS] (timer.cpp, 219-269) *)

(** The allocator hands out addresses upwards from [next_addr]: the timers
    and the listeners that exist were allocated before, so their addresses
    lie below it. *)
Definition timer_world_wf (w : timer_world) : Prop :=
  (∀ t, is_Some (tw_timers w !! t) → (t < next_addr (tw_inst w))%nat) ∧
  (∀ lo, lo ∈ tw_listeners w → (fst lo < next_addr (tw_inst w))%nat).

(** The object [{id:"v", interval:50, active:"no"}] that has just joined
    the set, in a world that holds the timer of [timer_u]. *)
Definition timer_v : timer_object :=
  TimerObject 81
    [("id", VString "v"); ("interval", VUlongint 50); ("active", VString "no")].

(** ** Expression variables: [on_observe] and the construction (vcm-ev.c,
       190-203 and 221-291) *)

Section ExpressionVariableMake.

(** The default name of the method and the suffix of the name of the
    constant method ([private/vcm.h]), and the evaluator of expression
    trees. *)
Variable PCVCM_EV_DEFAULT_METHOD_NAME : string.
Variable PCVCM_EV_CONST_SUFFIX : string.
Variable pcvcm_eval :
  nat → pcintr_stack → bool → pcinst → purc_variant_t * pcinst.

(** The value that [last_value] held is overwritten, not released. *)
Definition on_observe (co : pcintr_coroutine) (ev : pcvcm_ev) (inst : pcinst)
    : bool * pcvcm_ev * pcinst :=
  match pcintr_get_stack co inst with
  | None => (false, ev, inst)
  | Some stack =>
      let '(v, inst) := pcvcm_eval (ev_vcm ev) stack false inst in
      (bool_decide (is_Some v), ev_set_last_value v ev, inst)
  end.

(** [evs] maps the address of a [struct pcvcm_ev] to its fields.  The
    check after [malloc(nr + 1)] looks at [method_name] once more, which
    is set by then; [sprintf] writes through what [malloc] returned, so a
    failure of that allocation stops the program. *)
Definition pcvcm_to_expression_variable (vcm : nat)
    (method_name : option string) (constantly release_vcm : bool)
    (evs : gmap nat pcvcm_ev) (inst : pcinst)
    : outcome (purc_variant_t * gmap nat pcvcm_ev * pcinst) :=
  let '(vcm_ev, inst) := calloc_addr inst in
  match vcm_ev with
  | None =>
      mret (PURC_VARIANT_INVALID, evs,
            purc_set_error PURC_ERROR_OUT_OF_MEMORY inst)
  | Some e =>
      let name := default PCVCM_EV_DEFAULT_METHOD_NAME method_name in
      let '(ok, inst) := calloc inst in                  (* strdup *)
      if negb ok then mret (PURC_VARIANT_INVALID, evs, inst)
      else
        let '(ok, inst) := calloc inst in                (* malloc *)
        if negb ok then Aborted
        else
          let const_name := String.append name PCVCM_EV_CONST_SUFFIX in
          let '(v, inst) :=
            purc_variant_make (VNative (NativeVcmEv e)) inst in
          match v with
          | None => mret (PURC_VARIANT_INVALID, evs, inst)
          | Some _ =>
              mret (v,
                    <[e := VcmEv vcm name const_name PURC_VARIANT_INVALID
                             PURC_VARIANT_INVALID release_vcm constantly]>
                      evs,
                    inst)
          end
  end.

End ExpressionVariableMake.

(** ** The [match] element: its children in turn, and leaving it (match.c,
       54-63, 178-210 and 244-309) *)

Definition frame_set_result_from_child (v : purc_variant_t)
    (f : pcintr_stack_frame) : pcintr_stack_frame :=
  Frame (f_type f) (f_scope f) (f_pos f) (f_edom_element f) (f_ctxt f)
        (f_ctxt_destroy f) (f_silently f) (f_ops f) (f_symbol_vars f)
        (f_attr_vars f) (f_ctnt_var f) v (f_next_step f) (f_preemptor f).

Definition frame_set_ctxt (c : option nat) (f : pcintr_stack_frame)
    : pcintr_stack_frame :=
  Frame (f_type f) (f_scope f) (f_pos f) (f_edom_element f) c
        (f_ctxt_destroy f) (f_silently f) (f_ops f) (f_symbol_vars f)
        (f_attr_vars f) (f_ctnt_var f) (f_result_from_child f)
        (f_next_step f) (f_preemptor f).

(** [on_popping] of [match]; [ctxts] holds the contexts by address, a
    context that was freed is gone from it.  [stack] is the stack of [co];
    [purc_get_stack()] is it when [co] is the running coroutine. *)
Definition match_on_popping (co : pcintr_coroutine) (ud : option nat)
    (ctxts : gmap nat ctxt_for_match) (inst : pcinst)
    : outcome (bool * pcintr_coroutine * gmap nat ctxt_for_match * pcinst) :=
  (* stack == purc_get_stack() *)
  _ ← PC_ASSERT (bool_decide (is_Some (pcintr_get_stack co inst)));
  frame ← (match pcintr_stack_get_bottom_frame (co_stack co) with
           | Some frame => Done frame | None => Aborted end);
  f ← (match frames (co_stack co) !! frame with
       | Some f => Done f | None => Aborted end);
  _ ← PC_ASSERT (bool_decide (ud = f_ctxt f));
  _ ← PC_ASSERT (bool_decide (is_Some (f_pos f)));
  match f_ctxt f with
  | Some c =>
      ctxt ← (match ctxts !! c with Some x => Done x | None => Aborted end);
      '(co, inst) ←
        (if cm_is_exclusively ctxt && cm_matched ctxt then
           parent ← (match pcintr_stack_frame_get_parent (co_stack co)
                             (Some frame) with
                     | Some parent => Done parent | None => Aborted end);
           let '(v, inst) := purc_variant_make_boolean true inst in
           co ← frame_write co parent (frame_set_result_from_child v);
           _ ← PC_ASSERT (bool_decide (is_Some v));
           mret (co, inst)
         else mret (co, inst));
      (* ctxt_for_match_destroy(ctxt); frame->ctxt = NULL; *)
      co ← frame_write co frame (frame_set_ctxt None);
      mret (true, co, delete c ctxts, inst)
  | None => mret (true, co, ctxts, inst)
  end.

(** The running coroutine of [ev_inst], in a [match] element under the
    root element. *)
Definition match_co : pcintr_coroutine :=
  Coroutine 1 (stack_set_frames [demo_frame; match_frame_2] stack0)
            CO_STATE_RUN 0.

(** * Properties *)

(** ** Frames and their symbol variables *)

Lemma purc_variant_make_val val inst v inst' :
  purc_variant_make val inst = (Some v, inst') → v_val v = val.
Proof.
  unfold purc_variant_make. destruct (calloc inst) as [[] i1]; intros H.
  - injection H as <- _. reflexivity.
  - discriminate.
Qed.

Lemma stack_update_frame_bottom (l : list pcintr_stack_frame) f0 g s :
  frames s = l ++ [f0] →
  frames (stack_update_frame (length l) g s) = l ++ [g f0].
Proof.
  intros Hs. unfold stack_update_frame; simpl. rewrite Hs.
  replace (length l) with (length l + 0)%nat by lia.
  rewrite alter_app_r. reflexivity.
Qed.

Lemma lookup_bottom (l : list pcintr_stack_frame) f0 :
  (l ++ [f0]) !! length l = Some f0.
Proof. apply list_lookup_middle. reflexivity. Qed.

Lemma get_parent_bottom (l : list pcintr_stack_frame) f0 s :
  frames s = l ++ [f0] →
  f_type f0 = STACK_FRAME_TYPE_NORMAL →
  pcintr_stack_frame_get_parent s (Some (length l)) ≫= (λ p, frames s !! p)
  = last l.
Proof.
  intros Hs Hty. unfold pcintr_stack_frame_get_parent.
  rewrite Hs, lookup_bottom, Hty.
  induction l as [|x l' _] using rev_ind.
  - reflexivity.
  - rewrite length_app; simpl.
    case_decide; [lia|]. simpl.
    replace (pred (length l' + 1)) with (length l') by lia.
    rewrite <- (assoc_L (++)); simpl.
    rewrite list_lookup_middle by reflexivity.
    rewrite last_snoc. reflexivity.
Qed.
Lemma init_at_symval_bottom (l : list pcintr_stack_frame) f s inst s' inst' :
  frames s = l ++ [f] →
  f_type f = STACK_FRAME_TYPE_NORMAL →
  init_at_symval s (length l) inst = Done (0, s', inst') →
  ∃ f', frames s' = l ++ [f'] ∧
    match last l ≫= f_edom_element with
    | Some edom =>
        ∃ a, v_val a = VNative (NativeElements edom) ∧
             f' = frame_set_symbol_var PURC_SYMBOL_VAR_AT_SIGN (Some a) f
    | None => f' = f
    end.
Proof.
  intros Hs Hty. unfold init_at_symval.
  pose proof (get_parent_bottom l f s Hs Hty) as Hp.
  destruct (pcintr_stack_frame_get_parent s (Some (length l))) as [p|];
    simpl in Hp; rewrite <- Hp; simpl.
  - destruct (frames s !! p) as [pf|]; simpl.
    + destruct (f_edom_element pf) as [edom|].
      * destruct (pcdvobjs_make_elements edom inst) as [[a|] i1] eqn:Ea;
          simpl; [|discriminate].
        apply purc_variant_make_val in Ea.
        unfold pcintr_set_at_var, pcintr_set_symbol_var.
        rewrite Hs, lookup_bottom. simpl.
        intros [= <- <-]. eexists; split.
        { apply stack_update_frame_bottom, Hs. }
        eauto.
      * intros [= <- <-]. eauto.
    + intros [= <- <-]. eauto.
  - intros [= <- <-]. eauto.
Qed.

Lemma init_exclamation_symval_bottom (l : list pcintr_stack_frame) f s inst
    s' inst' :
  frames s = l ++ [f] →
  init_exclamation_symval s (length l) inst = Done (0, s', inst') →
  ∃ e, v_val e = VObject [] ∧
       frames s' =
         l ++ [frame_set_symbol_var PURC_SYMBOL_VAR_EXCLAMATION (Some e) f].
Proof.
  intros Hs. unfold init_exclamation_symval.
  destruct (purc_variant_make_object_0 inst) as [[e|] i1] eqn:Ee;
    simpl; [|discriminate].
  apply purc_variant_make_val in Ee.
  unfold pcintr_set_exclamation_var, pcintr_set_symbol_var.
  rewrite Hs, lookup_bottom. simpl.
  intros [= <- <-]. exists e; split; [done|].
  apply stack_update_frame_bottom, Hs.
Qed.

Lemma init_symvals_normal (l : list pcintr_stack_frame) f0 s inst s' inst' :
  frames s = l ++ [f0] →
  f_type f0 = STACK_FRAME_TYPE_NORMAL →
  init_symvals_with_vals s (length l) inst = Done (0, s', inst') →
  ∃ f, frames s' = l ++ [f] ∧
       f_type f = STACK_FRAME_TYPE_NORMAL ∧
       (∀ sym, is_Some (f_symbol_vars f sym)) ∧
       symval f PURC_SYMBOL_VAR_PERCENT_SIGN = Some (VUlongint 0) ∧
       symval f PURC_SYMBOL_VAR_EXCLAMATION = Some (VObject []) ∧
       symval f PURC_SYMBOL_VAR_AT_SIGN =
         Some (match last l ≫= f_edom_element with
               | Some edom => VNative (NativeElements edom)
               | None => VUndefined
               end) ∧
       (∀ sym, sym ≠ PURC_SYMBOL_VAR_PERCENT_SIGN →
               sym ≠ PURC_SYMBOL_VAR_EXCLAMATION →
               sym ≠ PURC_SYMBOL_VAR_AT_SIGN →
               symval f sym = Some VUndefined) ∧
       frame_set_all_symbol_vars None f = frame_set_all_symbol_vars None f0.
Proof.
  intros Hs Hty. unfold init_symvals_with_vals, init_undefined_symvals.
  destruct (purc_variant_make_undefined inst) as [[u|] i1] eqn:Eu; simpl; [|discriminate].
  apply purc_variant_make_val in Eu.
  pose proof (stack_update_frame_bottom l f0 (frame_set_all_symbol_vars (Some u)) s Hs) as H1.
  set (s1 := stack_update_frame (length l) _ s) in *.
  unfold frame_is_pseudo. rewrite H1, lookup_bottom. simpl. rewrite Hty.
  unfold init_percent_symval.
  destruct (purc_variant_make_ulongint 0 i1) as [[p|] i2] eqn:Ep; simpl; [|discriminate].
  apply purc_variant_make_val in Ep.
  pose proof (stack_update_frame_bottom l _ (frame_set_symbol_var PURC_SYMBOL_VAR_PERCENT_SIGN (Some p)) s1 H1) as H2.
  set (s2 := stack_update_frame (length l) _ s1) in *.
  destruct (init_at_symval s2 (length l) i2) as [[[r3 s3] i3]|] eqn:Eat; simpl; [|discriminate].
  case_decide as Hr3; simpl; [discriminate|].
  assert (r3 = 0) as -> by (destruct (decide (r3 = 0)); [done|contradiction]).
  apply init_at_symval_bottom with (l := l) (f := frame_set_symbol_var PURC_SYMBOL_VAR_PERCENT_SIGN (Some p) (frame_set_all_symbol_vars (Some u) f0)) in Eat; [|done|done].
  destruct Eat as (f3 & H3 & Hat).
  destruct (init_exclamation_symval s3 (length l) i3) as [[[r4 s4] i4]|] eqn:Eex; simpl; [|discriminate].
  case_decide as Hr4; simpl; [discriminate|].
  assert (r4 = 0) as -> by (destruct (decide (r4 = 0)); [done|contradiction]).
  apply init_exclamation_symval_bottom with (l := l) (f := f3) in Eex; [|done].
  destruct Eex as (e & He & H4).
  intros [= <- <-]. eexists; split; [exact H4|].
  unfold symval.
  destruct (last l ≫= f_edom_element) as [edom|].
  - destruct Hat as (a & Ha & ->). simpl. rewrite Hty, Ep, He, Ha.
    repeat split; try done.
    + intros sym. repeat case_decide; eauto.
    + intros sym ? ? ?. repeat case_decide; try done; simpl; by rewrite Eu.
  - subst f3. simpl. rewrite Hty, Ep, He, Eu.
    repeat split; try done.
    + intros sym. repeat case_decide; eauto.
    + intros sym ? ? ?. repeat case_decide; try done; simpl; by rewrite Eu.
Qed.

(** C8 (part): the symbol variables of a pseudo frame are all set, to
    undefined. *)
Lemma init_symvals_pseudo (s : pcintr_stack) frame f0 inst s' inst' :
  frames s !! frame = Some f0 →
  f_type f0 = STACK_FRAME_TYPE_PSEUDO →
  init_symvals_with_vals s frame inst = Done (0, s', inst') →
  ∃ f, frames s' !! frame = Some f ∧
       ∀ sym, symval f sym = Some VUndefined.
Proof.
  intros Hf Hty. unfold init_symvals_with_vals, init_undefined_symvals.
  destruct (purc_variant_make_undefined inst) as [[u|] i1] eqn:Eu;
    simpl; [|discriminate].
  apply purc_variant_make_val in Eu.
  unfold frame_is_pseudo, stack_update_frame; simpl.
  rewrite list_lookup_alter_eq, Hf; simpl. rewrite Hty.
  intros [= <- <-]; simpl. rewrite list_lookup_alter_eq, Hf; simpl.
  eexists; split; [done|]. intros sym. unfold symval; simpl. by rewrite Eu.
Qed.

Lemma push_stack_frame_normal_shape
    (s : pcintr_stack) inst frame s' inst' :
  push_stack_frame_normal s inst = Done (Some frame, s', inst') →
  ∃ f, frames s' = frames s ++ [f] ∧
       frame = nr_frames s ∧
       f_type f = STACK_FRAME_TYPE_NORMAL ∧
       (∀ sym, is_Some (f_symbol_vars f sym)) ∧
       symval f PURC_SYMBOL_VAR_PERCENT_SIGN = Some (VUlongint 0) ∧
       symval f PURC_SYMBOL_VAR_EXCLAMATION = Some (VObject []) ∧
       symval f PURC_SYMBOL_VAR_AT_SIGN =
         Some (match last (frames s) ≫= f_edom_element with
               | Some edom => VNative (NativeElements edom)
               | None => VUndefined
               end) ∧
       (∀ sym, sym ≠ PURC_SYMBOL_VAR_PERCENT_SIGN →
               sym ≠ PURC_SYMBOL_VAR_EXCLAMATION →
               sym ≠ PURC_SYMBOL_VAR_AT_SIGN →
               symval f sym = Some VUndefined) ∧
       frame_set_all_symbol_vars None f
       = frame_calloc STACK_FRAME_TYPE_NORMAL.
Proof.
  unfold push_stack_frame_normal.
  destruct (calloc inst) as [[] i1]; simpl; [|discriminate].
  set (s1 := stack_set_frames _ s).
  destruct (init_symvals_with_vals s1 (nr_frames s) i1)
    as [[[r s2] i2]|] eqn:E; simpl; [|discriminate].
  case_decide as Hr.
  - subst r. intros [= <- <- <-].
    apply init_symvals_normal with (f0 := frame_calloc STACK_FRAME_TYPE_NORMAL)
      in E; [|done|done].
    destruct E as (f & Hf & ?). exists f. by rewrite Hf.
  - destruct (pop_stack_frame s2 i2) as [[? ?]|]; discriminate.
Qed.


(** C8. After [push_stack_frame_normal] has pushed a frame, the new bottom
    frame is a normal frame whose [symbol_vars] are all non-null: [%] is
    the unsigned integer 0, [!] is an empty object, [@] is an
    elements-reference to the DOM point of the parent frame (the previous
    bottom frame) when that frame exists and has one, and undefined
    otherwise; every other symbol is undefined. *)
Theorem push_stack_frame_normal_symbol_vars
    (s : pcintr_stack) inst frame s' inst' :
  push_stack_frame_normal s inst = Done (Some frame, s', inst') →
  ∃ f, frames s' = frames s ++ [f] ∧
       frame = nr_frames s ∧
       f_type f = STACK_FRAME_TYPE_NORMAL ∧
       (∀ sym, is_Some (f_symbol_vars f sym)) ∧
       symval f PURC_SYMBOL_VAR_PERCENT_SIGN = Some (VUlongint 0) ∧
       symval f PURC_SYMBOL_VAR_EXCLAMATION = Some (VObject []) ∧
       symval f PURC_SYMBOL_VAR_AT_SIGN =
         Some (match last (frames s) ≫= f_edom_element with
               | Some edom => VNative (NativeElements edom)
               | None => VUndefined
               end) ∧
       (∀ sym, sym ≠ PURC_SYMBOL_VAR_PERCENT_SIGN →
               sym ≠ PURC_SYMBOL_VAR_EXCLAMATION →
               sym ≠ PURC_SYMBOL_VAR_AT_SIGN →
               symval f sym = Some VUndefined).
Proof.
  intros H. apply push_stack_frame_normal_shape in H
    as (f & H1 & H2 & H3 & H4 & H5 & H6 & H7 & H8 & _).
  exists f. by repeat split.
Qed.

Lemma push_stack_frame_normal_symbol_vars_witness :
  ∃ f, frames_after_push stack0 inst0 = Some [f] ∧
       symval f PURC_SYMBOL_VAR_PERCENT_SIGN = Some (VUlongint 0) ∧
       symval f PURC_SYMBOL_VAR_AT_SIGN = Some VUndefined.
Proof.
  destruct (push_stack_frame_normal_symbol_vars stack0 inst0 0%nat _ _ eq_refl)
    as (f & H1 & _ & _ & _ & H2 & _ & H3 & _).
  exists f. split; [|split; assumption].
  unfold frames_after_push. simpl. f_equal. exact H1.
Defined.
Lemma calloc_plan_nil inst :
  alloc_plan inst = [] → calloc inst = (true, inst).
Proof. unfold calloc. by intros ->. Qed.

Lemma inst_allocated_refl inst : inst_allocated inst inst.
Proof. by repeat split. Qed.

Lemma inst_allocated_trans i1 i2 i3 :
  inst_allocated i1 i2 → inst_allocated i2 i3 → inst_allocated i1 i3.
Proof.
  intros (?&?&?&?&?) (?&?&?&?&?). repeat split; congruence.
Qed.

Lemma purc_variant_make_plan_nil val inst :
  alloc_plan inst = [] →
  ∃ v inst', purc_variant_make val inst = (Some v, inst') ∧
             v_val v = val ∧ inst_allocated inst inst'.
Proof.
  intros H. unfold purc_variant_make. rewrite (calloc_plan_nil _ H).
  eexists _, _; split; [reflexivity|]. by repeat split.
Qed.

Lemma stack_rest_update i g s :
  stack_rest (stack_update_frame i g s) = stack_rest s.
Proof. reflexivity. Qed.

Lemma stack_rest_frames s s' :
  stack_rest s' = stack_rest s → frames s' = frames s → s' = s.
Proof.
  destruct s, s'; unfold stack_rest, stack_set_frames; simpl.
  intros [= -> -> -> -> -> -> -> -> -> -> ->] ->. reflexivity.
Qed.

Lemma init_at_symval_plan_nil (l : list pcintr_stack_frame) f s inst :
  frames s = l ++ [f] →
  alloc_plan inst = [] →
  ∃ s' inst' f', init_at_symval s (length l) inst = Done (0, s', inst') ∧
                 inst_allocated inst inst' ∧ frames s' = l ++ [f'] ∧
                 stack_rest s' = stack_rest s.
Proof.
  intros Hs Hp. unfold init_at_symval.
  destruct (pcintr_stack_frame_get_parent s (Some (length l))) as [p|];
    [|by eauto 10 using inst_allocated_refl].
  destruct (frames s !! p ≫= f_edom_element) as [edom|];
    [|by eauto 10 using inst_allocated_refl].
  destruct (purc_variant_make_plan_nil (VNative (NativeElements edom)) inst Hp)
    as (a & i1 & E & _ & Hp1).
  unfold pcdvobjs_make_elements. rewrite E.
  unfold pcintr_set_at_var, pcintr_set_symbol_var.
  rewrite Hs, lookup_bottom. simpl.
  eexists _, _, _; split; [reflexivity|]. split; [done|]. split; [|done].
  apply stack_update_frame_bottom, Hs.
Qed.

(** With an allocator that does not fail, a frame is pushed; nothing but
    the frame list and the addresses handed out changes. *)
Lemma push_stack_frame_normal_succeeds (s : pcintr_stack) inst :
  alloc_plan inst = [] →
  ∃ s' inst', push_stack_frame_normal s inst
              = Done (Some (nr_frames s), s', inst') ∧
              inst_allocated inst inst' ∧
              stack_rest s' = stack_rest s.
Proof.
  intros Hp. unfold push_stack_frame_normal.
  rewrite (calloc_plan_nil _ Hp); simpl.
  set (s0 := stack_set_frames _ s).
  assert (frames s0 = frames s ++ [frame_calloc STACK_FRAME_TYPE_NORMAL]) as H0
    by done.
  assert (stack_rest s0 = stack_rest s) as R0 by done.
  unfold init_symvals_with_vals, init_undefined_symvals,
    purc_variant_make_undefined.
  destruct (purc_variant_make_plan_nil VUndefined inst Hp)
    as (u & i1 & -> & _ & A1).
  simpl.
  pose proof (stack_update_frame_bottom _ _
    (frame_set_all_symbol_vars (Some u)) s0 H0) as H1.
  unfold nr_frames.
  set (s1 := stack_update_frame (length (frames s)) _ s0) in *.
  assert (stack_rest s1 = stack_rest s) as R1 by done.
  unfold frame_is_pseudo. rewrite H1, lookup_bottom. simpl.
  unfold init_percent_symval, purc_variant_make_ulongint.
  assert (alloc_plan i1 = []) as Hp1 by (destruct A1 as (_&->&_); done).
  destruct (purc_variant_make_plan_nil (VUlongint 0) i1 Hp1)
    as (p & i2 & -> & _ & A2).
  simpl.
  pose proof (stack_update_frame_bottom _ _
    (frame_set_symbol_var PURC_SYMBOL_VAR_PERCENT_SIGN (Some p)) s1 H1) as H2.
  set (s2 := stack_update_frame (length (frames s)) _ s1) in *.
  assert (stack_rest s2 = stack_rest s) as R2 by done.
  assert (alloc_plan i2 = []) as Hp2 by (destruct A2 as (_&->&_); done).
  destruct (init_at_symval_plan_nil _ _ s2 i2 H2 Hp2)
    as (s3 & i3 & f3 & -> & A3 & H3 & R3).
  simpl.
  unfold init_exclamation_symval, purc_variant_make_object_0.
  assert (alloc_plan i3 = []) as Hp3 by (destruct A3 as (_&->&_); done).
  destruct (purc_variant_make_plan_nil (VObject []) i3 Hp3)
    as (e & i4 & -> & _ & A4).
  unfold pcintr_set_exclamation_var, pcintr_set_symbol_var.
  rewrite H3, lookup_bottom. simpl.
  eexists _, _. split; [reflexivity|]. split.
  - eauto using inst_allocated_trans.
  - rewrite stack_rest_update. congruence.
Qed.

Lemma purc_variant_make_cases val inst r inst' :
  purc_variant_make val inst = (r, inst') →
  events inst' = events inst ∧
  heap_coroutines inst' = heap_coroutines inst ∧
  running_coroutine inst' = running_coroutine inst ∧
  match r with
  | Some v => v_val v = val ∧ errcode inst' = errcode inst
  | None => errcode inst' = PURC_ERROR_OUT_OF_MEMORY
  end.
Proof.
  unfold purc_variant_make, calloc.
  destruct (alloc_plan inst) as [|[] plan]; intros [= <- <-]; done.
Qed.

Local Ltac init_symvals_done :=
  eexists _, _, _, _; split; [reflexivity|]; split; [eassumption|];
  repeat split; try done; try congruence; auto.

(** Initialising the symbol variables of the bottom frame never trips an
    assertion; it touches the symbol variables of that frame only, and
    fails only for want of memory. *)
Lemma init_symvals_with_vals_bottom (l : list pcintr_stack_frame) f0 s inst :
  frames s = l ++ [f0] →
  ∃ r s' inst' f,
    init_symvals_with_vals s (length l) inst = Done (r, s', inst') ∧
    frames s' = l ++ [f] ∧
    frame_set_all_symbol_vars None f = frame_set_all_symbol_vars None f0 ∧
    stack_rest s' = stack_rest s ∧
    events inst' = events inst ∧
    heap_coroutines inst' = heap_coroutines inst ∧
    running_coroutine inst' = running_coroutine inst ∧
    (r ≠ 0 → errcode inst' = PURC_ERROR_OUT_OF_MEMORY).
Proof.
  intros Hs. unfold init_symvals_with_vals, init_undefined_symvals.
  destruct (purc_variant_make_undefined inst) as [[u|] i1] eqn:Eu;
    apply purc_variant_make_cases in Eu as (Ev1 & Hc1 & Rc1 & Eu); simpl.
  2: { init_symvals_done. }
  pose proof (stack_update_frame_bottom l f0
                (frame_set_all_symbol_vars (Some u)) s Hs) as H1.
  set (s1 := stack_update_frame (length l) _ s) in *.
  unfold frame_is_pseudo. rewrite H1, lookup_bottom. simpl.
  destruct (f_type f0).
  2: { init_symvals_done. }
  unfold init_percent_symval.
  destruct (purc_variant_make_ulongint 0 i1) as [[p|] i2] eqn:Ep;
    apply purc_variant_make_cases in Ep as (Ev2 & Hc2 & Rc2 & Ep); simpl.
  2: { init_symvals_done. }
  pose proof (stack_update_frame_bottom l _
                (frame_set_symbol_var PURC_SYMBOL_VAR_PERCENT_SIGN (Some p))
                s1 H1) as H2.
  set (s2 := stack_update_frame (length l) _ s1) in *.
  assert (∃ r3 s3 i3 f3,
            init_at_symval s2 (length l) i2 = Done (r3, s3, i3) ∧
            frames s3 = l ++ [f3] ∧
            frame_set_all_symbol_vars None f3
            = frame_set_all_symbol_vars None f0 ∧
            stack_rest s3 = stack_rest s ∧
            events i3 = events inst ∧
            heap_coroutines i3 = heap_coroutines inst ∧
            running_coroutine i3 = running_coroutine inst ∧
            (r3 ≠ 0 → errcode i3 = PURC_ERROR_OUT_OF_MEMORY))
    as (r3 & s3 & i3 & f3 & -> & H3 & F3 & R3 & Ev3 & Hc3 & Rc3 & Er3).
  { unfold init_at_symval.
    destruct (pcintr_stack_frame_get_parent s2 (Some (length l))) as [pa|].
    2: { init_symvals_done. }
    destruct (frames s2 !! pa ≫= f_edom_element) as [edom|].
    2: { init_symvals_done. }
    destruct (pcdvobjs_make_elements edom i2) as [[a|] i3] eqn:Ea;
      apply purc_variant_make_cases in Ea as (Ev3 & Hc3 & Rc3 & Ea).
    2: { init_symvals_done. }
    unfold pcintr_set_at_var, pcintr_set_symbol_var.
    rewrite H2, lookup_bottom. simpl.
    eexists _, _, _, _. split; [reflexivity|].
    split; [apply stack_update_frame_bottom, H2|].
    repeat split; try done; congruence. }
  simpl. case_decide as Hr3.
  { init_symvals_done. }
  unfold init_exclamation_symval.
  destruct (purc_variant_make_object_0 i3) as [[e|] i4] eqn:Ee;
    apply purc_variant_make_cases in Ee as (Ev4 & Hc4 & Rc4 & Ee); simpl.
  2: { init_symvals_done. }
  unfold pcintr_set_exclamation_var, pcintr_set_symbol_var.
  rewrite H3, lookup_bottom. simpl.
  eexists _, _, _, _. split; [reflexivity|].
  split; [apply stack_update_frame_bottom, H3|].
  repeat split; try done; congruence.
Qed.

Lemma removelast_snoc {A} (l : list A) x : removelast (l ++ [x]) = l.
Proof. apply removelast_last. Qed.

Lemma pop_stack_frame_bottom (l : list pcintr_stack_frame) f s inst :
  frames s = l ++ [f] →
  f_ctxt f = None →
  pop_stack_frame s inst = Done (stack_set_frames l s, inst).
Proof.
  intros Hs Hc. unfold pop_stack_frame, nr_frames.
  rewrite Hs, length_app, bool_decide_eq_true_2 by (simpl; lia). simpl.
  rewrite last_snoc. unfold stack_frame_release. rewrite Hc. simpl.
  by rewrite removelast_snoc.
Qed.

Lemma stack_set_frames_rest s s' :
  stack_rest s' = stack_rest s → stack_set_frames (frames s) s' = s.
Proof. intros H. by apply stack_rest_frames. Qed.

(** [push_stack_frame_normal] always returns.  When it returns [NULL] the
    stack is as it was and the error is out-of-memory; no event is
    recorded either way. *)
Lemma push_stack_frame_normal_outcome (s : pcintr_stack) (inst : pcinst) :
  ∃ r s' inst',
    push_stack_frame_normal s inst = Done (r, s', inst') ∧
    events inst' = events inst ∧
    heap_coroutines inst' = heap_coroutines inst ∧
    running_coroutine inst' = running_coroutine inst ∧
    match r with
    | None => s' = s ∧ errcode inst' = PURC_ERROR_OUT_OF_MEMORY
    | Some frame => frame = nr_frames s ∧ stack_rest s' = stack_rest s
    end.
Proof.
  unfold push_stack_frame_normal, calloc.
  destruct (alloc_plan inst) as [|[] plan] eqn:Hplan; simpl.
  3: { eexists _, _, _. split; [reflexivity|]. by repeat split. }
  all: set (i1 := Inst _ _ _ _ _ _ : pcinst) || set (i1 := inst).
  all: set (s1 := stack_set_frames _ s).
  all: destruct (init_symvals_with_vals_bottom (frames s)
         (frame_calloc STACK_FRAME_TYPE_NORMAL) s1 i1 eq_refl)
         as (r & s2 & i2 & f & E & Hf & Hc & R & Ev & Hco & Rc & Er).
  all: unfold nr_frames; rewrite E; simpl.
  all: case_decide as Hr; simpl.
  all: try (eexists _, _, _; split; [reflexivity|]; by repeat split).
  all: rewrite (pop_stack_frame_bottom (frames s) f s2 i2 Hf)
         by (apply (f_equal f_ctxt) in Hc; exact Hc); simpl.
  all: eexists _, _, _; split; [reflexivity|].
  all: split; [done|]; split; [done|]; split; [done|].
  all: split; [|by apply Er].
  all: apply stack_set_frames_rest; rewrite R; reflexivity.
Qed.

(** ** The frame state machine *)

Section MachineFacts.

Variable ops_table : nat → pcintr_element_ops.
Variable pcintr_get_ops_by_element : pcvdom_element_t → ops_name.
Variable pcintr_rdr_page_control_load : pcintr_stack → pcinst → bool * pcinst.

Lemma frame_write_valid co frame g :
  is_Some (frames (co_stack co) !! frame) →
  frame_write co frame g
  = Done (co_set_stack (stack_update_frame frame g (co_stack co)) co).
Proof. intros [f Hf]. unfold frame_write. by rewrite Hf. Qed.


(** A frame without operations (all four pointers [NULL]) goes from
    [AFTER_PUSHED] to [SELECT_CHILD] and from [SELECT_CHILD] to
    [ON_POPPING]; in [RERUN] the assertion on the result of [rerun]
    fails. *)
Lemma dispatch_next_step_null_ops co inst frame f :
  frames (co_stack co) !! frame = Some f →
  f_ops f = None →
  dispatch_next_step ops_table pcintr_get_ops_by_element co inst frame f =
  match f_next_step f with
  | NEXT_STEP_AFTER_PUSHED =>
      Done (set_next_step frame NEXT_STEP_SELECT_CHILD co, inst)
  | NEXT_STEP_SELECT_CHILD =>
      Done (set_next_step frame NEXT_STEP_ON_POPPING co, inst)
  | NEXT_STEP_RERUN => Aborted
  | NEXT_STEP_ON_POPPING =>
      '(s, inst) ← pop_stack_frame (co_stack co) inst;
      mret (co_set_stack s co, inst)
  end.
Proof.
  intros Hf Hops. unfold dispatch_next_step.
  destruct (f_next_step f);
    unfold after_pushed, on_popping, on_rerun, on_select_child, frame_ops;
    rewrite Hf; simpl; rewrite Hops; simpl; try reflexivity;
    rewrite frame_write_valid by eauto; reflexivity.
Qed.

(** The step around the dispatch: when the dispatch leaves a running
    coroutine with frames and no pending error, the coroutine is handed
    back ready. *)
Lemma execute_one_step_continues co inst frame f co1 inst1 :
  pcintr_stack_get_bottom_frame (co_stack co) = Some frame →
  frames (co_stack co) !! frame = Some f →
  f_preemptor f = false →
  dispatch_next_step ops_table pcintr_get_ops_by_element co inst frame f
    = Done (co1, inst1) →
  co_state co1 = CO_STATE_RUN →
  errcode inst1 = PURC_ERROR_OK →
  (∃ b, last (frames (co_stack co1)) = Some b ∧ f_preemptor b = false) →
  execute_one_step_on_frame ops_table pcintr_get_ops_by_element
    pcintr_rdr_page_control_load co inst
  = Done (Some (co_set_state CO_STATE_READY co1), inst1).
Proof.
  intros Hb Hf Hp Hd Hst Herr (b & Hlast & Hpb).
  unfold execute_one_step_on_frame. rewrite Hb, Hf; simpl.
  rewrite Hp, Hd; simpl. rewrite Hst.
  rewrite bool_decide_eq_true_2 by done. simpl. rewrite Herr; simpl.
  destruct (frames (co_stack co1)) as [|x l] eqn:El using rev_ind;
    [done|]. clear IHl.
  rewrite bool_decide_eq_false_2 by (by destruct l).
  unfold pcintr_stack_get_bottom_frame, nr_frames; simpl. rewrite El.
  rewrite length_app; simpl.
  case_decide; [lia|].
  replace (pred (length l + 1)) with (length l) by lia.
  rewrite lookup_bottom. rewrite last_snoc in Hlast.
  injection Hlast as ->. by rewrite Hpb.
Qed.

End MachineFacts.



(** ** Termination of a coroutine *)

Lemma co_is_observed_true co : co_is_observed co = true.
Proof. unfold co_is_observed. repeat case_match; reflexivity. Qed.

(** Whatever its observer lists hold, [terminating_co] never hands the
    coroutine back alive. *)
Lemma terminating_co_never_alive co inst co' inst' :
  terminating_co co inst ≠ Done (Some co', inst').
Proof.
  unfold terminating_co.
  destruct (except (co_stack co)); rewrite co_is_observed_true; simpl;
    (destruct (PC_ASSERT _); simpl; [|done]);
    repeat case_match; simplify_eq; done.
Qed.

(** C1 (the code at the failing input). A coroutine whose stack is empty and
    whose common observer list holds an observer is not parked in [WAIT]:
    [terminating_co] runs [on_terminated] and [on_cleanup], unlinks it from
    the heap and destroys it. *)
Theorem terminating_co_destroys_observed :
  common_variant_observer_list (co_stack observed_co) = [observer1] ∧
  frames (co_stack observed_co) = [] ∧
  ∃ inst',
    terminating_co observed_co observed_inst = Done (None, inst') ∧
    events inst' = [EvDumpCStack; EvOnTerminated 7; EvOnCleanup 7;
                    EvCoroutineDestroy 7] ∧
    heap_coroutines inst' = [].
Proof.
  split; [reflexivity|]. split; [reflexivity|].
  eexists. split; [reflexivity|]. split; reflexivity.
Qed.

(** The same through a whole step: the last frame pops with an error
    pending, and the observed coroutine ([waits] is 1) is destroyed. *)
Lemma execute_one_step_destroys_observed :
  ∃ inst',
    execute_one_step_on_frame failing_ops_table demo_get_ops
      (λ _ inst, (true, inst)) observed_co_before observed_inst
    = Done (None, inst') ∧
    events inst' = [EvDumpDocument 7; EvDumpCStack; EvOnTerminated 7;
                    EvOnCleanup 7; EvCoroutineDestroy 7].
Proof. eexists. split; reflexivity. Qed.

(** ** Observers *)

Section ObserverFacts.

Variable native_on_forget : native_entity → bool.






Lemma all_observers_of o s :
  o ∈ all_observers s → ∃ l, o ∈ observers_of l s.
Proof.
  unfold all_observers. rewrite !elem_of_app. intros [H|[H|H]].
  - by exists COMMON_VARIANT_OBSERVER_LIST.
  - by exists DYNAMIC_VARIANT_OBSERVER_LIST.
  - by exists NATIVE_VARIANT_OBSERVER_LIST.
Qed.



Lemma calloc_next_addr inst ok inst' :
  calloc inst = (ok, inst') →
  next_addr inst' = next_addr inst ∧
  running_coroutine inst' = running_coroutine inst.
Proof.
  unfold calloc. destruct (alloc_plan inst); intros [= <- <-]; done.
Qed.

Lemma strdup_next_addr str inst r inst' :
  strdup str inst = (r, inst') →
  (next_addr inst ≤ next_addr inst')%nat ∧
  running_coroutine inst' = running_coroutine inst.
Proof.
  unfold strdup. destruct (calloc inst) as [ok i1] eqn:E.
  apply calloc_next_addr in E as [E1 E2].
  destruct ok; intros [= <- <-]; simpl; split; (lia || done).
Qed.

Lemma pcintr_get_stack_running co inst :
  running_coroutine inst = Some (co_addr co) →
  pcintr_get_stack co inst = Some (co_stack co).
Proof.
  intros H. unfold pcintr_get_stack. rewrite H. by rewrite decide_True.
Qed.


Lemma register_observer_succeeds observed atom sub scope edom pos on_revoke
    co inst :
  observers_wf co inst →
  alloc_plan inst = [] →
  ∃ o co' inst',
    pcintr_register_observer observed atom sub scope edom pos on_revoke
      co inst = Done (Some o, co', inst').
Proof.
  intros (Hrun & _ & _ & _ & Hwaits) Hplan.
  unfold pcintr_register_observer.
  rewrite (pcintr_get_stack_running _ _ Hrun).
  cbn [mbind outcome_bind].
  unfold calloc at 1. rewrite Hplan. cbn [negb].
  set (i2 := Inst _ _ _ _ _ _).
  destruct (match sub with Some str => strdup str i2 | None => (None, i2) end)
    as [sub' i3] eqn:Es.
  assert (running_coroutine i3 = running_coroutine i2) as Hrun3.
  { destruct sub; [by eapply strdup_next_addr|by injection Es as _ <-]. }
  unfold add_observer_into_list.
  rewrite (bool_decide_eq_true_2 (is_Some _)).
  2:{ rewrite pcintr_get_stack_running; [eauto|].
      rewrite Hrun3. subst i2. cbn. done. }
  rewrite bool_decide_eq_true_2 by lia.
  cbn [mbind outcome_bind PC_ASSERT]. eauto.
Qed.





End ObserverFacts.


(** ** Matching observers *)

Lemma re_match_empty s : re_match ReEmpty s = false.
Proof. induction s; simpl; auto. Qed.

Lemma re_match_seq_empty r s : re_match (ReSeq ReEmpty r) s = false.
Proof. induction s; simpl; auto. Qed.

Lemma re_match_alt r1 r2 s :
  re_match (ReAlt r1 r2) s = re_match r1 s || re_match r2 s.
Proof. revert r1 r2. induction s; simpl; auto. Qed.

Lemma re_match_seq_eps r s : re_match (ReSeq ReEps r) s = re_match r s.
Proof.
  destruct s as [|c s]; simpl; [done|].
  by rewrite re_match_alt, re_match_seq_empty.
Qed.

Lemma re_compile_plain prev c rest :
  re_plain_char c = true →
  re_compile prev (c :: rest)
  = ReSeq (re_atom prev) (re_compile (Some (ReChar c)) rest).
Proof.
  destruct c as [[] [] [] [] [] [] [] []]; try reflexivity; discriminate.
Qed.

Lemma re_match_plain p : ∀ c s,
  re_plain p = true →
  re_match (re_compile (Some (ReChar c)) p) s = true ↔ s = c :: p.
Proof.
  induction p as [|d p IH]; intros c s Hp.
  - simpl. destruct s as [|e s]; simpl; [done|].
    case_bool_decide as He; subst.
    + destruct s; simpl; [done|]. rewrite re_match_empty. split; done.
    + rewrite re_match_empty. split; [done|]. by intros [= -> ->].
  - simpl in Hp. apply andb_true_iff in Hp as [Hd Hp].
    rewrite re_compile_plain by done. simpl.
    destruct s as [|e s]; simpl; [done|].
    case_bool_decide as He; subst.
    + rewrite re_match_seq_eps, IH by done. split; [by intros ->|by intros [= ->]].
    + rewrite re_match_seq_empty. split; [done|]. by intros [= -> ->].
Qed.

Lemma pcregex_is_match_exact (p s : string) :
  re_plain (String.list_ascii_of_string p) = true →
  pcregex_is_match (Some p) (Some s) = true ↔ s = p.
Proof.
  intros Hp. unfold pcregex_is_match.
  destruct (String.list_ascii_of_string p) as [|c q] eqn:Ep.
  - simpl. destruct (String.list_ascii_of_string s) as [|d t] eqn:Es.
    + simpl. split; [|done]. intros _.
      rewrite <- (String.string_of_list_ascii_of_string s),
              <- (String.string_of_list_ascii_of_string p).
      by rewrite Ep, Es.
    + simpl. rewrite re_match_empty. split; [done|].
      intros ->. congruence.
  - simpl in Hp. apply andb_true_iff in Hp as [Hc Hq].
    rewrite re_compile_plain by done. simpl re_atom.
    rewrite re_match_seq_eps, re_match_plain by done.
    split.
    + intros Hs.
      rewrite <- (String.string_of_list_ascii_of_string s),
              <- (String.string_of_list_ascii_of_string p).
      by rewrite Ep, Hs.
    + intros ->. exact Ep.
Qed.

(** C6. An observer matches a message exactly when the value it observes is
    the message source itself, its type atom is the type atom of the
    message, and its sub-type pattern matches the sub-type of the message:
    the two are the same pointer, or [pcregex_is_match] accepts.  A null
    pattern matches every sub-type; an exact string matches itself only; the
    pattern [click\..+] matches [click.primary] and matches neither [click]
    nor [clicker.primary]. *)
Theorem is_observer_match_spec :
  (∀ observer observed type_atom sub_type,
     is_observer_match observer observed type_atom sub_type = true ↔
     purc_variant_ptr_eq (o_observed observer) observed = true ∧
     o_msg_type_atom observer = type_atom ∧
     (cstr_ptr_eq (o_sub_type observer) sub_type = true ∨
      pcregex_is_match (c_str <$> o_sub_type observer) (c_str <$> sub_type)
        = true)) ∧
  (∀ observer observed type_atom sub_type,
     o_sub_type observer = None →
     is_observer_match observer observed type_atom sub_type = true ↔
     purc_variant_ptr_eq (o_observed observer) observed = true ∧
     o_msg_type_atom observer = type_atom) ∧
  (∀ observer observed type_atom pattern sub_type,
     o_sub_type observer = Some pattern →
     re_plain (String.list_ascii_of_string (c_str pattern)) = true →
     c_addr pattern ≠ c_addr sub_type →
     is_observer_match observer observed type_atom (Some sub_type) = true ↔
     purc_variant_ptr_eq (o_observed observer) observed = true ∧
     o_msg_type_atom observer = type_atom ∧
     c_str sub_type = c_str pattern) ∧
  is_observer_match click_observer (Some button_value) 8
    (Some (CStr 70 "click.primary")) = true ∧
  is_observer_match click_observer (Some button_value) 8
    (Some (CStr 71 "click")) = false ∧
  is_observer_match click_observer (Some button_value) 8
    (Some (CStr 72 "clicker.primary")) = false.
Proof.
  assert (∀ observer observed type_atom sub_type,
     is_observer_match observer observed type_atom sub_type = true ↔
     purc_variant_ptr_eq (o_observed observer) observed = true ∧
     o_msg_type_atom observer = type_atom ∧
     (cstr_ptr_eq (o_sub_type observer) sub_type = true ∨
      pcregex_is_match (c_str <$> o_sub_type observer) (c_str <$> sub_type)
        = true)) as Hiff.
  { intros observer observed type_atom sub_type. unfold is_observer_match.
    destruct (purc_variant_ptr_eq _ _); simpl; [|intuition discriminate].
    case_bool_decide; [|intuition discriminate].
    destruct (cstr_ptr_eq _ _); simpl; [intuition|].
    destruct (pcregex_is_match _ _); intuition discriminate. }
  split; [exact Hiff|]. split; [|split].
  - intros observer observed type_atom sub_type Hnull.
    rewrite Hiff, Hnull. simpl. intuition.
  - intros observer observed type_atom pattern sub_type Hpat Hplain Hne.
    rewrite Hiff, Hpat.
    change (c_str <$> Some pattern) with (Some (c_str pattern)).
    change (c_str <$> Some sub_type) with (Some (c_str sub_type)).
    unfold cstr_ptr_eq. rewrite bool_decide_eq_false_2 by done.
    rewrite pcregex_is_match_exact by done. intuition discriminate.
  - repeat split; vm_compute; reflexivity.
Qed.

Lemma is_observer_match_spec_witness :
  o_sub_type observer1 = None ∧
  is_observer_match observer1 (Some observed_value) 3
    (Some (CStr 73 "anything")) = true.
Proof.
  split; [reflexivity|].
  destruct is_observer_match_spec as (_ & H & _).
  apply (H observer1 (Some observed_value) 3%nat (Some (CStr 73 "anything"))
           eq_refl).
  split; reflexivity.
Defined.

(** ** Expression variables *)

(** C10. Called without an argument, [last_value_setter] returns the invalid
    value and leaves the expression variable as it is; called with
    arguments, it stores the first one as [last_value] (nothing else of the
    variable changes) and returns it. *)
Theorem last_value_setter_spec (ev : pcvcm_ev) :
  last_value_setter ev [] = (PURC_VARIANT_INVALID, ev) ∧
  ∀ arg0 rest,
    fst (last_value_setter ev (arg0 :: rest)) = arg0 ∧
    ev_last_value (snd (last_value_setter ev (arg0 :: rest))) = arg0 ∧
    snd (last_value_setter ev (arg0 :: rest)) = ev_set_last_value arg0 ev.
Proof. split; [reflexivity|]. intros arg0 rest. repeat split. Qed.

Section ExpressionVariableFacts.

Variable PCVCM_EV_PROPERTY_EVAL : string.
Variable PCVCM_EV_PROPERTY_VCM_EV : string.
Variable PCVCM_EV_PROPERTY_LAST_VALUE : string.
Variable PCVCM_EV_PROPERTY_METHOD_NAME : string.
Variable PCVCM_EV_PROPERTY_CONST_METHOD_NAME : string.
Variable pcvcm_eval :
  nat → pcintr_stack → bool → pcinst → purc_variant_t * pcinst.
Variable purc_variant_compare_ex : purc_variant → purc_variant_t → Z.
Variable pcintr_get_ops_by_element : pcvdom_element_t → ops_name.

Local Abbreviation getter :=
  (property_getter PCVCM_EV_PROPERTY_VCM_EV PCVCM_EV_PROPERTY_LAST_VALUE
     PCVCM_EV_PROPERTY_METHOD_NAME PCVCM_EV_PROPERTY_CONST_METHOD_NAME).
Local Abbreviation observe :=
  (pcintr_observe_vcm_ev PCVCM_EV_PROPERTY_EVAL PCVCM_EV_PROPERTY_VCM_EV
     PCVCM_EV_PROPERTY_LAST_VALUE PCVCM_EV_PROPERTY_METHOD_NAME
     PCVCM_EV_PROPERTY_CONST_METHOD_NAME pcvcm_eval purc_variant_compare_ex
     pcintr_get_ops_by_element).

Lemma co_set_stack_id co : co_set_stack (co_stack co) co = co.
Proof. by destruct co. Qed.

(** One scan step on an observer of an expression variable, with an
    allocator that does not fail and the coroutine current: the expression
    is evaluated afresh on the stack with the virtual frame; when the
    evaluation yields a value that compares equal to [last_value], the
    variable is unchanged and no message is posted; when it compares
    unequal, [last_value] becomes the fresh value and exactly one
    [change] message, with the observed value as source, is posted.  The
    coroutine is as before in every case. *)
Theorem observe_vcm_ev_change_detection co observer var ev inst :
  alloc_plan inst = [] →
  running_coroutine inst = Some (co_addr co) →
  getter ev PCVCM_EV_PROPERTY_EVAL = Some Method_eval_getter →
  getter ev PCVCM_EV_PROPERTY_LAST_VALUE = Some Method_last_value_getter →
  (∀ vcm s b i, alloc_plan i = [] →
                alloc_plan (snd (pcvcm_eval vcm s b i)) = []) →
  ∃ s1 inst1,
    stack_rest s1 = stack_rest (co_stack co) ∧
    inst_allocated inst inst1 ∧
    let silently := pcintr_is_element_silently (o_pos observer) in
    let '(new_val, inst2) := pcvcm_eval (ev_vcm ev) s1 silently inst1 in
    match new_val with
    | None => observe co observer var ev inst = Done (co, ev, inst2)
    | Some new_value =>
        if decide (purc_variant_compare_ex new_value (ev_last_value ev) = 0)
        then observe co observer var ev inst = Done (co, ev, inst2)
        else
          ∃ type inst3,
            observe co observer var ev inst
              = Done (co, ev_set_last_value (Some new_value) ev, inst3) ∧
            v_val type = VString MSG_TYPE_CHANGE ∧
            events inst3 =
              events inst2 ++
              [EvPostMessage var (Some type) PURC_VARIANT_INVALID
                 PURC_VARIANT_INVALID]
    end.
Proof.
  intros Hplan Hrun Hg1 Hg2 Heval.
  destruct (push_stack_frame_normal_succeeds (co_stack co) inst Hplan)
    as (s0 & inst1 & Hpush & Hal & Hrest).
  pose proof Hpush as Hshape.
  apply push_stack_frame_normal_shape in Hshape
    as (f & Hs0 & _ & Hty & _ & _ & _ & _ & _ & Hcal).
  set (g := frame_set_observer_fields pcintr_get_ops_by_element observer).
  pose proof (stack_update_frame_bottom _ _ g s0 Hs0) as Hs1.
  fold (nr_frames (co_stack co)) in Hs1.
  set (s1 := stack_update_frame (nr_frames (co_stack co)) g s0) in *.
  set (silently := pcintr_is_element_silently (o_pos observer)).
  exists s1, inst1.
  split; [subst s1; by rewrite stack_rest_update|]. split; [done|].
  cbv zeta.
  destruct (pcvcm_eval (ev_vcm ev) s1 silently inst1)
    as [new_val inst2] eqn:Ee.
  assert (alloc_plan inst2 = []) as Hplan2.
  { pose proof (Heval (ev_vcm ev) s1 silently inst1) as H.
    rewrite Ee in H. apply H. destruct Hal as (_ & -> & _). done. }
  assert (f_ctxt (g f) = None) as Hctxt.
  { apply (f_equal f_ctxt) in Hcal. exact Hcal. }
  assert (pop_stack_frame s1 inst2 = Done (co_stack co, inst2)) as Hpop.
  { unfold pop_stack_frame.
    rewrite bool_decide_eq_true_2
      by (unfold nr_frames; rewrite Hs1, length_app; simpl; lia).
    cbn [mbind outcome_bind PC_ASSERT].
    rewrite Hs1, last_snoc. unfold stack_frame_release. rewrite Hctxt.
    cbn [mbind outcome_bind mret outcome_ret].
    rewrite removelast_last. do 2 f_equal.
    apply stack_rest_frames; [|done].
    change (stack_rest s1 = stack_rest (co_stack co)).
    subst s1. by rewrite stack_rest_update. }
  assert (∀ c1 c2,
    co_set_stack (co_stack co) (co_set_stack c1 (co_set_stack c2 co)) = co)
    as Hco by (intros; by destruct co).
  assert (observe co observer var ev inst =
    match new_val with
    | None => Done (co, ev, inst2)
    | Some new_value =>
        if decide (purc_variant_compare_ex new_value (ev_last_value ev) = 0)
        then Done (co, ev, inst2)
        else
          let '(type, i3) := purc_variant_make_string MSG_TYPE_CHANGE inst2 in
          let '(_, i4) :=
            pcintr_dispatch_message_ex var type None None i3 in
          Done (co, ev_set_last_value (Some new_value) ev, i4)
    end) as Hobs.
  { unfold pcintr_observe_vcm_ev. rewrite Hpush.
    cbn [mbind outcome_bind].
    rewrite frame_write_valid
      by (cbn; rewrite Hs0; unfold nr_frames; rewrite lookup_bottom; eauto).
    cbn [mbind outcome_bind]. rewrite Hg1. cbn [mbind outcome_bind].
    unfold call_method at 1. unfold eval_getter, pcintr_get_stack.
    destruct Hal as (Herr & Hpl & Hheap & Hrc & Hev).
    rewrite Hrc, Hrun. cbn [co_addr co_set_stack co_stack].
    rewrite decide_True by done.
    fold g. fold s1. fold silently. rewrite Ee, Hpop.
    cbn [mbind outcome_bind]. rewrite Hco.
    destruct new_val as [new_value|]; [|reflexivity].
    rewrite Hg2. cbn [mbind outcome_bind call_method].
    unfold last_value_getter.
    case_decide; [reflexivity|].
    unfold property_setter. rewrite decide_True by done.
    cbn [mbind outcome_bind call_method last_value_setter].
    destruct (purc_variant_make_string _ _) as [type i3].
    destruct (pcintr_dispatch_message_ex _ _ _ _ _) as [r i4].
    reflexivity. }
  rewrite Hobs. destruct new_val as [new_value|]; [|reflexivity].
  case_decide as Hcmp; [reflexivity|].
  destruct (purc_variant_make_plan_nil (VString MSG_TYPE_CHANGE) inst2
              Hplan2) as (type & inst3 & Hmk & Hval & Hal3).
  destruct Hal3 as (_ & Hpl3 & _ & _ & Hev3).
  unfold purc_variant_make_string. rewrite Hmk.
  unfold pcintr_dispatch_message_ex.
  rewrite calloc_plan_nil by congruence. cbn [negb].
  eexists type, _. split; [reflexivity|]. split; [done|].
  cbn [events emit]. by rewrite Hev3.
Qed.

(** Outside a step of the coroutine [pcintr_get_stack()] is [NULL]:
    [eval_getter] returns the invalid value without evaluating, and the scan
    step leaves the variable alone and posts nothing. *)
Lemma observe_vcm_ev_not_running co observer var ev inst :
  alloc_plan inst = [] →
  running_coroutine inst = None →
  getter ev PCVCM_EV_PROPERTY_EVAL = Some Method_eval_getter →
  ∃ inst',
    observe co observer var ev inst = Done (co, ev, inst') ∧
    events inst' = events inst.
Proof.
  intros Hplan Hrun Hg1.
  destruct (push_stack_frame_normal_succeeds (co_stack co) inst Hplan)
    as (s0 & inst1 & Hpush & Hal & Hrest).
  pose proof Hpush as Hshape.
  apply push_stack_frame_normal_shape in Hshape
    as (f & Hs0 & _ & Hty & _ & _ & _ & _ & _ & Hcal).
  set (g := frame_set_observer_fields pcintr_get_ops_by_element observer).
  pose proof (stack_update_frame_bottom _ _ g s0 Hs0) as Hs1.
  fold (nr_frames (co_stack co)) in Hs1.
  set (s1 := stack_update_frame (nr_frames (co_stack co)) g s0) in *.
  assert (f_ctxt (g f) = None) as Hctxt.
  { apply (f_equal f_ctxt) in Hcal. exact Hcal. }
  assert (pop_stack_frame s1 inst1 = Done (co_stack co, inst1)) as Hpop.
  { unfold pop_stack_frame.
    rewrite bool_decide_eq_true_2
      by (unfold nr_frames; rewrite Hs1, length_app; simpl; lia).
    cbn [mbind outcome_bind PC_ASSERT].
    rewrite Hs1, last_snoc. unfold stack_frame_release. rewrite Hctxt.
    cbn [mbind outcome_bind mret outcome_ret].
    rewrite removelast_last. do 2 f_equal.
    apply stack_rest_frames; [|done].
    change (stack_rest s1 = stack_rest (co_stack co)).
    subst s1. by rewrite stack_rest_update. }
  exists inst1. destruct Hal as (Herr & Hpl & Hheap & Hrc & Hev).
  split; [|done].
  unfold pcintr_observe_vcm_ev. rewrite Hpush.
  cbn [mbind outcome_bind].
  rewrite frame_write_valid
    by (cbn; rewrite Hs0; unfold nr_frames; rewrite lookup_bottom; eauto).
  cbn [mbind outcome_bind]. rewrite Hg1. cbn [mbind outcome_bind].
  unfold call_method at 1. unfold eval_getter, pcintr_get_stack.
  rewrite Hrc, Hrun. cbn [co_addr co_set_stack co_stack].
  fold g. fold s1. rewrite Hpop.
  cbn [mbind outcome_bind mret outcome_ret]. by destruct co.
Qed.

(** A scan step while no coroutine is current, whatever the allocator
    does: [eval_getter] finds no stack and returns the sentinel, so that
    nothing is compared, stored or posted. *)
Lemma observe_vcm_ev_no_current co observer var ev inst :
  running_coroutine inst = None →
  getter ev PCVCM_EV_PROPERTY_EVAL = Some Method_eval_getter →
  ∃ inst',
    observe co observer var ev inst = Done (co, ev, inst') ∧
    events inst' = events inst ∧
    running_coroutine inst' = None.
Proof.
  intros Hrun Hg1.
  destruct (push_stack_frame_normal_outcome (co_stack co) inst)
    as (pushed & s0 & inst1 & Hpush & Hev & _ & Hrc & Hcase).
  exists inst1. split; [|split; [done|congruence]].
  unfold pcintr_observe_vcm_ev. rewrite Hpush.
  cbn [mbind outcome_bind].
  destruct pushed as [frame|].
  2: { destruct Hcase as [-> _]. by destruct co. }
  destruct Hcase as [-> Hrest]. pose proof Hpush as Hshape.
  apply push_stack_frame_normal_shape in Hshape
    as (f & Hs0 & _ & Hty & _ & _ & _ & _ & _ & Hcal).
  set (g := frame_set_observer_fields pcintr_get_ops_by_element observer).
  pose proof (stack_update_frame_bottom _ _ g s0 Hs0) as Hs1.
  fold (nr_frames (co_stack co)) in Hs1.
  set (s1 := stack_update_frame (nr_frames (co_stack co)) g s0) in *.
  assert (f_ctxt (g f) = None) as Hctxt.
  { apply (f_equal f_ctxt) in Hcal. exact Hcal. }
  assert (pop_stack_frame s1 inst1 = Done (co_stack co, inst1)) as Hpop.
  { rewrite (pop_stack_frame_bottom _ _ _ _ Hs1 Hctxt). do 2 f_equal.
    apply stack_rest_frames; [|done].
    change (stack_rest s1 = stack_rest (co_stack co)).
    subst s1. by rewrite stack_rest_update. }
  rewrite frame_write_valid
    by (cbn; rewrite Hs0; unfold nr_frames; rewrite lookup_bottom; eauto).
  cbn [mbind outcome_bind]. rewrite Hg1. cbn [mbind outcome_bind].
  unfold call_method at 1. unfold eval_getter, pcintr_get_stack.
  rewrite Hrc, Hrun. cbn [co_addr co_set_stack co_stack].
  fold g. fold s1. rewrite Hpop.
  cbn [mbind outcome_bind mret outcome_ret]. by destruct co.
Qed.

(** The scan of the event timer while no coroutine is current: whatever
    the expressions evaluate to, it returns with the coroutine and every
    expression variable as they were and posts no message. *)
Lemma event_timer_fire_no_current co evs inst :
  running_coroutine inst = None →
  (∀ e ev, evs !! e = Some ev →
           getter ev PCVCM_EV_PROPERTY_EVAL = Some Method_eval_getter) →
  ∃ inst',
    pcintr_event_timer_fire PCVCM_EV_PROPERTY_EVAL PCVCM_EV_PROPERTY_VCM_EV
      PCVCM_EV_PROPERTY_LAST_VALUE PCVCM_EV_PROPERTY_METHOD_NAME
      PCVCM_EV_PROPERTY_CONST_METHOD_NAME pcvcm_eval purc_variant_compare_ex
      pcintr_get_ops_by_element (Some co) evs inst
    = Done (Some co, evs, inst') ∧
    events inst' = events inst ∧
    running_coroutine inst' = None.
Proof.
  intros Hrun Hg. unfold pcintr_event_timer_fire.
  assert (∀ observers inst0,
            running_coroutine inst0 = None →
            ∃ inst',
              scan_observers PCVCM_EV_PROPERTY_EVAL PCVCM_EV_PROPERTY_VCM_EV
                PCVCM_EV_PROPERTY_LAST_VALUE PCVCM_EV_PROPERTY_METHOD_NAME
                PCVCM_EV_PROPERTY_CONST_METHOD_NAME pcvcm_eval
                purc_variant_compare_ex pcintr_get_ops_by_element
                observers co evs inst0
              = Done (co, evs, inst') ∧
              events inst' = events inst0 ∧
              running_coroutine inst' = None) as Hscan.
  { induction observers as [|p rest IH]; intros inst0 Hrun0.
    - exists inst0. by repeat split.
    - cbn [scan_observers].
      assert (∃ inst1,
                match o_observed p with
                | Some var =>
                    match v_val var with
                    | VNative (NativeVcmEv e) =>
                        match evs !! e with
                        | Some ev =>
                            match getter ev PCVCM_EV_PROPERTY_VCM_EV with
                            | Some _ =>
                                '(co, ev, inst) ←
                                  observe co p var ev inst0;
                                mret (co, <[e := ev]> evs, inst)
                            | None => mret (co, evs, inst0)
                            end
                        | None => mret (co, evs, inst0)
                        end
                    | _ => mret (co, evs, inst0)
                    end
                | None => mret (co, evs, inst0)
                end = Done (co, evs, inst1) ∧
                events inst1 = events inst0 ∧
                running_coroutine inst1 = None)
        as (inst1 & -> & Hev1 & Hrun1).
      { destruct (o_observed p) as [var|]; [|by exists inst0].
        destruct (v_val var) as [| | | | | | | | |[p1|e|p1]];
          try by exists inst0.
        destruct (evs !! e) as [ev|] eqn:Hev; [|by exists inst0].
        destruct (getter ev PCVCM_EV_PROPERTY_VCM_EV); [|by exists inst0].
        destruct (observe_vcm_ev_no_current co p var ev inst0 Hrun0
                    (Hg _ _ Hev)) as (inst1 & -> & Hev1 & Hrun1).
        exists inst1. cbn [mbind outcome_bind mret outcome_ret].
        by rewrite insert_id. }
      cbn [mbind outcome_bind].
      destruct (IH inst1 Hrun1) as (inst' & -> & Hev' & Hrun').
      exists inst'. split; [done|]. split; [congruence|done]. }
  destruct (Hscan (native_variant_observer_list (co_stack co)) inst Hrun)
    as (inst' & -> & Hev & Hrun').
  exists inst'. by repeat split.
Qed.

End ExpressionVariableFacts.

Lemma observe_vcm_ev_change_detection_witness :
  alloc_plan ev_inst = [] ∧
  running_coroutine ev_inst = Some (co_addr demo_co) ∧
  ∃ type inst3,
    pcintr_observe_vcm_ev "eval" "vcm_ev" "last_value" "method_name"
      "const_method_name" demo_eval demo_compare demo_get_ops
      demo_co ev_observer ev_var demo_ev ev_inst
    = Done (demo_co, ev_set_last_value (Some demo_fresh_value) demo_ev, inst3) ∧
    events inst3 = [EvPostMessage ev_var (Some type) None None].
Proof.
  split; [reflexivity|]. split; [reflexivity|].
  destruct (observe_vcm_ev_change_detection "eval" "vcm_ev" "last_value"
              "method_name" "const_method_name" demo_eval demo_compare
              demo_get_ops demo_co ev_observer ev_var demo_ev ev_inst
              eq_refl eq_refl eq_refl eq_refl
              (λ _ _ _ i H, H))
    as (s1 & inst1 & _ & (_ & _ & _ & _ & Hev) & H).
  cbn in H. destruct H as (type & inst3 & H1 & _ & H2).
  exists type, inst3. split; [exact H1|].
  rewrite H2, Hev. reflexivity.
Defined.

(** C3 (the code at the failing input).  The expression variable 5 holds
    the last value 1 and its expression evaluates to 2, which compares
    unequal; coroutine 1 observes it.  The event timer fires as the run
    loop calls it, between the turns of the coroutines, when no coroutine
    is current: the scan returns with the last value still 1 and posts no
    message.  The same scan with the coroutine current stores 2 and posts
    one [change] message. *)
Theorem event_timer_fire_misses_change :
  let fire :=
    pcintr_event_timer_fire "eval" "vcm_ev" "last_value" "method_name"
      "const_method_name" demo_eval demo_compare demo_get_ops in
  v_val <$> ev_last_value demo_ev = Some (VLongint 1) ∧
  (∀ s silently inst,
     demo_eval (ev_vcm demo_ev) s silently inst
     = (Some demo_fresh_value, inst)) ∧
  demo_compare demo_fresh_value (ev_last_value demo_ev) ≠ 0 ∧
  (∃ inst',
     fire (Some scan_co) {[ 5%nat := demo_ev ]} timer_inst
     = Done (Some scan_co, {[ 5%nat := demo_ev ]}, inst') ∧
     events inst' = []) ∧
  (∃ type inst',
     fire (Some scan_co) {[ 5%nat := demo_ev ]} ev_inst
     = Done (Some scan_co,
             {[ 5%nat := ev_set_last_value (Some demo_fresh_value) demo_ev ]},
             inst') ∧
     v_val type = VString MSG_TYPE_CHANGE ∧
     events inst' = [EvPostMessage ev_var (Some type) None None]).
Proof.
  intros fire. split; [reflexivity|]. split; [reflexivity|].
  split; [discriminate|]. split.
  - eexists. split; [vm_compute; reflexivity|reflexivity].
  - eexists _, _. split; [vm_compute; reflexivity|].
    split; last reflexivity. reflexivity.
Qed.

(** ** Requests *)

(** A request that holds one reference and is [PENDING]: each of the three
    operations on it stops at an assertion.  [pcintr_cancel_req] and
    [pcintr_activate_req] drop the reference and then assert that the count
    is not zero; [pcintr_hibernate_active_req] asserts that the request is
    [ACTIVATING]. *)
Lemma last_reference_aborts req r h :
  reqs h !! req = Some r →
  req_state r = REQ_STATE_PENDING →
  req_refc r = 1 →
  pcintr_cancel_req req h = Aborted ∧
  pcintr_activate_req req h = Aborted ∧
  pcintr_hibernate_active_req req h = Aborted.
Proof.
  intros Hr Hst Hrefc.
  unfold pcintr_cancel_req, pcintr_activate_req, pcintr_hibernate_active_req.
  rewrite Hr. simpl. rewrite Hst, Hrefc. simpl.
  repeat split.
  - destruct (h_running_coroutine h) as [co|]; simpl; [|done].
    by destruct (PC_ASSERT (bool_decide (co = req_owner r))).
  - destruct (h_running_coroutine h) as [co|]; simpl; [|done].
    by destruct (PC_ASSERT (bool_decide (co = req_owner r))).
Qed.

(** What a call of [pcintr_post_req] that returns 0 has done. *)
Lemma pcintr_post_req_accepted cos type ctxt ops h inst h' inst' :
  pcintr_post_req cos type ctxt ops h inst = Done (0, h', inst') →
  ∃ co cor c,
    h_running_coroutine h = Some co ∧ cos !! co = Some cor ∧ ctxt = Some c ∧
    let req := next_addr inst in
    let r := Req co type (pcintr_stack_get_bottom_frame (co_stack cor))
               c 1 REQ_STATE_PENDING in
    reqs h' = <[req := r]> (reqs h) ∧
    pending_reqs h' = pending_reqs h ++ [req] ∧
    active_reqs h' = active_reqs h ∧
    cancelled_reqs h' = cancelled_reqs h ∧
    hibernating_reqs h' = hibernating_reqs h ∧
    dying_reqs h' = dying_reqs h ∧
    h_running_coroutine h' = Some co ∧
    h_calls h' = h_calls h ++ [CallReq req c] ∧
    next_addr inst' = S (next_addr inst).
Proof.
  unfold pcintr_post_req.
  destruct ctxt as [c|]; simpl; [|done].
  destruct ops as [[[f|] [] []]|]; simpl; try done.
  destruct (h_running_coroutine h) as [co|] eqn:Hco; simpl; [|done].
  destruct (cos !! co) as [cor|] eqn:Hcor; simpl; [|done].
  match goal with |- (if ?b then _ else _) = _ → _ => destruct b end;
    [intros E; discriminate E|].
  unfold calloc_addr, calloc.
  destruct inst as [err n plan hc rc evts].
  destruct plan as [|[] plan]; simpl.
  - case_decide; intros E; [discriminate E|]. injection E as <- <-.
    exists co, cor, c. repeat split; eauto.
  - case_decide; intros E; [discriminate E|]. injection E as <- <-.
    exists co, cor, c. repeat split; eauto.
  - intros E; discriminate E.
Qed.

(** C4 (the code at the failing input).  The running coroutine 7 posts a
    request of any type; the call returns 0 and the new request, at address
    100, is [PENDING] in the pending queue with the one reference that
    [pcintr_post_req] gives it.  A cancel of this request by its owner does
    not reach [CANCELLED → DYING]: it stops at the assertion on the
    reference count; so does its activation. *)
Theorem cancel_posted_req_aborts :
  ∀ type, ∃ h1 inst1,
    pcintr_post_req req_cos type (Some 33%nat) (Some demo_req_ops)
      heap0 req_inst = Done (0, h1, inst1) ∧
    reqs h1 !! 100%nat
      = Some (Req 7 type (Some 0%nat) 33 1 REQ_STATE_PENDING) ∧
    pending_reqs h1 = [100%nat] ∧
    h_running_coroutine h1 = Some 7%nat ∧
    pcintr_cancel_req 100 h1 = Aborted ∧
    pcintr_activate_req 100 h1 = Aborted.
Proof.
  intros type.
  destruct type; (eexists _, _; split; [vm_compute; reflexivity|]);
    repeat split; reflexivity.
Qed.

(** ** The [$TIMERS] listeners *)

Section TimerFacts.

Variable purc_variant_cast_to_ulongint : option value → bool → option Z.

Local Abbreviation cast := (cast_or_zero purc_variant_cast_to_ulongint).

(** The change listener never reads the new value of [interval]: it
    casts [argv[0]], the key. *)
Lemma timer_listener_interval_ignores_value source w v1 v2 rest1 rest2 :
  timer_listener_handler purc_variant_cast_to_ulongint source
    pcvariant_atom_change
    (Some (VString TIMERS_STR_INTERVAL) :: v1 :: rest1) w
  = timer_listener_handler purc_variant_cast_to_ulongint source
      pcvariant_atom_change
      (Some (VString TIMERS_STR_INTERVAL) :: v2 :: rest2) w.
Proof. reflexivity. Qed.

(** A change of [active] starts the backing timer when the new value is
    ["on"] and stops it otherwise. *)
Lemma timer_listener_active source w t tm new_active rest :
  variant_to_pointer
    (purc_variant_object_get_by_ckey source TIMERS_STR_HANDLE) = Some t →
  tw_timers w !! t = Some tm →
  timer_listener_handler purc_variant_cast_to_ulongint source
    pcvariant_atom_change
    (Some (VString TIMERS_STR_ACTIVE) :: Some (VString new_active) :: rest) w
  = Done (true, source,
          if bool_decide (new_active = TIMERS_STR_ON)
          then pcintr_timer_start (Some t) w
          else pcintr_timer_stop (Some t) w).
Proof.
  intros Hh Ht. unfold timer_listener_handler, get_inner_timer.
  simpl. rewrite Hh. simpl.
  case_bool_decide; reflexivity.
Qed.

(** Grow: an object with a string [id] and no handle yet gets a backing
    timer whose interval is the cast of its [interval] field, started
    when its [active] field is ["on"]. *)
Lemma timers_listener_grow obj w id active :
  alloc_plan (tw_inst w) = [] →
  purc_variant_object_get_by_ckey obj TIMERS_STR_HANDLE = None →
  purc_variant_object_get_by_ckey obj TIMERS_STR_ID = Some (VString id) →
  purc_variant_object_get_by_ckey obj TIMERS_STR_ACTIVE
    = Some (VString active) →
  ∃ obj' w',
    timers_listener_handler purc_variant_cast_to_ulongint
      pcvariant_atom_grow obj w = Done (true, obj', w') ∧
    let t := next_addr (tw_inst w) in
    let ms :=
      cast (purc_variant_object_get_by_ckey obj TIMERS_STR_INTERVAL)
        `mod` 2 ^ 32 in
    purc_variant_object_get_by_ckey obj' TIMERS_STR_HANDLE
      = Some (VNative (NativePointer t)) ∧
    tw_timers w' !! t =
      Some (Timer id ms (Some (S t))
              (if bool_decide (active = TIMERS_STR_ON)
               then Some ms else None)).
Proof.
  intros Hplan Hh Hid Hact.
  destruct w as [tms ls [err n plan hc rc evts]]. simpl in Hplan. subst plan.
  unfold timers_listener_handler, get_inner_timer.
  rewrite decide_True by done. rewrite Hh, Hid, Hact. simpl.
  unfold pcintr_timer_create, tw_alloc, calloc. simpl.
  unfold pointer_to_variant, purc_variant_object_set_by_static_ckey, calloc.
  simpl.
  unfold purc_variant_register_post_listener, tw_alloc, calloc. simpl.
  rewrite lookup_insert_eq. simpl.
  rewrite lookup_insert_eq. simpl.
  assert (∀ fields v, fields_get (fields_set fields TIMERS_STR_HANDLE v)
                        TIMERS_STR_HANDLE = Some v) as Hset.
  { intros fields v.
    induction fields as [|[k x] fields IH]; cbn [fields_get fields_set].
    - by rewrite decide_True.
    - destruct (decide (k = TIMERS_STR_HANDLE)) as [Hk|Hk];
        cbn [fields_get].
      + by rewrite decide_True.
      + by rewrite decide_False. }
  case_bool_decide; simpl.
  - rewrite lookup_insert_eq. simpl.
    eexists _, _. split; [reflexivity|]. simpl.
    split; [apply Hset|]. by rewrite lookup_insert_eq.
  - eexists _, _. split; [reflexivity|]. simpl.
    split; [apply Hset|]. by rewrite lookup_insert_eq.
Qed.

(** Shrink: the backing timer of the object is destroyed and its
    listener revoked. *)
Lemma timers_listener_shrink obj w t :
  variant_to_pointer
    (purc_variant_object_get_by_ckey obj TIMERS_STR_HANDLE) = Some t →
  ∃ obj' w',
    timers_listener_handler purc_variant_cast_to_ulongint
      pcvariant_atom_shrink obj w = Done (true, obj', w') ∧
    tw_timers w' !! t = None ∧
    purc_variant_object_get_by_ckey obj' TIMERS_STR_HANDLE = None.
Proof.
  intros Hh. unfold timers_listener_handler, destroy_inner_timer.
  rewrite decide_False by done. rewrite decide_True by done.
  rewrite Hh. simpl. eexists _, _. split; [reflexivity|]. simpl.
  split; [apply lookup_delete_eq|].
  unfold purc_variant_object_get_by_ckey, fields_remove. simpl.
  induction (tv_fields obj) as [|[k x] fields IH]; [done|].
  rewrite filter_cons. simpl. case_decide as Hk; simpl.
  - by rewrite decide_False.
  - exact IH.
Qed.

End TimerFacts.

(** C5 (the code at the failing input). The object
    [{id:"u", interval:100, active:"on"}] has its timer running at 100 ms.
    Its change listener fires for [interval] with the new value 20: the
    interval of the backing timer becomes 0, the unforced cast of the key
    ["interval"], not 20. *)
Theorem timer_listener_interval_change :
  timer_interval 9 timer_u_world = Some 100 ∧
  (world_after
     (timer_listener_handler demo_cast timer_u pcvariant_atom_change
        [Some (VString "interval"); Some (VUlongint 20);
         Some (VString "interval"); Some (VUlongint 100)] timer_u_world)
   ≫= timer_interval 9) = Some 0.
Proof. split; reflexivity. Qed.

(** ** The [match] element *)

Lemma select_from_spec rest i :
  Forall (λ node, pcvdom_node_is_document node = false) rest →
  match filter (λ node, pcvdom_node_is_element node = true) rest with
  | [] => select_from rest i false = Done (None, None)
  | child :: _ =>
      ∃ skipped rest',
        rest = skipped ++ child :: rest' ∧
        filter (λ node, pcvdom_node_is_element node = true) skipped = [] ∧
        select_from rest i false
        = Done (Some (i + length skipped)%nat, Some child)
  end.
Proof.
  intros Hdoc. revert i.
  induction rest as [|node rest IH]; intros i; [done|].
  apply Forall_cons in Hdoc as [Hnode Hdoc].
  rewrite filter_cons. destruct node; simpl in *; try done.
  - exists [], rest. simpl. by rewrite Nat.add_0_r.
  - specialize (IH Hdoc (S i)).
    destruct (filter _ rest) as [|child els]; [done|].
    destruct IH as (skipped & rest' & -> & Hsk & ->).
    eexists (_ :: skipped), rest'. split; [done|].
    rewrite filter_cons. simpl. split; [done|]. do 3 f_equal. lia.
  - specialize (IH Hdoc (S i)).
    destruct (filter _ rest) as [|child els]; [done|].
    destruct IH as (skipped & rest' & -> & Hsk & ->).
    eexists (_ :: skipped), rest'. split; [done|].
    rewrite filter_cons. simpl. split; [done|]. do 3 f_equal. lia.
Qed.

Lemma match_select_children_from n : ∀ frame ctxt,
  let start := from_option S 0%nat (cm_curr ctxt) in
  let rest := drop start (pcvdom_children (f_pos frame)) in
  cm_matched ctxt = true →
  Forall (λ node, pcvdom_node_is_document node = false) rest →
  (length (filter (λ node, pcvdom_node_is_element node = true) rest)
   < n)%nat →
  match_select_children n frame ctxt false
  = Done (filter (λ node, pcvdom_node_is_element node = true) rest,
          CtxtForMatch None (cm_for_var ctxt) (cm_param ctxt)
                       (cm_is_exclusively ctxt) (cm_matched ctxt)).
Proof.
  induction n as [|n IH]; intros frame ctxt start rest Hm Hdoc Hn; [lia|].
  cbn [match_select_children]. unfold match_select_child. rewrite Hm.
  cbn [negb].
  replace (match cm_curr ctxt with Some c => S c | None => 0%nat end)
    with start by (subst start; by destruct (cm_curr ctxt)).
  fold rest.
  pose proof (select_from_spec rest start Hdoc) as Hsel.
  destruct (filter _ rest) as [|child els] eqn:Hf.
  - rewrite Hsel. reflexivity.
  - destruct Hsel as (skipped & rest' & Hrest & Hsk & ->).
    cbn [mbind outcome_bind mret outcome_ret].
    set (ctxt' := CtxtForMatch _ _ _ _ _).
    assert (drop (from_option S 0%nat (cm_curr ctxt'))
              (pcvdom_children (f_pos frame)) = rest') as Hdrop.
    { simpl. subst rest.
      replace (S (start + length skipped))
        with (start + S (length skipped))%nat by lia.
      rewrite <- drop_drop, Hrest, cons_middle, (assoc_L (++)).
      apply drop_app_length'. rewrite length_app. simpl. lia. }
    assert (filter (λ node, pcvdom_node_is_element node = true) rest' = els)
      as Hels.
    { rewrite Hrest, filter_app, Hsk, filter_cons in Hf. simpl in Hf.
      destruct (decide (pcvdom_node_is_element child = true)).
      - by injection Hf.
      - assert (child ∈ child :: els) as Hin by left.
        rewrite <- Hf in Hin. apply list_elem_of_filter in Hin. tauto. }
    rewrite (IH frame ctxt'); rewrite ?Hdrop, ?Hels.
    + reflexivity.
    + done.
    + rewrite Hrest in Hdoc. apply Forall_app in Hdoc as [_ Hdoc].
      by apply Forall_cons in Hdoc as [_ Hdoc].
    + simpl in Hn. lia.
Qed.

(** The run of [select_child] calls depends on the element, the [matched]
    flag and the cursor only. *)
Lemma match_select_children_cursor n : ∀ frame1 frame2 ctxt1 ctxt2 except_,
  f_pos frame1 = f_pos frame2 →
  cm_matched ctxt1 = cm_matched ctxt2 →
  cm_curr ctxt1 = cm_curr ctxt2 →
  (λ r, (fst r, cm_curr (snd r), cm_matched (snd r)))
    <$> match_select_children n frame1 ctxt1 except_
  = (λ r, (fst r, cm_curr (snd r), cm_matched (snd r)))
      <$> match_select_children n frame2 ctxt2 except_.
Proof.
  induction n as [|n IH]; intros frame1 frame2 ctxt1 ctxt2 except_ Hp Hm Hc.
  - simpl. by rewrite Hm, Hc.
  - cbn [match_select_children]. unfold match_select_child.
    rewrite Hm, Hc, Hp.
    destruct (cm_matched ctxt2) eqn:Hm2; simpl; [|congruence].
    destruct (select_from _ _ _) as [[curr [child|]]|]; simpl;
      [|congruence|done].
    set (c1 := CtxtForMatch curr (cm_for_var ctxt1) _ _ _).
    set (c2 := CtxtForMatch curr (cm_for_var ctxt2) _ _ _).
    specialize (IH frame1 frame2 c1 c2 except_ Hp eq_refl eq_refl).
    destruct (match_select_children n frame1 c1 except_) as [[l1 x1]|];
      destruct (match_select_children n frame2 c2 except_) as [[l2 x2]|];
      simpl in *; try done.
    injection IH as -> -> ->. reflexivity.
Qed.

Section MatchFacts.

Variable match_for_parse : string → option nat.
Variable match_for_rule_eval : nat → purc_variant → option bool.

(** [select_child] looks at the [matched] flag and the cursor of the
    context only. *)
Lemma match_select_child_cursor frame ctxt1 ctxt2 except_ :
  cm_matched ctxt1 = cm_matched ctxt2 →
  cm_curr ctxt1 = cm_curr ctxt2 →
  (λ r, (fst r, cm_curr (snd r))) <$> match_select_child frame ctxt1 except_
  = (λ r, (fst r, cm_curr (snd r))) <$> match_select_child frame ctxt2 except_.
Proof.
  intros Hm Hc. unfold match_select_child. rewrite Hm, Hc.
  destruct (cm_matched ctxt2); simpl; [|by rewrite Hc].
  destruct (select_from _ _ _) as [[curr element]|]; reflexivity.
Qed.

Lemma match_post_process_curr frame ctxt ctxt' :
  match_post_process match_for_parse match_for_rule_eval frame (Some ctxt)
    = Done ctxt' →
  cm_curr ctxt' = cm_curr ctxt.
Proof.
  unfold match_post_process. simpl.
  destruct (attr_vars_get (f_attr_vars frame) "for") as [v|]; simpl.
  - destruct v; simpl; try discriminate.
    destruct (match_for_parse s); simpl; [|discriminate].
    destruct (f_symbol_vars frame _); simpl; [|discriminate].
    destruct (match_for_rule_eval _ _); simpl; [|discriminate].
    by intros [= <-].
  - by intros [= <-].
Qed.

(** C9. A [match] frame whose evaluated attributes hold no [for]:
    [post_process] sets [matched], whatever the result of the parent is,
    and leaves the cursor alone.  The calls of [select_child] that follow
    then walk the children: each call returns the next element child after
    the cursor, skipping text and comments, and the calls together hand
    out the element children after the cursor, each one once and in
    document order, the call after the last one returning [NULL] with the
    cursor at [NULL].  The walk is the one of an element at the same
    position whose [for] did match: the same children in the same order
    and the same cursor at the end. *)
Theorem match_without_for frame ctxt attrs fields :
  f_attr_vars frame = Some attrs →
  v_val attrs = VObject fields →
  fields_get fields "for" = None →
  let start := from_option S 0%nat (cm_curr ctxt) in
  let rest := drop start (pcvdom_children (f_pos frame)) in
  let elements :=
    filter (λ node, pcvdom_node_is_element node = true) rest in
  ∃ ctxt',
    match_post_process match_for_parse match_for_rule_eval frame (Some ctxt)
      = Done ctxt' ∧
    cm_matched ctxt' = true ∧
    cm_curr ctxt' = cm_curr ctxt ∧
    (∀ except_,
       fst <$> match_select_child frame ctxt' except_
       = snd <$> select_from rest start except_) ∧
    (∀ n,
       Forall (λ node, pcvdom_node_is_document node = false) rest →
       (length elements < n)%nat →
       (λ r, (fst r, cm_curr (snd r), cm_matched (snd r)))
         <$> match_select_children n frame ctxt' false
       = Done (elements, None, true)) ∧
    (∀ frame2 ctxt2 n except_,
       f_pos frame2 = f_pos frame →
       match_post_process match_for_parse match_for_rule_eval frame2
         (Some ctxt) = Done ctxt2 →
       cm_matched ctxt2 = true →
       (λ r, (fst r, cm_curr (snd r), cm_matched (snd r)))
         <$> match_select_children n frame ctxt' except_
       = (λ r, (fst r, cm_curr (snd r), cm_matched (snd r)))
           <$> match_select_children n frame2 ctxt2 except_).
Proof.
  intros Hattrs Hobj Hfor start rest elements.
  assert (attr_vars_get (f_attr_vars frame) "for" = None) as Hget
    by (unfold attr_vars_get; by rewrite Hattrs, Hobj).
  unfold match_post_process. rewrite Hget. simpl.
  eexists. split; [reflexivity|]. simpl.
  split; [done|]. split; [done|]. split; [|split].
  - intros except_. unfold match_select_child. simpl.
    subst rest start.
    destruct (cm_curr ctxt); simpl;
      destruct (select_from _ _ _) as [[c e]|]; reflexivity.
  - intros n Hdoc Hn.
    rewrite match_select_children_from; [reflexivity|done..].
  - intros frame2 ctxt2 n except_ Hpos Hpp Hm.
    apply match_post_process_curr in Hpp.
    apply match_select_children_cursor; simpl; congruence.
Qed.

End MatchFacts.

Lemma match_without_for_witness :
  f_attr_vars match_frame_2
    = Some (Variant 1 (VObject [("exclusively", VUndefined)])) ∧
  fields_get [("exclusively", VUndefined)] "for" = None ∧
  ∃ ctxt',
    match_post_process (λ _, Some 0%nat) (λ _ _, Some true) match_frame_2
      (Some ctxt_for_match_calloc) = Done ctxt' ∧
    cm_matched ctxt' = true ∧
    fst <$> match_select_child match_frame_2 ctxt' false
    = Done (Some (PCVDOM_NODE_ELEMENT "init" false [])) ∧
    fst <$> match_select_children 3 match_frame_2 ctxt' false
    = Done [PCVDOM_NODE_ELEMENT "init" false [];
            PCVDOM_NODE_ELEMENT "update" false []] ∧
    ∃ ctxt2,
      match_post_process (λ _, Some 0%nat) (λ _ _, Some true) match_frame_for
        (Some ctxt_for_match_calloc) = Done ctxt2 ∧
      cm_for_var ctxt2 = Some (VString "hello") ∧
      fst <$> match_select_children 3 match_frame_for ctxt2 false
      = fst <$> match_select_children 3 match_frame_2 ctxt' false.
Proof.
  split; [reflexivity|]. split; [reflexivity|].
  destruct (match_without_for (λ _, Some 0%nat) (λ _ _, Some true)
              match_frame_2 ctxt_for_match_calloc
              (Variant 1 (VObject [("exclusively", VUndefined)]))
              [("exclusively", VUndefined)] eq_refl eq_refl eq_refl)
    as (ctxt' & H1 & H2 & _ & H3 & H4 & H5).
  exists ctxt'. split; [exact H1|]. split; [exact H2|].
  split; [rewrite H3; reflexivity|].
  assert (fst <$> match_select_children 3 match_frame_2 ctxt' false
          = Done [PCVDOM_NODE_ELEMENT "init" false [];
                  PCVDOM_NODE_ELEMENT "update" false []]) as Hwalk.
  { assert (Done ([PCVDOM_NODE_ELEMENT "init" false [];
                   PCVDOM_NODE_ELEMENT "update" false []], None, true)
            = (λ r, (fst r, cm_curr (snd r), cm_matched (snd r)))
                <$> match_select_children 3 match_frame_2 ctxt' false) as E.
    { symmetry. apply (H4 3%nat); [repeat constructor|vm_compute; lia]. }
    destruct (match_select_children 3 match_frame_2 ctxt' false)
      as [[l c]|]; simpl in E |- *; [|discriminate E].
    by injection E as <- _ _. }
  split; [exact Hwalk|].
  eexists. split; [reflexivity|]. split; [reflexivity|].
  specialize (H5 match_frame_for _ 3%nat false eq_refl eq_refl eq_refl).
  destruct (match_select_children 3 match_frame_2 ctxt' false) as [[l c]|];
    destruct (match_select_children 3 match_frame_for _ false) as [[l2 c2]|];
    simpl in *; try discriminate H5; [|reflexivity].
  by injection H5 as -> _ _.
Defined.


(** * Properties of the further parts *)

(** ** Pushing, popping and the symbol variables *)

(** X1. [push_stack_frame_normal] always returns: none of the assertions
    on its way can fail.  When it returns [NULL] the stack is exactly as it
    was and the error of the instance is out-of-memory; when it returns a
    frame, that frame is the new bottom frame and the frames below it are
    untouched.  In both cases no callback has run and the heap's coroutine
    list and running coroutine are as before. *)
Theorem push_stack_frame_normal_total (s : pcintr_stack) (inst : pcinst) :
  ∃ r s' inst',
    push_stack_frame_normal s inst = Done (r, s', inst') ∧
    events inst' = events inst ∧
    heap_coroutines inst' = heap_coroutines inst ∧
    running_coroutine inst' = running_coroutine inst ∧
    match r with
    | None => s' = s ∧ errcode inst' = PURC_ERROR_OUT_OF_MEMORY
    | Some frame =>
        frame = nr_frames s ∧
        pcintr_stack_get_bottom_frame s' = Some frame ∧
        take (nr_frames s) (frames s') = frames s ∧
        nr_frames s' = S (nr_frames s)
    end.
Proof.
  unfold push_stack_frame_normal, calloc.
  destruct (alloc_plan inst) as [|[] plan] eqn:Hplan; simpl.
  3: { eexists _, _, _. split; [reflexivity|]. by repeat split. }
  all: set (i1 := Inst _ _ _ _ _ _ : pcinst) || set (i1 := inst).
  all: set (s1 := stack_set_frames _ s).
  all: destruct (init_symvals_with_vals_bottom (frames s)
         (frame_calloc STACK_FRAME_TYPE_NORMAL) s1 i1 eq_refl)
         as (r & s2 & i2 & f & E & Hf & Hc & R & Ev & Hco & Rc & Er).
  all: unfold nr_frames; rewrite E; simpl.
  all: case_decide as Hr; simpl.
  all: try (eexists _, _, _; split; [reflexivity|];
            split; [done|]; split; [done|]; split; [done|];
            split; [done|];
            unfold pcintr_stack_get_bottom_frame, nr_frames;
            rewrite Hf, length_app; simpl;
            split; [case_decide; [lia|f_equal; lia]|];
            split; [by rewrite take_app_length|lia]).
  all: rewrite (pop_stack_frame_bottom (frames s) f s2 i2 Hf)
         by (apply (f_equal f_ctxt) in Hc; exact Hc); simpl.
  all: eexists _, _, _; split; [reflexivity|].
  all: split; [done|]; split; [done|]; split; [done|].
  all: split; [|by apply Er].
  all: apply stack_set_frames_rest; rewrite R; reflexivity.
Qed.

(** X2. A frame that [push_stack_frame_normal] has just pushed is taken off
    again by [pop_stack_frame], which gives back the stack as it was before
    the push and runs no context destructor. *)
Theorem pop_after_push (s : pcintr_stack) inst frame s' inst' :
  push_stack_frame_normal s inst = Done (Some frame, s', inst') →
  pop_stack_frame s' inst' = Done (s, inst').
Proof.
  intros H.
  pose proof (push_stack_frame_normal_shape s inst frame s' inst' H)
    as (f & Hf & _ & _ & _ & _ & _ & _ & _ & Hc).
  rewrite (pop_stack_frame_bottom (frames s) f s' inst' Hf)
    by (apply (f_equal f_ctxt) in Hc; exact Hc).
  do 2 f_equal. apply stack_set_frames_rest.
  revert H. unfold push_stack_frame_normal, calloc.
  destruct (alloc_plan inst) as [|[] plan]; simpl; [| |discriminate].
  all: set (i1 := Inst _ _ _ _ _ _ : pcinst) || set (i1 := inst).
  all: set (s1 := stack_set_frames _ s).
  all: destruct (init_symvals_with_vals_bottom (frames s)
         (frame_calloc STACK_FRAME_TYPE_NORMAL) s1 i1 eq_refl)
         as (r & s2 & i2 & f2 & E & Hf2 & Hc2 & R & _).
  all: unfold nr_frames; rewrite E; simpl.
  all: case_decide as Hr; simpl.
  all: try (intros [= _ <- _]; exact R).
  all: rewrite (pop_stack_frame_bottom (frames s) f2 s2 i2 Hf2)
         by (apply (f_equal f_ctxt) in Hc2; exact Hc2); simpl.
  all: discriminate.
Qed.

Lemma pop_after_push_witness :
  ∃ s' inst',
    push_stack_frame_normal stack0 inst0 = Done (Some 0%nat, s', inst') ∧
    pop_stack_frame s' inst' = Done (stack0, inst').
Proof.
  eexists _, _. split; [reflexivity|].
  apply (pop_after_push stack0 inst0 0%nat). reflexivity.
Defined.

(** X3. Setting a symbol variable of a frame and reading it back: the
    read returns the value written, every other symbol variable of every
    frame reads as before, and no frame is added or removed.  A write of
    the invalid value trips the assertion of the setter. *)
Theorem pcintr_symbol_var_set_get (s : pcintr_stack) frame symbol val :
  is_Some (frames s !! frame) →
  (val = PURC_VARIANT_INVALID →
   pcintr_set_symbol_var s frame symbol val = Aborted) ∧
  (is_Some val →
   ∃ s', pcintr_set_symbol_var s frame symbol val = Done (0, s') ∧
         pcintr_get_symbol_var s' frame symbol = Done val ∧
         (∀ frame' symbol',
            (frame', symbol') ≠ (frame, symbol) →
            pcintr_get_symbol_var s' frame' symbol'
            = pcintr_get_symbol_var s frame' symbol') ∧
         nr_frames s' = nr_frames s).
Proof.
  intros [f Hf]. unfold pcintr_set_symbol_var, pcintr_get_symbol_var.
  rewrite Hf. simpl. split.
  - intros ->. reflexivity.
  - intros [v ->]. simpl. eexists. split; [reflexivity|].
    unfold stack_update_frame, nr_frames. simpl.
    rewrite list_lookup_alter_eq, Hf. simpl.
    split; [by rewrite decide_True|]. split; [|by rewrite length_alter].
    intros frame' symbol' Hne.
    destruct (decide (frame' = frame)) as [->|Hfr].
    + rewrite list_lookup_alter_eq, Hf. simpl.
      rewrite decide_False by congruence. reflexivity.
    + rewrite list_lookup_alter_ne by done. reflexivity.
Qed.

Lemma pcintr_symbol_var_set_get_witness :
  ∃ s', pcintr_set_symbol_var (stack_set_frames [demo_frame] stack0) 0
          PURC_SYMBOL_VAR_QUESTION_MARK (Some observed_value) = Done (0, s') ∧
        pcintr_get_question_var s' 0 = Done (Some observed_value).
Proof.
  destruct (pcintr_symbol_var_set_get (stack_set_frames [demo_frame] stack0)
              0%nat PURC_SYMBOL_VAR_QUESTION_MARK (Some observed_value))
    as [_ H]; [by eexists|].
  destruct H as (s' & H1 & H2 & _); [by eexists|].
  exists s'. split; assumption.
Defined.

(** X4. [pcintr_set_input_var] needs a frame: on a stack without frames it
    trips its assertion.  Otherwise it writes the [<] variable of the
    bottom frame and nothing else: the value handed in when that is valid,
    and a new undefined value when the invalid value is handed in; only when
    that undefined value cannot be allocated is the stack left as it was,
    with the out-of-memory error set. *)
Theorem pcintr_set_input_var_spec (s : pcintr_stack) val inst :
  match frames s with
  | [] => pcintr_set_input_var s val inst = Aborted
  | _ :: _ =>
      ∃ l f s' inst',
        frames s = l ++ [f] ∧
        pcintr_set_input_var s val inst = Done (s', inst') ∧
        stack_rest s' = stack_rest s ∧
        match val with
        | Some v =>
            inst' = inst ∧
            frames s' =
              l ++ [frame_set_symbol_var PURC_SYMBOL_VAR_LESS_THAN (Some v) f]
        | None =>
            (∃ u, v_val u = VUndefined ∧
                  frames s' =
                    l ++ [frame_set_symbol_var PURC_SYMBOL_VAR_LESS_THAN
                            (Some u) f]) ∨
            (s' = s ∧ errcode inst' = PURC_ERROR_OUT_OF_MEMORY)
        end
  end.
Proof.
  destruct (frames s) as [|f0 l0] eqn:Hs.
  - unfold pcintr_set_input_var, pcintr_stack_get_bottom_frame, nr_frames.
    rewrite Hs. reflexivity.
  - destruct (exists_last (l := f0 :: l0)) as (l & f & Hl); [done|].
    rewrite Hl in Hs. exists l, f.
    unfold pcintr_set_input_var, pcintr_stack_get_bottom_frame, nr_frames.
    rewrite Hs, length_app. simpl. case_decide; [lia|].
    replace (pred (length l + 1)) with (length l) by lia.
    unfold set_lessthan_symval. destruct val as [v|].
    + eexists _, _. split; [by rewrite Hl|]. split; [reflexivity|].
      split; [done|]. split; [done|].
      by apply stack_update_frame_bottom.
    + destruct (purc_variant_make_undefined inst) as [[u|] i1] eqn:Eu;
        apply purc_variant_make_cases in Eu as (_ & _ & _ & Eu).
      * eexists _, _. split; [by rewrite Hl|]. split; [reflexivity|].
        split; [done|]. left. exists u. split; [by destruct Eu|].
        by apply stack_update_frame_bottom.
      * eexists _, _. split; [by rewrite Hl|]. split; [reflexivity|].
        split; [done|]. by right.
Qed.

(** ** The scheduler *)

Lemma terminating_co_state co inst co' inst' :
  terminating_co co inst = Done (Some co', inst') →
  co_state co' = CO_STATE_WAIT.
Proof.
  unfold terminating_co.
  destruct (except (co_stack co)); simpl;
    (destruct (negb (co_is_observed _)); simpl; [by intros [= <- _]|]);
    (destruct (PC_ASSERT _); simpl; [|done]);
    repeat case_match; simplify_eq; done.
Qed.

Lemma filter_length_nonzero {A} (P : A → Prop) `{∀ x, Decision (P x)}
    (l : list A) :
  length (filter P l) ≠ 0%nat ↔ Exists P l.
Proof.
  induction l as [|x l IH]; simpl.
  - split; [done|]. intros Hex. by apply Exists_nil in Hex.
  - rewrite filter_cons, Exists_cons. case_decide; simpl.
    + split; [by left|done].
    + rewrite IH. split; [by right|]. by intros [?|?].
Qed.

Lemma filter_length_zero {A} (P : A → Prop) `{∀ x, Decision (P x)}
    (l : list A) :
  length (filter P l) = 0%nat ↔ Forall (λ x, ¬ P x) l.
Proof.
  induction l as [|x l IH]; simpl.
  - split; [constructor|done].
  - rewrite filter_cons, Forall_cons. case_decide; simpl.
    + split; [done|]. by intros [? _].
    + rewrite IH. split; [done|]. by intros [_ ?].
Qed.

Section SchedulerFacts.

Variable ops_table : nat → pcintr_element_ops.
Variable pcintr_get_ops_by_element : pcvdom_element_t → ops_name.
Variable pcintr_rdr_page_control_load : pcintr_stack → pcinst → bool * pcinst.

Local Abbreviation step :=
  (execute_one_step_on_frame ops_table pcintr_get_ops_by_element
     pcintr_rdr_page_control_load).

Local Ltac step_alive :=
  simpl;
  first
    [ destruct (_ && _); simpl;
      [ intros [= <- _]; by right
      | intros ?; right; by eapply terminating_co_state ]
    | intros ?; right; by eapply terminating_co_state ].

Local Ltac step_tail :=
  destruct (bool_decide (frames _ = []));
  [ destruct (stage _);
    [ destruct (pcintr_rdr_page_control_load _ _) as [[|] ?]; step_alive
    | step_alive ]
  | repeat case_match; try done; intros [= <- _]; by left ].

Lemma execute_one_step_state co inst co' inst' :
  step co inst = Done (Some co', inst') →
  co_state co' = CO_STATE_READY ∨ co_state co' = CO_STATE_WAIT.
Proof.
  unfold execute_one_step_on_frame.
  destruct (pcintr_stack_get_bottom_frame (co_stack co)) as [frame|]; [|done].
  destruct (frames (co_stack co) !! frame) as [f|]; simpl; [|done].
  destruct (f_preemptor f); [done|].
  destruct (dispatch_next_step _ _ _ _ _ _) as [[co1 inst1]|]; simpl; [|done].
  destruct (PC_ASSERT (bool_decide (co_state co1 = CO_STATE_RUN)));
    simpl; [|done].
  destruct (purc_error_is_set (errcode inst1)); simpl.
  - destruct (PC_ASSERT (negb _)); simpl; [|done]. step_tail.
  - step_tail.
Qed.

Local Abbreviation run_co_ :=
  (run_co ops_table pcintr_get_ops_by_element pcintr_rdr_page_control_load).

Lemma run_co_state co inst co' inst' :
  run_co_ co inst = Done (Some co', inst') →
  co_state co' = CO_STATE_READY ∨ co_state co' = CO_STATE_WAIT.
Proof.
  unfold run_co, execute_on_frame.
  destruct (pcintr_stack_get_bottom_frame (co_stack co)) as [frame|].
  - destruct (co_state co) eqn:Hst.
    + destruct (step _ _) as [[r i]|] eqn:E; simpl; [|done].
      intros [= -> _]. by eapply execute_one_step_state.
    + destruct (step _ _) as [[r i]|] eqn:E; simpl; [|done].
      intros [= -> _]. by eapply execute_one_step_state.
    + intros [= <- _]. by right.
  - destruct (exited (co_stack co)).
    + intros H. right. by eapply terminating_co_state.
    + case_bool_decide as Hst; simpl; [|done]. intros [= <- _]. by right.
Qed.

(** X5. [run_co] never hands back a coroutine in state [RUN]: a coroutine
    that survives its turn is [READY] or [WAIT].  A coroutine that has
    frames and waits is handed back untouched, without a step being run.
    For one that has frames and does not wait, [run_co] is one call of
    [execute_one_step_on_frame] on the coroutine in state [RUN], made with
    the coroutine as the current one of the heap, after which no coroutine
    is current; [run_co] stops where that step stops.  A coroutine without
    frames that has not exited must be waiting, or the assertion of
    [run_co] fails. *)
Theorem run_co_spec co inst :
  (∀ r inst',
     run_co ops_table pcintr_get_ops_by_element
       pcintr_rdr_page_control_load co inst = Done (r, inst') →
     (∀ co', r = Some co' →
        co_state co' = CO_STATE_READY ∨ co_state co' = CO_STATE_WAIT) ∧
     (frames (co_stack co) ≠ [] → co_state co ≠ CO_STATE_WAIT →
      running_coroutine inst' = None)) ∧
  (frames (co_stack co) ≠ [] → co_state co = CO_STATE_WAIT →
   run_co ops_table pcintr_get_ops_by_element
     pcintr_rdr_page_control_load co inst = Done (Some co, inst)) ∧
  (frames (co_stack co) ≠ [] → co_state co ≠ CO_STATE_WAIT →
   run_co ops_table pcintr_get_ops_by_element
     pcintr_rdr_page_control_load co inst
   = match
       execute_one_step_on_frame ops_table pcintr_get_ops_by_element
         pcintr_rdr_page_control_load (co_set_state CO_STATE_RUN co)
         (coroutine_set_current (Some (co_addr co)) inst)
     with
     | Done (r, inst1) => Done (r, coroutine_set_current None inst1)
     | Aborted => Aborted
     end) ∧
  (frames (co_stack co) = [] → exited (co_stack co) = false →
   co_state co ≠ CO_STATE_WAIT →
   run_co ops_table pcintr_get_ops_by_element
     pcintr_rdr_page_control_load co inst = Aborted).
Proof.
  split; [|split; [|split]].
  3:{ intros Hfr Hst. unfold run_co, execute_on_frame.
      unfold pcintr_stack_get_bottom_frame, nr_frames.
      destruct (frames (co_stack co)) eqn:Hfs; [done|]. simpl.
      destruct co as [a s st w]. simpl in *.
      destruct st; [| |done]; unfold co_set_state; simpl.
      all: by destruct (step _ _) as [[r1 i]|]. }
  - intros r inst' H. split.
    + intros co' ->. by eapply run_co_state.
    + intros Hfr Hst. revert H. unfold run_co, execute_on_frame.
      unfold pcintr_stack_get_bottom_frame, nr_frames.
      destruct (frames (co_stack co)); [done|]. simpl.
      destruct (co_state co); [| |done].
      all: destruct (step _ _) as [[r1 i]|]; simpl; [|done].
      all: by intros [= _ <-].
  - intros Hfr Hst. unfold run_co, execute_on_frame.
    unfold pcintr_stack_get_bottom_frame, nr_frames.
    destruct (frames (co_stack co)); [done|]. simpl. by rewrite Hst.
  - intros Hfr Hex Hst. unfold run_co.
    unfold pcintr_stack_get_bottom_frame, nr_frames.
    rewrite Hfr, Hex. simpl. by rewrite bool_decide_eq_false_2.
Qed.

Local Abbreviation walk :=
  (run_coroutines_walk ops_table pcintr_get_ops_by_element
     pcintr_rdr_page_control_load).

Lemma run_coroutines_walk_counts coroutines :
  ∀ inst readies waits alive inst' readies' waits',
    walk coroutines inst readies waits
    = Done (alive, inst', readies', waits') →
    Forall (λ co, co_state co = CO_STATE_READY ∨ co_state co = CO_STATE_WAIT)
           alive ∧
    readies' =
      (readies
       + length (filter (λ co, co_state co = CO_STATE_READY) alive))%nat ∧
    waits' =
      (waits + length (filter (λ co, co_state co = CO_STATE_WAIT) alive))%nat.
Proof.
  induction coroutines as [|co rest IH];
    intros inst readies waits alive inst' readies' waits'; simpl.
  - intros [= <- _ <- <-]. split; [constructor|]. simpl. lia.
  - destruct (run_co_ co inst) as [[[co1|] i1]|] eqn:E; simpl; [| |done].
    + apply run_co_state in E.
      destruct E as [Hst|Hst]; rewrite Hst; simpl.
      * destruct (walk rest i1 (S readies) waits)
          as [[[[a2 i2] r2] w2]|] eqn:E2; simpl; [|done].
        intros [= <- _ <- <-]. apply IH in E2 as (HF & -> & ->).
        split; [constructor; auto|].
        rewrite !filter_cons, Hst. simpl. lia.
      * destruct (walk rest i1 readies (S waits))
          as [[[[a2 i2] r2] w2]|] eqn:E2; simpl; [|done].
        intros [= <- _ <- <-]. apply IH in E2 as (HF & -> & ->).
        split; [constructor; auto|].
        rewrite !filter_cons, Hst. simpl. lia.
    + apply IH.
Qed.

(** X6. One round of [run_coroutines]: every coroutine that is alive after
    the round is [READY] or [WAIT]; the round asks the run loop for another
    round exactly when one of them is [READY], it stops the run loop
    exactly when none is alive any more, and it asks for nothing when all
    that are alive wait. *)
Theorem run_coroutines_decision coroutines inst alive inst' call :
  run_coroutines ops_table pcintr_get_ops_by_element
    pcintr_rdr_page_control_load coroutines inst = Done (alive, inst', call) →
  Forall (λ co, co_state co = CO_STATE_READY ∨ co_state co = CO_STATE_WAIT)
         alive ∧
  (call = Some RUNLOOP_DISPATCH_RUN_COROUTINES ↔
   Exists (λ co, co_state co = CO_STATE_READY) alive) ∧
  (call = Some RUNLOOP_STOP ↔ alive = []) ∧
  (call = None ↔
   alive ≠ [] ∧ Forall (λ co, co_state co = CO_STATE_WAIT) alive).
Proof.
  unfold run_coroutines.
  destruct (walk coroutines inst 0 0) as [[[[a i] r] w]|] eqn:E; simpl;
    [|done].
  apply run_coroutines_walk_counts in E as (HF & -> & ->). simpl.
  rewrite Forall_forall in HF.
  case_decide as Hr; [|case_decide as Hw]; intros [= <- _ <-].
  - apply filter_length_nonzero in Hr.
    split; [by apply Forall_forall|]. split; [done|]. split.
    + split; [done|]. intros ->. by apply Exists_nil in Hr.
    + split; [done|]. intros [_ Hw]. exfalso.
      apply Exists_exists in Hr as (co & Hin & Hst).
      rewrite Forall_forall in Hw. specialize (Hw co Hin). congruence.
  - apply filter_length_zero in Hr, Hw.
    rewrite Forall_forall in Hr, Hw.
    assert (a = []) as ->.
    { destruct a as [|co l]; [done|]. exfalso.
      destruct (HF co) as [Hst|Hst]; [left| |].
      - by apply (Hr co); [left|].
      - by apply (Hw co); [left|]. }
    split; [by apply Forall_forall|]. split; [|split].
    + split; [done|]. intros Hex. by apply Exists_nil in Hex.
    + done.
    + split; [done|]. by intros [? _].
  - apply filter_length_zero in Hr.
    rewrite Forall_forall in Hr.
    split; [by apply Forall_forall|]. split; [|split].
    + split; [done|]. intros Hex. exfalso.
      apply Exists_exists in Hex as (co & Hin & Hst). by apply (Hr co).
    + split; [done|]. intros ->. done.
    + split; [|done]. intros _. split; [by intros ->|].
      apply Forall_forall. intros co Hin.
      destruct (HF co Hin) as [Hst|Hst]; [|done]. by destruct (Hr co Hin).
Qed.

End SchedulerFacts.

Lemma run_co_spec_witness :
  ∃ co' inst',
    run_co demo_ops_table demo_get_ops demo_page_control_load ready_co
      (coroutine_set_current (Some 9%nat) inst0) = Done (Some co', inst') ∧
    co_state co' = CO_STATE_READY ∧
    running_coroutine inst' = None ∧
    run_co demo_ops_table demo_get_ops demo_page_control_load
      (co_set_state CO_STATE_WAIT ready_co) inst0
    = Done (Some (co_set_state CO_STATE_WAIT ready_co), inst0) ∧
    run_co demo_ops_table demo_get_ops demo_page_control_load ready_co
      (coroutine_set_current (Some 9%nat) inst0)
    = match
        execute_one_step_on_frame demo_ops_table demo_get_ops
          demo_page_control_load (co_set_state CO_STATE_RUN ready_co)
          (coroutine_set_current (Some (co_addr ready_co)) inst0)
      with
      | Done (r, inst1) => Done (r, coroutine_set_current None inst1)
      | Aborted => Aborted
      end ∧
    (λ r : option pcintr_coroutine * pcinst,
       (co_state <$> fst r, running_coroutine (snd r)))
      <$> execute_one_step_on_frame demo_ops_table demo_get_ops
            demo_page_control_load (co_set_state CO_STATE_RUN ready_co)
            (coroutine_set_current (Some (co_addr ready_co)) inst0)
    = Done (Some CO_STATE_READY, Some (co_addr ready_co)).
Proof.
  destruct (run_co_spec demo_ops_table demo_get_ops demo_page_control_load
              ready_co (coroutine_set_current (Some 9%nat) inst0))
    as (H1 & _ & H3 & _).
  destruct (run_co_spec demo_ops_table demo_get_ops demo_page_control_load
              (co_set_state CO_STATE_WAIT ready_co) inst0)
    as (_ & H2 & _).
  eexists _, _. split; [reflexivity|].
  split; [reflexivity|]. split; [|split; [|split]].
  - eapply H1; [reflexivity|discriminate|discriminate].
  - apply H2; [discriminate|reflexivity].
  - rewrite H3 by discriminate. reflexivity.
  - reflexivity.
Defined.

Lemma run_coroutines_decision_witness :
  ∃ co' inst',
    run_coroutines demo_ops_table demo_get_ops demo_page_control_load
      [ready_co; waiting_co] inst0
    = Done ([co'; waiting_co], inst',
            Some RUNLOOP_DISPATCH_RUN_COROUTINES) ∧
    Exists (λ co, co_state co = CO_STATE_READY) [co'; waiting_co].
Proof.
  eexists _, _. split; [reflexivity|].
  eapply (run_coroutines_decision demo_ops_table demo_get_ops
            demo_page_control_load [ready_co; waiting_co] inst0);
    reflexivity.
Defined.


(** ** Posting a message *)

Section MessageFacts.

Variable purc_atom_to_string : nat → option string.


End MessageFacts.


(** ** Native wrappers and templates *)

(** X8. The two kinds of native wrappers of the interpreter are told
    apart by their table of operations.  A vdom element that
    [pcintr_wrap_vdom] has wrapped is given back by
    [pcintr_get_vdom_from_variant] and is refused as a template; a template
    that [pcintr_template_make] has made passes [is_template_variant], is
    refused as a vdom element with the invalid-value error, and is empty.
    Wrapping the null element trips the assertion. *)
Theorem native_wrappers_told_apart :
  (∀ vdom inst val inst',
     pcintr_wrap_vdom (Some vdom) inst = Done (Some val, inst') →
     pcintr_get_vdom_from_variant (Some val) inst' = (Some vdom, inst') ∧
     is_template_variant (Some val) inst'
     = (-1, purc_set_error PURC_ERROR_INVALID_VALUE inst')) ∧
  (∀ tpls inst val tpls' inst',
     pcintr_template_make tpls inst = (Some val, tpls', inst') →
     is_template_variant (Some val) inst' = (0, inst') ∧
     pcintr_get_vdom_from_variant (Some val) inst'
     = (None, purc_set_error PURC_ERROR_INVALID_VALUE inst') ∧
     ∃ t, purc_native_get_entity (Some val) = Some t ∧
          tpls' !! t = Some []) ∧
  (∀ inst, pcintr_wrap_vdom None inst = Aborted).
Proof.
  split; [|split].
  - intros vdom inst val inst'. unfold pcintr_wrap_vdom. simpl.
    unfold purc_variant_make_native.
    destruct (calloc inst) as [[] i1]; intros [= <- <-]; done.
  - intros tpls inst val tpls' inst'.
    unfold pcintr_template_make, template_create, calloc_addr.
    destruct (calloc inst) as [[] i1]; [|done].
    unfold purc_variant_make_native.
    destruct (calloc _) as [[] i2]; intros [= <- <- <-]; simpl.
    split; [done|]. split; [done|]. eexists. split; [done|].
    apply lookup_insert_eq.
  - reflexivity.
Qed.

Lemma native_wrappers_told_apart_witness :
  ∃ val inst',
    pcintr_wrap_vdom (Some 5%nat) inst0 = Done (Some val, inst') ∧
    pcintr_get_vdom_from_variant (Some val) inst' = (Some 5%nat, inst') ∧
    fst (is_template_variant (Some val) inst') = -1.
Proof.
  destruct native_wrappers_told_apart as (H & _ & _).
  destruct (H 5%nat inst0 _ _ eq_refl) as [H1 H2].
  eexists _, _. split; [reflexivity|]. split; [exact H1|].
  by rewrite H2.
Defined.

Lemma Exists_Some_eq (l : list nat) (vcm : nat) :
  Exists (λ p, Some p = Some vcm) l ↔ vcm ∈ l.
Proof.
  rewrite Exists_exists. split.
  - intros (p & Hin & [= ->]). done.
  - intros Hin. by exists vcm.
Qed.

(** X9. [pcintr_template_append] on a template whose trees are pairwise
    distinct keeps them so.  It returns 0 exactly when the tree was not in
    the template yet and the node could be allocated, and then the tree is
    the new last node; a tree that is already in the template is refused
    with the invalid-value error, and in every failing case the template is
    left as it was. *)
Theorem pcintr_template_append_spec t tpl vcm tpls inst r tpls' inst' :
  tpls !! t = Some tpl →
  NoDup tpl →
  pcintr_template_append (Some (NATIVE (Some t) ops_tpl)) (Some vcm) tpls inst
    = Done (r, tpls', inst') →
  ∃ tpl', tpls' = <[t := tpl']> tpls ∧ NoDup tpl' ∧
    ((r = 0 ∧ (vcm ∉ tpl) ∧ tpl' = tpl ++ [vcm] ∧
      errcode inst' = errcode inst) ∨
     (r = -1 ∧ tpl' = tpl ∧ vcm ∈ tpl ∧
      errcode inst' = PURC_ERROR_INVALID_VALUE) ∨
     (r = -1 ∧ tpl' = tpl ∧ (vcm ∉ tpl) ∧
      errcode inst' = PURC_ERROR_OUT_OF_MEMORY)).
Proof.
  intros Ht Hnd. unfold pcintr_template_append. simpl. rewrite Ht. simpl.
  unfold template_append. case_bool_decide as Hin; simpl.
  - apply Exists_Some_eq in Hin. intros [= <- <- <-].
    exists tpl. split; [done|]. split; [done|]. right. left. done.
  - rewrite Exists_Some_eq in Hin. unfold template_node_create, calloc.
    simpl.
    destruct (alloc_plan inst) as [|[] plan]; simpl; intros [= <- <- <-].
    + exists (tpl ++ [vcm]). split; [done|]. split; [|by left].
      apply NoDup_app. split; [done|]. split; [|apply NoDup_singleton].
      intros x Hx Hy. apply list_elem_of_singleton in Hy as ->. done.
    + exists (tpl ++ [vcm]). split; [done|]. split; [|by left].
      apply NoDup_app. split; [done|]. split; [|apply NoDup_singleton].
      intros x Hx Hy. apply list_elem_of_singleton in Hy as ->. done.
    + exists tpl. split; [done|]. split; [done|]. right. right. done.
Qed.

Lemma pcintr_template_append_spec_witness :
  ∃ tpls' inst',
    pcintr_template_append (Some (NATIVE (Some 4%nat) ops_tpl)) (Some 8%nat)
      {[ 4%nat := [7%nat] ]} inst0 = Done (0, tpls', inst') ∧
    tpls' !! 4%nat = Some [7%nat; 8%nat].
Proof.
  assert (({[ 4%nat := [7%nat] ]} : templates) !! 4%nat = Some [7%nat])
    as Hl by reflexivity.
  destruct (pcintr_template_append_spec 4%nat [7%nat] 8%nat
              {[ 4%nat := [7%nat] ]} inst0 0 _ _ Hl
              (NoDup_singleton _) eq_refl)
    as (tpl' & Ht & _ & [(_ & _ & -> & _)|[(H & _)|(H & _)]]);
    [|discriminate..].
  eexists _, _. split; [reflexivity|]. reflexivity.
Defined.

Lemma pcintr_template_append_all_plan_nil t vcms :
  ∀ tpl tpls inst,
    tpls !! t = Some tpl →
    alloc_plan inst = [] →
    NoDup (tpl ++ vcms) →
    ∃ tpls' inst',
      pcintr_template_append_all (Some (NATIVE (Some t) ops_tpl)) vcms
        tpls inst = Done (0, tpls', inst') ∧
      tpls' !! t = Some (tpl ++ vcms) ∧
      alloc_plan inst' = [].
Proof.
  induction vcms as [|vcm rest IH]; intros tpl tpls inst Ht Hplan Hnd.
  - simpl. eexists _, _. split; [done|]. by rewrite app_nil_r.
  - cbn [pcintr_template_append_all].
    unfold pcintr_template_append. simpl. rewrite Ht. simpl.
    unfold template_append.
    apply NoDup_app in Hnd as (Hnd1 & Hdisj & Hnd2).
    rewrite bool_decide_eq_false_2.
    2: { rewrite Exists_Some_eq. intros Hin. apply (Hdisj _ Hin). left. }
    simpl. unfold template_node_create, calloc. simpl. rewrite Hplan. simpl.
    destruct (IH (tpl ++ [vcm]) (<[t := tpl ++ [vcm]]> tpls) inst)
      as (tpls' & inst' & E & Ht' & Hp').
    + apply lookup_insert_eq.
    + done.
    + rewrite <- (assoc_L (++)). simpl. apply NoDup_app.
      split; [done|]. split; [done|done].
    + exists tpls', inst'. split; [exact E|].
      split; [|done]. by rewrite Ht', <- (assoc_L (++)).
Qed.

Lemma template_walk_collect tpl :
  ∀ seen, template_walk tpl seen template_collect = seen ++ tpl.
Proof.
  induction tpl as [|p rest IH]; intros seen; simpl.
  - by rewrite app_nil_r.
  - rewrite IH, <- (assoc_L (++)). done.
Qed.

(** X10. What is appended to a template comes back from a walk, in the
    order of the appends: after [pcintr_template_make], appending pairwise
    distinct trees one after the other succeeds when memory does not run
    out, and [pcintr_template_walk] then shows the callback exactly these
    trees, first to last. *)
Theorem template_walk_in_append_order tpls inst val tpls1 inst1 vcms :
  alloc_plan inst = [] →
  NoDup vcms →
  pcintr_template_make tpls inst = (Some val, tpls1, inst1) →
  ∃ tpls2 inst2,
    pcintr_template_append_all (Some val) vcms tpls1 inst1
      = Done (0, tpls2, inst2) ∧
    pcintr_template_walk (Some val) [] template_collect tpls2 inst2
      = Done (vcms, inst2).
Proof.
  intros Hplan Hnd.
  unfold pcintr_template_make, template_create, calloc_addr, calloc.
  rewrite Hplan. simpl. unfold purc_variant_make_native, calloc. simpl.
  rewrite Hplan. intros [= <- <- <-].
  destruct (pcintr_template_append_all_plan_nil (next_addr inst) vcms []
              (<[next_addr inst := []]> tpls)
              (Inst (errcode inst) (S (next_addr inst)) [] 
                    (heap_coroutines inst) (running_coroutine inst)
                    (events inst)))
    as (tpls2 & inst2 & E & Ht & _); [apply lookup_insert_eq|done|done|].
  exists tpls2, inst2. split; [exact E|].
  unfold pcintr_template_walk. simpl. rewrite Ht. simpl.
  by rewrite template_walk_collect.
Qed.

Lemma template_walk_in_append_order_witness :
  ∃ val tpls1 inst1 tpls2 inst2,
    pcintr_template_make ∅ inst0 = (Some val, tpls1, inst1) ∧
    pcintr_template_append_all (Some val) [3%nat; 1%nat; 2%nat] tpls1 inst1
      = Done (0, tpls2, inst2) ∧
    pcintr_template_walk (Some val) [] template_collect tpls2 inst2
      = Done ([3%nat; 1%nat; 2%nat], inst2).
Proof.
  assert (NoDup [3%nat; 1%nat; 2%nat]) as Hnd
    by (apply (bool_decide_unpack _); reflexivity).
  destruct (template_walk_in_append_order ∅ inst0 _ _ _
              [3%nat; 1%nat; 2%nat] eq_refl Hnd eq_refl)
    as (tpls2 & inst2 & H1 & H2).
  eexists _, _, _, tpls2, inst2. split; [reflexivity|]. split; assumption.
Defined.

(** ** The ids of the requests in flight *)

Lemma remove_async_from_absent ids rest i req :
  (∀ x, x ∈ rest → v_addr x ≠ v_addr req) →
  remove_async_from ids rest i req = ids.
Proof.
  revert i. induction rest as [|x rest IH]; intros i Hno; simpl; [done|].
  rewrite bool_decide_eq_false_2.
  - apply IH. intros y Hy. apply Hno. by right.
  - intros Heq. apply (Hno x); [left|done].
Qed.

Lemma remove_async_from_first l1 :
  ∀ pre x l2 req,
    (∀ y, y ∈ l1 → v_addr y ≠ v_addr req) →
    v_addr x = v_addr req →
    remove_async_from (pre ++ l1 ++ x :: l2) (l1 ++ x :: l2) (length pre) req
    = pre ++ l1 ++ l2.
Proof.
  induction l1 as [|y l1 IH]; intros pre x l2 req Hno Hx; simpl.
  - rewrite bool_decide_eq_true_2 by done.
    unfold purc_variant_array_remove.
    rewrite delete_middle. done.
  - rewrite bool_decide_eq_false_2.
    2: { intros Heq. apply (Hno y); [left|done]. }
    specialize (IH (pre ++ [y]) x l2 req).
    rewrite length_app in IH. simpl in IH.
    replace (length pre + 1)%nat with (S (length pre)) in IH by lia.
    rewrite <- !(assoc_L (++)) in IH. simpl in IH. apply IH; [|done].
    intros z Hz. apply Hno. by right.
Qed.

(** X11. The array of outstanding request ids.  Saving an id appends it (or
    fails for want of memory and leaves the array alone); removing an id
    takes out the first member that is that very value, and only that one;
    removing an id that is not in the array changes nothing and still
    reports success.  So an id that is saved and then removed leaves the
    array as it was.  With a null stack or the invalid value both functions
    return false. *)
Theorem async_request_ids_spec (ids : list purc_variant) (req : purc_variant)
    inst :
  (∀ ok ids1 inst1,
     pcintr_save_async_request_id (Some ids) (Some req) inst
       = (ok, ids1, inst1) →
     if ok then ids1 = Some (ids ++ [req])
     else ids1 = Some ids ∧ errcode inst1 = PURC_ERROR_OUT_OF_MEMORY) ∧
  ((∀ x, x ∈ ids → v_addr x ≠ v_addr req) →
   pcintr_remove_async_request_id (Some ids) (Some req) = (true, Some ids) ∧
   pcintr_remove_async_request_id (Some (ids ++ [req])) (Some req)
   = (true, Some ids)) ∧
  (∀ l1 x l2,
     ids = l1 ++ x :: l2 →
     (∀ y, y ∈ l1 → v_addr y ≠ v_addr req) →
     v_addr x = v_addr req →
     pcintr_remove_async_request_id (Some ids) (Some req)
     = (true, Some (l1 ++ l2))) ∧
  fst (pcintr_remove_async_request_id None (Some req)) = false ∧
  fst (pcintr_remove_async_request_id (Some ids) None) = false ∧
  fst (fst (pcintr_save_async_request_id None (Some req) inst)) = false ∧
  fst (fst (pcintr_save_async_request_id (Some ids) None inst)) = false.
Proof.
  split; [|split; [|split; [|done]]].
  - intros ok ids1 inst1. unfold pcintr_save_async_request_id,
      purc_variant_array_append, calloc.
    destruct (alloc_plan inst) as [|[] plan]; intros [= <- <- <-]; done.
  - intros Hno. unfold pcintr_remove_async_request_id. split.
    + by rewrite remove_async_from_absent.
    + pose proof (remove_async_from_first ids [] req [] req Hno eq_refl)
        as H. simpl in H. rewrite app_nil_r in H. by rewrite H.
  - intros l1 x l2 -> Hno Hx. unfold pcintr_remove_async_request_id.
    pose proof (remove_async_from_first l1 [] x l2 req Hno Hx) as H.
    simpl in H. by rewrite H.
Qed.

Lemma async_request_ids_spec_witness :
  pcintr_save_async_request_id (Some [observed_value]) (Some button_value)
    inst0 = (true, Some [observed_value; button_value], inst0) ∧
  pcintr_remove_async_request_id (Some [observed_value; button_value])
    (Some button_value) = (true, Some [observed_value]) ∧
  pcintr_remove_async_request_id (Some [observed_value; button_value])
    (Some observed_value) = (true, Some [button_value]).
Proof.
  destruct (async_request_ids_spec [observed_value] button_value inst0)
    as (H1 & H2 & _).
  destruct (async_request_ids_spec [observed_value; button_value]
              observed_value inst0) as (_ & _ & H3 & _).
  split; [reflexivity|]. split.
  - apply H2. intros x Hx. apply list_elem_of_singleton in Hx as ->.
    simpl. lia.
  - apply (H3 [] observed_value [button_value]); [reflexivity| |reflexivity].
    intros y Hy. by apply not_elem_of_nil in Hy.
Defined.

(** ** The request queues *)

Lemma all_queues_elem h req :
  req ∈ all_queues h ↔ ∃ q, req ∈ queue_of q h.
Proof.
  unfold all_queues. rewrite !elem_of_app. split.
  - intros [?|[?|[?|[?|?]]]].
    + by exists PENDING_REQS.
    + by exists ACTIVE_REQS.
    + by exists CANCELLED_REQS.
    + by exists HIBERNATING_REQS.
    + by exists DYING_REQS.
  - intros [[] ?]; simpl in *; auto.
Qed.

(** Linking a fresh request at the tail of the pending queue keeps the
    queues well kept. *)
Lemma req_queues_wf_add_pending h req r h' :
  req_queues_wf h →
  req ∉ all_queues h →
  req_state r = REQ_STATE_PENDING →
  reqs h' = <[req := r]> (reqs h) →
  pending_reqs h' = pending_reqs h ++ [req] →
  active_reqs h' = active_reqs h →
  cancelled_reqs h' = cancelled_reqs h →
  hibernating_reqs h' = hibernating_reqs h →
  dying_reqs h' = dying_reqs h →
  req_queues_wf h'.
Proof.
  intros [Hnd Hin] Hfresh Hst Hreqs Hp Ha Hc Hh Hd. split.
  - unfold all_queues. rewrite Hp, Ha, Hc, Hh, Hd.
    rewrite <- (assoc_L (++)).
    apply NoDup_app. destruct (proj1 (NoDup_app _ _) Hnd) as (H1 & H2 & H3).
    split; [done|]. split.
    + intros x Hx [->%list_elem_of_singleton|Hy]%elem_of_app.
      * apply Hfresh. unfold all_queues. apply elem_of_app. by left.
      * by apply (H2 x).
    + apply NoDup_app. split; [apply NoDup_singleton|]. split; [|done].
      intros x ->%list_elem_of_singleton Hx. apply Hfresh.
      unfold all_queues. apply elem_of_app. by right.
  - intros q req' Hmem. rewrite Hreqs.
    destruct (decide (req' = req)) as [->|Hne].
    + rewrite lookup_insert_eq. exists r. split; [done|]. rewrite Hst.
      destruct q; simpl in *; [done|..]; exfalso; apply Hfresh;
        apply all_queues_elem.
      * exists ACTIVE_REQS. simpl. by rewrite <- Ha.
      * exists CANCELLED_REQS. simpl. by rewrite <- Hc.
      * exists HIBERNATING_REQS. simpl. by rewrite <- Hh.
      * exists DYING_REQS. simpl. by rewrite <- Hd.
    + rewrite lookup_insert_ne by done. apply Hin.
      destruct q; simpl in *; try congruence.
      rewrite Hp in Hmem.
      apply elem_of_app in Hmem as [?|Hmem%list_elem_of_singleton]; done.
Qed.

(** X12. [pcintr_post_req] called by a running coroutine with a context and
    the three callbacks set returns 0 or -1.  It returns 0 exactly when the
    type admits the bottom frame (a raw request always, an asynchronous one
    when there is a frame, a synchronous one when the bottom frame is a
    normal frame), the allocation succeeds and [ops->req] returns 0; then
    the new request, with one reference and [PENDING], is the tail of the
    pending queue and the queues are still well kept.  When the type or the
    allocator refuses, the heap is unchanged and the error is set.  When
    [ops->req] refuses, the request is freed while its node is still the
    tail of the pending queue, which is then not well kept any more. *)
Theorem pcintr_post_req_spec cos type c f co cor h inst :
  h_running_coroutine h = Some co →
  cos !! co = Some cor →
  req_queues_wf h →
  (∀ req, req ∈ all_queues h → (req < next_addr inst)%nat) →
  let req := next_addr inst in
  let frame := pcintr_stack_get_bottom_frame (co_stack cor) in
  let admitted :=
    match type with
    | REQ_TYPE_RAW => True
    | REQ_TYPE_SYNC =>
        ∃ i fr, frame = Some i ∧ frames (co_stack cor) !! i = Some fr ∧
                f_type fr = STACK_FRAME_TYPE_NORMAL
    | REQ_TYPE_ASYNC => is_Some frame
    end in
  ∃ code h' inst',
    pcintr_post_req cos type (Some c) (Some (ReqOps (Some f) true true))
      h inst = Done (code, h', inst') ∧
    h_running_coroutine h' = Some co ∧
    if decide (code = 0) then
      admitted ∧ head (alloc_plan inst) ≠ Some false ∧ f req c = 0 ∧
      reqs h' = <[req := Req co type frame c 1 REQ_STATE_PENDING]> (reqs h) ∧
      pending_reqs h' = pending_reqs h ++ [req] ∧
      h_calls h' = h_calls h ++ [CallReq req c] ∧
      req_queues_wf h'
    else
      code = -1 ∧
      ((¬ admitted ∧ h' = h ∧ errcode inst' = PURC_ERROR_INVALID_VALUE) ∨
       (admitted ∧ head (alloc_plan inst) = Some false ∧ h' = h ∧
        errcode inst' = PURC_ERROR_OUT_OF_MEMORY) ∨
       (admitted ∧ head (alloc_plan inst) ≠ Some false ∧ f req c ≠ 0 ∧
        pending_reqs h' = pending_reqs h ++ [req] ∧
        reqs h' !! req = None ∧
        h_calls h' = h_calls h ++ [CallReq req c] ∧
        ¬ req_queues_wf h')).
Proof.
  intros Hco Hcor Hwf Hfresh req frame admitted.
  unfold pcintr_post_req. simpl. rewrite Hco. simpl. rewrite Hcor. simpl.
  fold frame.
  assert (req ∉ all_queues h) as Hnew.
  { intros Hmem. apply Hfresh in Hmem. unfold req in Hmem. lia. }
  match goal with
  | |- ∃ _ _ _, (if ?b then _ else _) = _ ∧ _ =>
      destruct b eqn:Hrefused
  end.
  { eexists _, _, _. split; [reflexivity|]. split; [done|].
    rewrite decide_False by done. split; [done|]. left.
    split; [|done]. subst admitted. intros Hadm.
    destruct type; [done| |].
    - destruct Hadm as (i & fr & Hi & Hfr & Hty).
      rewrite Hi, Hfr in Hrefused. simpl in Hrefused.
      by rewrite Hty in Hrefused.
    - destruct Hadm as [i Hi]. by rewrite Hi in Hrefused. }
  assert admitted as Hadm.
  { subst admitted. destruct type; [done| |].
    - destruct frame as [i|]; [|done].
      destruct (frames (co_stack cor) !! i) as [fr|] eqn:Hfr; [|done].
      simpl in Hrefused. destruct (f_type fr) eqn:Hty; [|done].
      by exists i, fr.
    - destruct frame; [by eexists|done]. }
  unfold calloc_addr, calloc.
  destruct inst as [err n plan hc rc evts]. simpl in *.
  assert (∀ inst1 : pcinst,
    ∃ code h' inst',
      (if decide (f n c ≠ 0)
       then mret (-1, heap_free_req n
                   (heap_set_current (Some co)
                      (heap_call (CallReq n c)
                         (heap_add_pending n
                            (heap_set_req n
                               (Req co type frame c 1 REQ_STATE_PENDING)
                               (heap_set_current None h))))), inst1)
       else mret (0, heap_set_current (Some co)
                      (heap_call (CallReq n c)
                         (heap_add_pending n
                            (heap_set_req n
                               (Req co type frame c 1 REQ_STATE_PENDING)
                               (heap_set_current None h)))), inst1))
      = Done (code, h', inst') ∧
      h_running_coroutine h' = Some co ∧
      if decide (code = 0) then
        f n c = 0 ∧
        reqs h' = <[n := Req co type frame c 1 REQ_STATE_PENDING]> (reqs h) ∧
        pending_reqs h' = pending_reqs h ++ [n] ∧
        h_calls h' = h_calls h ++ [CallReq n c] ∧
        req_queues_wf h'
      else
        code = -1 ∧ f n c ≠ 0 ∧
        pending_reqs h' = pending_reqs h ++ [n] ∧
        reqs h' !! n = None ∧
        h_calls h' = h_calls h ++ [CallReq n c] ∧
        ¬ req_queues_wf h') as Hlinked.
  { intros inst1. case_decide as Hres.
    - eexists _, _, _. split; [reflexivity|]. split; [done|].
      rewrite decide_False by done. split; [done|]. split; [done|].
      split; [done|]. simpl. split; [apply lookup_delete_eq|].
      split; [done|].
      intros [_ Hin]. destruct (Hin PENDING_REQS n) as (r & Hr & _).
      + simpl. apply elem_of_app. right. by apply list_elem_of_singleton.
      + simpl in Hr. by rewrite lookup_delete_eq in Hr.
    - eexists _, _, _. split; [reflexivity|]. split; [done|].
      rewrite decide_True by done.
      split; [destruct (decide (f n c = 0)); [done|by destruct Hres]|].
      split; [done|]. split; [done|]. split; [done|].
      by apply (req_queues_wf_add_pending h n
                  (Req co type frame c 1 REQ_STATE_PENDING)). }
  destruct plan as [|[] plan]; simpl.
  - destruct (Hlinked (Inst err (S n) [] hc rc evts))
      as (code & h' & inst' & -> & Hrun & Hcase).
    exists code, h', inst'. split; [done|]. split; [done|].
    destruct (decide (code = 0)).
    + destruct Hcase as (? & ? & ? & ? & ?). by split_and!.
    + destruct Hcase as (? & ? & ? & ? & ? & ?). split; [done|].
      right; right. by split_and!.
  - destruct (Hlinked (Inst err (S n) plan hc rc evts))
      as (code & h' & inst' & -> & Hrun & Hcase).
    exists code, h', inst'. split; [done|]. split; [done|].
    destruct (decide (code = 0)).
    + destruct Hcase as (? & ? & ? & ? & ?). by split_and!.
    + destruct Hcase as (? & ? & ? & ? & ? & ?). split; [done|].
      right; right. by split_and!.
  - eexists _, _, _. split; [reflexivity|]. split; [done|].
    rewrite decide_False by done. split; [done|]. right; left. by split_and!.
Qed.

Lemma pcintr_post_req_spec_witness :
  ∃ h' inst',
    pcintr_post_req req_cos REQ_TYPE_SYNC (Some 33%nat)
      (Some (ReqOps (Some (λ _ _, 0)) true true)) heap0 req_inst
    = Done (0, h', inst') ∧
    pending_reqs h' = [100%nat] ∧
    req_queues_wf h'.
Proof.
  assert (req_queues_wf heap0) as Hwf.
  { split; [apply NoDup_nil_2|]. intros [] req Hmem; by inversion Hmem. }
  destruct (pcintr_post_req_spec req_cos REQ_TYPE_SYNC 33%nat (λ _ _, 0)
              7%nat req_co heap0 req_inst eq_refl eq_refl Hwf)
    as (code & h' & inst' & Hpost & _ & Hcase).
  { intros req Hmem. by inversion Hmem. }
  assert (code = 0) as ->.
  { vm_compute in Hpost. by injection Hpost as <- _ _. }
  exists h', inst'. split; [exact Hpost|].
  rewrite decide_True in Hcase by done.
  destruct Hcase as (_ & _ & _ & _ & Hp & _ & Hwf').
  split; [exact Hp|exact Hwf'].
Defined.

(** X13. A request that [pcintr_post_req] has accepted is the tail of the
    pending queue, [PENDING], owned by the running coroutine, and holds one
    reference; cancelling it, activating it and hibernating it each stop at
    an assertion. *)
Theorem posted_req_operations_abort cos type ctxt ops h inst h' inst' :
  pcintr_post_req cos type ctxt ops h inst = Done (0, h', inst') →
  ∃ req r,
    last (pending_reqs h') = Some req ∧
    reqs h' !! req = Some r ∧
    req_state r = REQ_STATE_PENDING ∧
    req_refc r = 1 ∧
    h_running_coroutine h' = Some (req_owner r) ∧
    pcintr_cancel_req req h' = Aborted ∧
    pcintr_activate_req req h' = Aborted ∧
    pcintr_hibernate_active_req req h' = Aborted.
Proof.
  intros Hpost.
  destruct (pcintr_post_req_accepted _ _ _ _ _ _ _ _ Hpost)
    as (co & cor & c & Hco & Hcor & -> & Hreqs & Hp & _ & _ & _ & _ & Hrun & _).
  eexists (next_addr inst), _.
  split; [by rewrite Hp, last_snoc|].
  split; [by rewrite Hreqs, lookup_insert_eq|].
  split; [done|]. split; [done|]. split; [done|].
  eapply last_reference_aborts; [by rewrite Hreqs, lookup_insert_eq|done..].
Qed.

Lemma posted_req_operations_abort_witness :
  ∃ req,
    pcintr_post_req req_cos REQ_TYPE_ASYNC (Some 33%nat) (Some demo_req_ops)
      heap0 req_inst
    = Done (0, heap_set_req req
                 (Req 7 REQ_TYPE_ASYNC (Some 0%nat) 33 1 REQ_STATE_PENDING)
                 (heap_call (CallReq req 33) (heap_add_pending req heap0)),
            Inst PURC_ERROR_OK 101 [] [7%nat] None []) ∧
    pcintr_cancel_req req
      (heap_set_req req
         (Req 7 REQ_TYPE_ASYNC (Some 0%nat) 33 1 REQ_STATE_PENDING)
         (heap_call (CallReq req 33) (heap_add_pending req heap0)))
    = Aborted.
Proof.
  assert (pcintr_post_req req_cos REQ_TYPE_ASYNC (Some 33%nat)
            (Some demo_req_ops) heap0 req_inst
          = Done (0, heap_set_req 100
                       (Req 7 REQ_TYPE_ASYNC (Some 0%nat) 33 1
                            REQ_STATE_PENDING)
                       (heap_call (CallReq 100 33)
                          (heap_add_pending 100 heap0)),
                  Inst PURC_ERROR_OK 101 [] [7%nat] None [])) as Hpost
    by reflexivity.
  destruct (posted_req_operations_abort _ _ _ _ _ _ _ _ Hpost)
    as (req & r & Hlast & _ & _ & _ & _ & Hcancel & _).
  injection Hlast as <-.
  exists 100%nat. split; [exact Hpost|exact Hcancel].
Defined.

(** ** The timer behind an object of [$TIMERS] *)

Lemma fields_get_set_eq fields k v :
  fields_get (fields_set fields k v) k = Some v.
Proof.
  induction fields as [|[k' x] fields IH]; cbn [fields_get fields_set].
  - by rewrite decide_True.
  - case_decide as Hk; cbn [fields_get]; [by rewrite decide_True|].
    by rewrite decide_False.
Qed.

Lemma fields_get_set_ne fields k v k' :
  k' ≠ k → fields_get (fields_set fields k v) k' = fields_get fields k'.
Proof.
  intros Hne.
  induction fields as [|[k0 x] fields IH]; cbn [fields_get fields_set].
  - by rewrite decide_False.
  - case_decide as Hk; cbn [fields_get].
    + subst k0. by rewrite !decide_False by done.
    + by rewrite IH.
Qed.

Lemma fields_get_remove_eq fields k :
  fields_get (fields_remove fields k) k = None.
Proof.
  unfold fields_remove.
  induction fields as [|[k0 x] fields IH]; [done|].
  rewrite filter_cons. simpl. case_decide as Hk; [|done].
  cbn [fields_get]. by rewrite decide_False.
Qed.

Lemma fields_get_remove_ne fields k k' :
  k' ≠ k → fields_get (fields_remove fields k) k' = fields_get fields k'.
Proof.
  intros Hne. unfold fields_remove.
  induction fields as [|[k0 x] fields IH]; [done|].
  rewrite filter_cons. simpl. case_decide as Hk; cbn [fields_get].
  - by rewrite IH.
  - subst k0. by rewrite decide_False.
Qed.

Lemma tw_alloc_spec w :
  (tw_alloc w).1 = None ∧
    tw_timers (tw_alloc w).2 = tw_timers w ∧
    tw_listeners (tw_alloc w).2 = tw_listeners w ∧
    next_addr (tw_inst (tw_alloc w).2) = next_addr (tw_inst w)
  ∨ (tw_alloc w).1 = Some (next_addr (tw_inst w)) ∧
    tw_timers (tw_alloc w).2 = tw_timers w ∧
    tw_listeners (tw_alloc w).2 = tw_listeners w ∧
    next_addr (tw_inst (tw_alloc w).2) = S (next_addr (tw_inst w)).
Proof.
  unfold tw_alloc, calloc.
  destruct (alloc_plan (tw_inst w)) as [|[] plan]; simpl; auto.
Qed.

Lemma filter_fresh_listener (ls : list (nat * nat)) l n :
  (∀ lo, lo ∈ ls → (fst lo < n)%nat) → (n ≤ l)%nat →
  filter (λ lo, Some (fst lo) ≠ Some l) ls = ls.
Proof.
  intros Hls Hl. induction ls as [|lo ls IH]; [done|].
  rewrite filter_cons.
  assert (fst lo < n)%nat as Hlo by (apply Hls; left).
  rewrite decide_True by (intros [= ?]; lia).
  f_equal. apply IH. intros lo' Hin. apply Hls. by right.
Qed.

Lemma timer_world_wf_fresh w :
  timer_world_wf w → tw_timers w !! next_addr (tw_inst w) = None.
Proof.
  intros [Hts _].
  destruct (tw_timers w !! next_addr (tw_inst w)) eqn:E; [|done].
  assert (next_addr (tw_inst w) < next_addr (tw_inst w))%nat; [|lia].
  apply Hts. by rewrite E.
Qed.

(** The paths of [get_inner_timer] on an object without a handle, by the
    results of the allocations that it makes: the timer, the native value,
    the field of the object, the listener. *)
Local Ltac get_inner_timer_paths tv w Hh :=
  unfold get_inner_timer; rewrite Hh;
  destruct (purc_variant_object_get_by_ckey tv TIMERS_STR_ID)
    as [[| | | | |id| | | |]|] eqn:Hid; try done;
  destruct w as [tms ls [err n plan hc rc evts]];
  unfold pcintr_timer_create, pointer_to_variant,
    purc_variant_object_set_by_static_ckey,
    purc_variant_register_post_listener, tw_alloc, calloc, tw_set_error,
    pcintr_timer_set_attach, pcintr_timer_destroy, tw_set_timer;
  cbn [mbind outcome_bind mret outcome_ret tw_inst tw_timers tw_listeners
       alloc_plan next_addr errcode heap_coroutines running_coroutine events
       purc_set_error];
  destruct plan as [|[] [|[] [|[] [|[] plan]]]];
  cbn [mbind outcome_bind mret outcome_ret tw_inst tw_timers tw_listeners
       alloc_plan next_addr errcode heap_coroutines running_coroutine events
       purc_set_error negb];
  rewrite ?lookup_insert_eq; unfold tw_set_timer;
  cbn [mbind outcome_bind mret outcome_ret tw_inst tw_timers tw_listeners
       alloc_plan next_addr errcode heap_coroutines running_coroutine events
       purc_set_error negb m_id m_interval m_attach m_repeating].

(** What a call that makes a timer leaves: the timer, not started, named
    by the [id] of the object, with the new listener attached; and the
    handle in the object, unless it could not be stored. *)
Lemma get_inner_timer_made tv w t tv' w' :
  variant_to_pointer
    (purc_variant_object_get_by_ckey tv TIMERS_STR_HANDLE) = None →
  get_inner_timer tv w = Done (Some t, tv', w') →
  t = next_addr (tw_inst w) ∧
  (∃ id, purc_variant_object_get_by_ckey tv TIMERS_STR_ID
           = Some (VString id) ∧
         tw_timers w' = <[t := Timer id 0 (Some (S t)) None]> (tw_timers w)) ∧
  tw_listeners w' = tw_listeners w ++ [(S t, tv_addr tv)] ∧
  next_addr (tw_inst w') = S (S t) ∧
  (tv' = TimerObject (tv_addr tv)
           (fields_set (tv_fields tv) TIMERS_STR_HANDLE
              (VNative (NativePointer t)))
   ∨ tv' = tv ∧ errcode (tw_inst w') ≠ PURC_ERROR_OK) ∧
  (alloc_plan (tw_inst w) = [] →
   tv' = TimerObject (tv_addr tv)
           (fields_set (tv_fields tv) TIMERS_STR_HANDLE
              (VNative (NativePointer t))) ∧
   alloc_plan (tw_inst w') = []).
Proof.
  intros Hh. get_inner_timer_paths tv w Hh.
  all: try (intros H; discriminate H).
  all: intros [= <- <- <-].
  all: cbn [tw_inst tw_timers tw_listeners alloc_plan next_addr errcode
            tv_addr].
  all: rewrite insert_insert_eq.
  all: split; [done|]; split; [by eexists|]; split; [done|]; split; [done|].
  all: split; [auto|].
  all: try (intros H; discriminate H).
  all: try (right; split; done).
  all: done.
Qed.

(** With memory at hand a call on an object that has a string [id] and no
    handle makes a timer. *)
Lemma get_inner_timer_succeeds tv w name :
  alloc_plan (tw_inst w) = [] →
  variant_to_pointer
    (purc_variant_object_get_by_ckey tv TIMERS_STR_HANDLE) = None →
  purc_variant_object_get_by_ckey tv TIMERS_STR_ID = Some (VString name) →
  ∃ tv' w', get_inner_timer tv w
            = Done (Some (next_addr (tw_inst w)), tv', w').
Proof.
  intros Hplan Hh Hname. get_inner_timer_paths tv w Hh.
  all: try congruence.
  all: simpl in Hplan; try discriminate Hplan.
  by eexists _, _.
Qed.

(** X14. [get_inner_timer] finds the timer of an object through the
    [__handle] field of the object, and the store of that field is not
    checked.  When a call has returned a timer and the object holds its
    handle, every later call on the object, in whatever state the timers
    are by then, returns that same timer and changes neither the object
    nor the timers.  When the handle could not be stored, the timer is
    returned all the same: the object is unchanged, an error is set, and
    the next call (with memory at hand) makes a second timer while the
    first one is still there. *)
Theorem get_inner_timer_reuses_handle tv w t tv' w' :
  get_inner_timer tv w = Done (Some t, tv', w') →
  if decide (variant_to_pointer
               (purc_variant_object_get_by_ckey tv' TIMERS_STR_HANDLE)
             = Some t)
  then ∀ w'', get_inner_timer tv' w'' = Done (Some t, tv', w'')
  else
    tv' = tv ∧ errcode (tw_inst w') ≠ PURC_ERROR_OK ∧
    is_Some (tw_timers w' !! t) ∧
    (alloc_plan (tw_inst w') = [] →
     ∃ t2 tv2 w2,
       get_inner_timer tv' w' = Done (Some t2, tv2, w2) ∧
       t2 ≠ t ∧
       is_Some (tw_timers w2 !! t) ∧ is_Some (tw_timers w2 !! t2)).
Proof.
  intros H.
  destruct (variant_to_pointer
              (purc_variant_object_get_by_ckey tv TIMERS_STR_HANDLE))
    as [timer|] eqn:Hh.
  - (* the object came with its handle *)
    revert H. unfold get_inner_timer at 1. rewrite Hh.
    intros [= <- <- <-]. rewrite decide_True by done.
    intros w''. unfold get_inner_timer. by rewrite Hh.
  - destruct (get_inner_timer_made _ _ _ _ _ Hh H)
      as (Ht & (id & Hid & Htm) & Hls & Hn & [Htv|[Htv Herr]] & _).
    + (* the handle was stored *)
      assert (variant_to_pointer
                (purc_variant_object_get_by_ckey tv' TIMERS_STR_HANDLE)
              = Some t) as Hh'.
      { rewrite Htv. unfold purc_variant_object_get_by_ckey. simpl.
        by rewrite fields_get_set_eq. }
      rewrite decide_True by done.
      intros w''. unfold get_inner_timer. by rewrite Hh'.
    + (* the handle was not stored *)
      subst tv'. rewrite Hh. rewrite decide_False by done.
      split; [done|]. split; [done|].
      split; [rewrite Htm, lookup_insert_eq; eauto|].
      intros Hplan.
      destruct (get_inner_timer_succeeds tv w' id Hplan Hh Hid)
        as (tv2 & w2 & H2).
      destruct (get_inner_timer_made _ _ _ _ _ Hh H2)
        as (_ & (id2 & _ & Htm2) & _).
      exists (next_addr (tw_inst w')), tv2, w2.
      split; [done|]. split; [lia|].
      rewrite Htm2, Htm. split.
      * rewrite lookup_insert_ne by lia. rewrite lookup_insert_eq. eauto.
      * rewrite lookup_insert_eq. eauto.
Qed.

Lemma get_inner_timer_reuses_handle_witness :
  (∃ tv' w',
     get_inner_timer timer_v timer_u_world = Done (Some 11%nat, tv', w') ∧
     get_inner_timer tv' timer_u_world
     = Done (Some 11%nat, tv', timer_u_world)) ∧
  (∃ w' tv2 w2,
     get_inner_timer timer_v
       (TimerWorld (tw_timers timer_u_world) (tw_listeners timer_u_world)
          (Inst PURC_ERROR_OK 11 [true; true; false] [] None []))
     = Done (Some 11%nat, timer_v, w') ∧
     get_inner_timer timer_v w' = Done (Some 13%nat, tv2, w2) ∧
     is_Some (tw_timers w2 !! 11%nat) ∧ is_Some (tw_timers w2 !! 13%nat)).
Proof.
  split.
  - eassert (get_inner_timer timer_v timer_u_world
             = Done (Some 11%nat, _, _)) as E by (vm_compute; reflexivity).
    pose proof (get_inner_timer_reuses_handle _ _ _ _ _ E) as H.
    rewrite decide_True in H by reflexivity.
    eexists _, _. split; [exact E|]. apply H.
  - eassert (get_inner_timer timer_v
               (TimerWorld (tw_timers timer_u_world)
                  (tw_listeners timer_u_world)
                  (Inst PURC_ERROR_OK 11 [true; true; false] [] None []))
             = Done (Some 11%nat, timer_v, _)) as E
      by (vm_compute; reflexivity).
    pose proof (get_inner_timer_reuses_handle _ _ _ _ _ E) as H.
    rewrite decide_False in H by discriminate.
    destruct H as (_ & _ & _ & H).
    destruct (H eq_refl) as (t2 & tv2 & w2 & H2 & _ & H3 & H4).
    assert (t2 = 13%nat) as ->.
    { vm_compute in H2. by injection H2 as <- _ _. }
    eexists _, tv2, w2. split; [exact E|]. split; [exact H2|].
    split; [exact H3|exact H4].
Defined.

(** X15. A call of [get_inner_timer] that returns no timer leaves nothing
    behind: the timers and the registered listeners are as before the call
    (a timer made before the listener could not be registered has been
    destroyed again), the object holds no timer handle, and its other
    fields are as they were. *)
Theorem get_inner_timer_failure_clean tv w tv' w' :
  timer_world_wf w →
  get_inner_timer tv w = Done (None, tv', w') →
  tw_timers w' = tw_timers w ∧
  tw_listeners w' = tw_listeners w ∧
  tv_addr tv' = tv_addr tv ∧
  variant_to_pointer
    (purc_variant_object_get_by_ckey tv' TIMERS_STR_HANDLE) = None ∧
  ∀ key, key ≠ TIMERS_STR_HANDLE →
         purc_variant_object_get_by_ckey tv' key
         = purc_variant_object_get_by_ckey tv key.
Proof.
  intros Hwf. pose proof (timer_world_wf_fresh w Hwf) as Hfresh.
  destruct (variant_to_pointer
              (purc_variant_object_get_by_ckey tv TIMERS_STR_HANDLE))
    as [timer|] eqn:Hh.
  { unfold get_inner_timer. by rewrite Hh. }
  destruct (purc_variant_object_get_by_ckey tv TIMERS_STR_ID) as [id0|]
    eqn:Hid0.
  2: { unfold get_inner_timer. rewrite Hh, Hid0.
       intros [= <- <-]. by repeat split. }
  revert Hfresh. clear Hwf. get_inner_timer_paths tv w Hh.
  all: intros Hfresh.
  all: try (intros H; discriminate H).
  all: intros [= <- <-].
  all: cbn [tw_inst tw_timers tw_listeners alloc_plan next_addr errcode
            tv_addr tv_fields].
  all: rewrite ?delete_insert_eq, ?(delete_id _ _ Hfresh).
  all: split; [done|]; split; [done|]; split; [done|].
  all: unfold purc_variant_object_get_by_ckey; cbn [tv_fields].
  all: try (split; [done|done]).
  all: split; [by rewrite fields_get_remove_eq|].
  all: intros key Hkey;
    rewrite fields_get_remove_ne, ?fields_get_set_ne by done; done.
Qed.

Lemma timer_u_world_wf plan :
  timer_world_wf
    (TimerWorld (tw_timers timer_u_world) (tw_listeners timer_u_world)
       (Inst PURC_ERROR_OK 11 plan [] None [])).
Proof.
  split.
  - intros t [tm Ht]. cbn [tw_timers timer_u_world] in Ht.
    apply lookup_singleton_Some in Ht as [<- _]. simpl. lia.
  - intros lo Hlo. cbn [tw_listeners timer_u_world] in Hlo.
    apply list_elem_of_singleton in Hlo as ->. simpl. lia.
Qed.

Lemma get_inner_timer_failure_clean_witness :
  let w := TimerWorld (tw_timers timer_u_world) (tw_listeners timer_u_world)
             (Inst PURC_ERROR_OK 11 [true; true; true; false] [] None []) in
  timer_world_wf w ∧
  ∃ tv' w',
    get_inner_timer timer_v w = Done (None, tv', w') ∧
    tw_timers w' = tw_timers w ∧ tw_listeners w' = tw_listeners w ∧
    purc_variant_object_get_by_ckey tv' TIMERS_STR_HANDLE = None.
Proof.
  intros w.
  pose proof (timer_u_world_wf [true; true; true; false]) as Hwf.
  fold w in Hwf.
  split; [exact Hwf|].
  eassert (get_inner_timer timer_v w = Done (None, _, _)) as E
    by (vm_compute; reflexivity).
  destruct (get_inner_timer_failure_clean timer_v w _ _ Hwf E)
    as (H1 & H2 & _).
  eexists _, _. split; [exact E|]. split; [exact H1|]. split; [exact H2|].
  reflexivity.
Defined.

(** X16. Creating the timer of an object and destroying it again.  A call
    of [get_inner_timer] that makes a timer leaves it not started, named
    by the [id] of the object, with a new change listener on the object
    attached to it.  When the object holds the handle of the timer,
    [destroy_inner_timer] takes the timer and that listener away again:
    the timers and the listeners are what they were before, and the object
    has lost its handle and kept its other fields.  When the handle could
    not be stored, [destroy_inner_timer] finds nothing to destroy: the
    timer and its listener stay behind. *)
Theorem destroy_after_get_inner_timer tv w t tv' w' :
  timer_world_wf w →
  variant_to_pointer
    (purc_variant_object_get_by_ckey tv TIMERS_STR_HANDLE) = None →
  get_inner_timer tv w = Done (Some t, tv', w') →
  (∃ tm, tw_timers w' !! t = Some tm ∧
         purc_variant_object_get_by_ckey tv TIMERS_STR_ID
           = Some (VString (m_id tm)) ∧
         m_attach tm = Some (S t) ∧ m_repeating tm = None) ∧
  (S t, tv_addr tv) ∈ tw_listeners w' ∧
  if decide (variant_to_pointer
               (purc_variant_object_get_by_ckey tv' TIMERS_STR_HANDLE)
             = Some t)
  then
    tw_timers (destroy_inner_timer tv' w').2 = tw_timers w ∧
    tw_listeners (destroy_inner_timer tv' w').2 = tw_listeners w ∧
    purc_variant_object_get_by_ckey (destroy_inner_timer tv' w').1
      TIMERS_STR_HANDLE = None ∧
    ∀ key, key ≠ TIMERS_STR_HANDLE →
           purc_variant_object_get_by_ckey (destroy_inner_timer tv' w').1 key
           = purc_variant_object_get_by_ckey tv key
  else
    tv' = tv ∧ destroy_inner_timer tv' w' = (tv', w').
Proof.
  intros Hwf Hh H. pose proof (timer_world_wf_fresh w Hwf) as Hfresh.
  destruct Hwf as [_ Hls].
  destruct (get_inner_timer_made _ _ _ _ _ Hh H)
    as (-> & (id & Hid & Htm) & Hl & Hn & Htv & _).
  split; [eexists; rewrite Htm, lookup_insert_eq; by repeat split|].
  split; [rewrite Hl; apply elem_of_app; right; by left|].
  destruct Htv as [Htv|[Htv Herr]].
  - assert (variant_to_pointer
              (purc_variant_object_get_by_ckey tv' TIMERS_STR_HANDLE)
            = Some (next_addr (tw_inst w))) as Hh'.
    { rewrite Htv. unfold purc_variant_object_get_by_ckey. simpl.
      by rewrite fields_get_set_eq. }
    rewrite decide_True by done.
    unfold destroy_inner_timer. rewrite Hh'.
    unfold pcintr_timer_get_attach, purc_variant_revoke_listener,
      pcintr_timer_destroy.
    rewrite Htm, lookup_insert_eq.
    cbn [fst snd tw_timers tw_listeners m_attach].
    split; [|split; [|split]].
    + rewrite delete_insert_eq. by apply delete_id.
    + rewrite Hl, filter_app, filter_cons, filter_nil.
      cbn [fst].
      rewrite decide_False by (intros Hne; by apply Hne).
      rewrite app_nil_r.
      apply (filter_fresh_listener _ _ (next_addr (tw_inst w))); [done|lia].
    + unfold purc_variant_object_get_by_ckey. cbn [tv_fields].
      apply fields_get_remove_eq.
    + intros key Hkey. unfold purc_variant_object_get_by_ckey.
      cbn [tv_fields]. rewrite fields_get_remove_ne by done.
      rewrite Htv. cbn [tv_fields]. by rewrite fields_get_set_ne.
  - subst tv'. rewrite Hh. rewrite decide_False by done.
    split; [done|]. unfold destroy_inner_timer. by rewrite Hh.
Qed.

Lemma destroy_after_get_inner_timer_witness :
  timer_world_wf timer_u_world ∧
  ∃ tv' w',
    get_inner_timer timer_v timer_u_world = Done (Some 11%nat, tv', w') ∧
    (12%nat, 81%nat) ∈ tw_listeners w' ∧
    tw_timers (destroy_inner_timer tv' w').2 = tw_timers timer_u_world ∧
    tw_listeners (destroy_inner_timer tv' w').2 = tw_listeners timer_u_world.
Proof.
  pose proof (timer_u_world_wf []) as Hwf.
  split; [exact Hwf|].
  eassert (get_inner_timer timer_v timer_u_world = Done (Some 11%nat, _, _))
    as E by (vm_compute; reflexivity).
  destruct (destroy_after_get_inner_timer timer_v timer_u_world _ _ _
              Hwf eq_refl E) as (_ & H1 & H).
  rewrite decide_True in H by reflexivity.
  destruct H as (H2 & H3 & _).
  eexists _, _. split; [exact E|]. split; [exact H1|].
  split; [exact H2|exact H3].
Defined.
(** ** Expression variables: the cached value and the construction *)

Lemma string_app_inv_empty (s t : string) :
  String.append s t = s → t = EmptyString.
Proof.
  induction s as [|c s IH]; simpl; [done|]. intros [= H]. by apply IH.
Qed.

Section ExpressionVariableMakeFacts.

Variable PCVCM_EV_PROPERTY_VCM_EV : string.
Variable PCVCM_EV_PROPERTY_LAST_VALUE : string.
Variable PCVCM_EV_PROPERTY_METHOD_NAME : string.
Variable PCVCM_EV_PROPERTY_CONST_METHOD_NAME : string.
Variable PCVCM_EV_DEFAULT_METHOD_NAME : string.
Variable PCVCM_EV_CONST_SUFFIX : string.
Variable pcvcm_eval :
  nat → pcintr_stack → bool → pcinst → purc_variant_t * pcinst.

(** X17. [eval_const_getter] evaluates until it has a value and never
    after: a call that returns a value has stored it, and every later call,
    for whatever coroutine and flags, returns that value without
    evaluating and without touching the instance.  A call that finds a
    stored value does the same.  A failed evaluation is not stored: the
    next call evaluates again. *)
Theorem eval_const_getter_caches co ev silently inst r ev' inst' :
  eval_const_getter pcvcm_eval co ev silently inst = (r, ev', inst') →
  ev' = ev_set_const_value r ev ∧
  (∀ v, ev_const_value ev = Some v → r = Some v ∧ inst' = inst) ∧
  (∀ v, r = Some v →
        ∀ co2 silently2 inst2,
          eval_const_getter pcvcm_eval co2 ev' silently2 inst2
          = (Some v, ev', inst2)) ∧
  (r = None →
   ev' = ev ∧
   ∀ co2 silently2 inst2,
     eval_const_getter pcvcm_eval co2 ev' silently2 inst2
     = let '(v, inst3) := eval_getter pcvcm_eval co2 ev silently2 inst2 in
       (v, ev_set_const_value v ev, inst3)).
Proof.
  unfold eval_const_getter at 1.
  destruct (ev_const_value ev) as [v0|] eqn:Hc.
  - intros [= <- <- <-]. split; [by destruct ev; simpl in *; subst|].
    split; [by intros v [= <-]|]. split; [|done].
    intros v [= <-] co2 silently2 inst2. unfold eval_const_getter.
    by rewrite Hc.
  - destruct (eval_getter _ _ _ _ _) as [v1 i1].
    intros [= <- <- <-]. split; [done|]. split; [done|]. split.
    + intros v -> co2 silently2 inst2. reflexivity.
    + intros ->.
      assert (ev_set_const_value None ev = ev) as ->
        by (destruct ev; simpl in *; by subst).
      split; [done|]. intros co2 silently2 inst2.
      unfold eval_const_getter. by rewrite Hc.
Qed.

(** X18. [pcvcm_to_expression_variable] returns a native value whose
    expression variable is new: it holds the tree and the two flags, has
    neither a constant nor a last value, answers the method name (the
    default one when none is given) with [eval_getter] and, when the suffix
    is not empty, the method name with the suffix with
    [eval_const_getter].  When it returns the sentinel no expression
    variable has been added.  The allocation of the second name is not
    checked: when it fails after the two before it succeeded, the function
    does not return. *)
Theorem pcvcm_to_expression_variable_spec vcm method_name constantly
    release_vcm evs inst :
  let name := default PCVCM_EV_DEFAULT_METHOD_NAME method_name in
  let make :=
    pcvcm_to_expression_variable PCVCM_EV_DEFAULT_METHOD_NAME
      PCVCM_EV_CONST_SUFFIX vcm method_name constantly release_vcm in
  let getter :=
    property_getter PCVCM_EV_PROPERTY_VCM_EV PCVCM_EV_PROPERTY_LAST_VALUE
      PCVCM_EV_PROPERTY_METHOD_NAME PCVCM_EV_PROPERTY_CONST_METHOD_NAME in
  (∀ r evs' inst', make evs inst = Done (r, evs', inst') →
     match r with
     | None => evs' = evs
     | Some var =>
         let e := next_addr inst in
         let ev := VcmEv vcm name (String.append name PCVCM_EV_CONST_SUFFIX)
                     PURC_VARIANT_INVALID PURC_VARIANT_INVALID
                     release_vcm constantly in
         var = Variant (S e) (VNative (NativeVcmEv e)) ∧
         evs' = <[e := ev]> evs ∧
         getter ev name = Some Method_eval_getter ∧
         (PCVCM_EV_CONST_SUFFIX ≠ EmptyString →
          getter ev (String.append name PCVCM_EV_CONST_SUFFIX)
          = Some Method_eval_const_getter)
     end) ∧
  (alloc_plan inst = [] →
   ∃ var evs' inst', make evs inst = Done (Some var, evs', inst')) ∧
  (∀ rest, alloc_plan inst = true :: true :: false :: rest →
           make evs inst = Aborted).
Proof.
  intros name make getter. subst make.
  unfold pcvcm_to_expression_variable, calloc_addr, purc_variant_make, calloc.
  split; [|split].
  - intros r evs' inst'. destruct inst as [err n plan hc rc evts]. simpl.
    destruct plan as [|[] [|[] [|[] [|[] plan]]]]; simpl;
      try (intros H; discriminate H); intros [= <- <- <-]; try done.
    all: split; [done|]; split; [done|]; subst getter; unfold property_getter;
      simpl; fold name; split; [by rewrite decide_True|];
      intros Hsuf; rewrite decide_False;
        [by rewrite decide_True
        |intros H; symmetry in H; by apply string_app_inv_empty in H].
  - destruct inst as [err n plan hc rc evts]. simpl. intros ->. simpl.
    by eexists _, _, _.
  - destruct inst as [err n plan hc rc evts]. simpl. intros rest ->.
    reflexivity.
Qed.

End ExpressionVariableMakeFacts.

Lemma eval_const_getter_caches_witness :
  let ev := ev_set_const_value (Some demo_fresh_value) demo_ev in
  eval_const_getter demo_eval demo_co demo_ev false ev_inst
    = (Some demo_fresh_value, ev, ev_inst) ∧
  eval_const_getter demo_eval demo_co ev true inst0
    = (Some demo_fresh_value, ev, inst0).
Proof.
  intros ev.
  assert (eval_const_getter demo_eval demo_co demo_ev false ev_inst
          = (Some demo_fresh_value, ev, ev_inst)) as E by reflexivity.
  split; [exact E|].
  destruct (eval_const_getter_caches demo_eval demo_co demo_ev false ev_inst
              _ _ _ E) as (_ & _ & H & _).
  by apply H.
Defined.

Lemma pcvcm_to_expression_variable_spec_witness :
  ∃ inst',
    pcvcm_to_expression_variable "eval" "_const" 5 None false true ∅ inst0
    = Done (Some (Variant 1 (VNative (NativeVcmEv 0))),
            {[ 0%nat := VcmEv 5 "eval" "eval_const" None None true false ]},
            inst') ∧
    property_getter "vcm_ev" "last_value" "method_name" "const_method_name"
      (VcmEv 5 "eval" "eval_const" None None true false) "eval_const"
    = Some Method_eval_const_getter.
Proof.
  destruct (pcvcm_to_expression_variable_spec "vcm_ev" "last_value"
              "method_name" "const_method_name" "eval" "_const"
              5%nat None false true ∅ inst0) as (H & _ & _).
  eexists. split; [reflexivity|].
  eapply (H _ _ _ eq_refl). done.
Defined.

Section OnObserveFacts.

Variable PCVCM_EV_PROPERTY_EVAL : string.
Variable PCVCM_EV_PROPERTY_VCM_EV : string.
Variable PCVCM_EV_PROPERTY_LAST_VALUE : string.
Variable PCVCM_EV_PROPERTY_METHOD_NAME : string.
Variable PCVCM_EV_PROPERTY_CONST_METHOD_NAME : string.
Variable pcvcm_eval :
  nat → pcintr_stack → bool → pcinst → purc_variant_t * pcinst.
Variable purc_variant_compare_ex : purc_variant → purc_variant_t → Z.
Variable pcintr_get_ops_by_element : pcvdom_element_t → ops_name.

(** X19. [on_observe] sets the value that later scans compare with.  For
    an expression that evaluates to the same value [v] wherever it is
    evaluated: [on_observe] on the running coroutine returns [true] and
    makes [v] the last value, and a scan by [pcintr_observe_vcm_ev]
    afterwards finds nothing changed: it posts no message and leaves the
    coroutine and the expression variable as they are.  When the coroutine
    is not the running one [on_observe] returns [false] and changes
    nothing. *)
Theorem on_observe_sets_baseline co observer var ev inst v :
  alloc_plan inst = [] →
  property_getter PCVCM_EV_PROPERTY_VCM_EV PCVCM_EV_PROPERTY_LAST_VALUE
    PCVCM_EV_PROPERTY_METHOD_NAME PCVCM_EV_PROPERTY_CONST_METHOD_NAME
    ev PCVCM_EV_PROPERTY_EVAL = Some Method_eval_getter →
  property_getter PCVCM_EV_PROPERTY_VCM_EV PCVCM_EV_PROPERTY_LAST_VALUE
    PCVCM_EV_PROPERTY_METHOD_NAME PCVCM_EV_PROPERTY_CONST_METHOD_NAME
    ev PCVCM_EV_PROPERTY_LAST_VALUE = Some Method_last_value_getter →
  (∀ s silently i, pcvcm_eval (ev_vcm ev) s silently i = (Some v, i)) →
  purc_variant_compare_ex v (Some v) = 0 →
  (running_coroutine inst = Some (co_addr co) →
   on_observe pcvcm_eval co ev inst
     = (true, ev_set_last_value (Some v) ev, inst) ∧
   ∃ inst',
     pcintr_observe_vcm_ev PCVCM_EV_PROPERTY_EVAL PCVCM_EV_PROPERTY_VCM_EV
       PCVCM_EV_PROPERTY_LAST_VALUE PCVCM_EV_PROPERTY_METHOD_NAME
       PCVCM_EV_PROPERTY_CONST_METHOD_NAME pcvcm_eval purc_variant_compare_ex
       pcintr_get_ops_by_element co observer var
       (ev_set_last_value (Some v) ev) inst
     = Done (co, ev_set_last_value (Some v) ev, inst') ∧
     events inst' = events inst) ∧
  (running_coroutine inst ≠ Some (co_addr co) →
   on_observe pcvcm_eval co ev inst = (false, ev, inst)).
Proof.
  intros Hplan Hg1 Hg2 Heval Hcmp. split.
  - intros Hrun. split.
    { unfold on_observe, pcintr_get_stack. rewrite Hrun.
      rewrite decide_True by done. by rewrite Heval. }
    set (ev1 := ev_set_last_value (Some v) ev).
    destruct (push_stack_frame_normal_succeeds (co_stack co) inst Hplan)
      as (s0 & inst1 & Hpush & Hal & Hrest).
    pose proof Hpush as Hshape.
    apply push_stack_frame_normal_shape in Hshape
      as (f & Hs0 & _ & Hty & _ & _ & _ & _ & _ & Hcal).
    set (g := frame_set_observer_fields pcintr_get_ops_by_element observer).
    pose proof (stack_update_frame_bottom _ _ g s0 Hs0) as Hs1.
    fold (nr_frames (co_stack co)) in Hs1.
    set (s1 := stack_update_frame (nr_frames (co_stack co)) g s0) in *.
    assert (f_ctxt (g f) = None) as Hctxt.
    { apply (f_equal f_ctxt) in Hcal. exact Hcal. }
    assert (pop_stack_frame s1 inst1 = Done (co_stack co, inst1)) as Hpop.
    { unfold pop_stack_frame.
      rewrite bool_decide_eq_true_2
        by (unfold nr_frames; rewrite Hs1, length_app; simpl; lia).
      cbn [mbind outcome_bind PC_ASSERT].
      rewrite Hs1, last_snoc. unfold stack_frame_release. rewrite Hctxt.
      cbn [mbind outcome_bind mret outcome_ret].
      rewrite removelast_last. do 2 f_equal.
      apply stack_rest_frames; [|done].
      change (stack_rest s1 = stack_rest (co_stack co)).
      subst s1. by rewrite stack_rest_update. }
    assert (∀ c1 c2,
      co_set_stack (co_stack co) (co_set_stack c1 (co_set_stack c2 co)) = co)
      as Hco by (intros; by destruct co).
    destruct Hal as (Herr & Hpl & Hheap & Hrc & Hev).
    exists inst1. split; [|done].
    unfold pcintr_observe_vcm_ev. rewrite Hpush.
    cbn [mbind outcome_bind].
    rewrite frame_write_valid
      by (cbn; rewrite Hs0; unfold nr_frames; rewrite lookup_bottom; eauto).
    cbn [mbind outcome_bind].
    assert (∀ key, property_getter PCVCM_EV_PROPERTY_VCM_EV
                     PCVCM_EV_PROPERTY_LAST_VALUE
                     PCVCM_EV_PROPERTY_METHOD_NAME
                     PCVCM_EV_PROPERTY_CONST_METHOD_NAME ev1 key
                   = property_getter PCVCM_EV_PROPERTY_VCM_EV
                       PCVCM_EV_PROPERTY_LAST_VALUE
                       PCVCM_EV_PROPERTY_METHOD_NAME
                       PCVCM_EV_PROPERTY_CONST_METHOD_NAME ev key) as Hg
      by reflexivity.
    rewrite !Hg, Hg1. cbn [mbind outcome_bind].
    unfold call_method at 1. unfold eval_getter, pcintr_get_stack.
    rewrite Hrc, Hrun. cbn [co_addr co_set_stack co_stack].
    rewrite decide_True by done.
    change (ev_vcm ev1) with (ev_vcm ev). rewrite Heval.
    fold g. fold s1. rewrite Hpop.
    cbn [mbind outcome_bind]. rewrite Hco.
    rewrite ?Hg, Hg2. cbn [mbind outcome_bind call_method].
    unfold last_value_getter. cbn [ev1 ev_set_last_value ev_last_value].
    by rewrite decide_True.
  - intros Hrun. unfold on_observe, pcintr_get_stack.
    destruct (running_coroutine inst) as [running|]; [|done].
    rewrite decide_False; [done|]. intros ->. done.
Qed.

End OnObserveFacts.

Lemma on_observe_sets_baseline_witness :
  let ev1 := ev_set_last_value (Some demo_fresh_value) demo_ev in
  on_observe demo_eval demo_co demo_ev ev_inst = (true, ev1, ev_inst) ∧
  ∃ inst',
    pcintr_observe_vcm_ev "eval" "vcm_ev" "last_value" "method_name"
      "const_method_name" demo_eval demo_compare demo_get_ops
      demo_co ev_observer ev_var ev1 ev_inst
    = Done (demo_co, ev1, inst') ∧
    events inst' = [].
Proof.
  destruct (on_observe_sets_baseline "eval" "vcm_ev" "last_value"
              "method_name" "const_method_name" demo_eval demo_compare
              demo_get_ops demo_co ev_observer ev_var demo_ev ev_inst
              demo_fresh_value eq_refl eq_refl eq_refl
              (λ _ _ _, eq_refl) eq_refl) as [H _].
  exact (H eq_refl).
Defined.

(** ** The children of a [match] element in turn *)

(** X20. The calls of [select_child] on a [match] element whose rule
    matched hand out the element children of the element, each one once
    and in document order, whatever text and comments lie between them; the
    call after the last element returns [NULL] and leaves the cursor at
    [NULL] again, so that the context is what it was before the first
    call.  On an element whose rule did not match the first call returns
    [NULL] and the context is untouched. *)
Theorem match_select_children_enumerates frame ctxt n :
  let children := pcvdom_children (f_pos frame) in
  let elements :=
    filter (λ node, pcvdom_node_is_element node = true) children in
  (cm_matched ctxt = false →
   ∀ except_, match_select_children (S n) frame ctxt except_
              = Done ([], ctxt)) ∧
  (cm_matched ctxt = true →
   cm_curr ctxt = None →
   Forall (λ node, pcvdom_node_is_document node = false) children →
   (length elements < n)%nat →
   match_select_children n frame ctxt false = Done (elements, ctxt)).
Proof.
  intros children elements. split.
  - intros Hm except_. simpl. unfold match_select_child. by rewrite Hm.
  - intros Hm Hc Hdoc Hn.
    pose proof (match_select_children_from n frame ctxt Hm) as H.
    rewrite Hc in H. simpl in H. rewrite H; [|done|done].
    destruct ctxt; simpl in *. by subst.
Qed.

Lemma match_select_children_enumerates_witness :
  match_select_children 3 match_frame_2
    (CtxtForMatch None None None true true) false
  = Done ([PCVDOM_NODE_ELEMENT "init" false [];
           PCVDOM_NODE_ELEMENT "update" false []],
          CtxtForMatch None None None true true).
Proof.
  destruct (match_select_children_enumerates match_frame_2
              (CtxtForMatch None None None true true) 3) as [_ H].
  apply H; [reflexivity|reflexivity| |simpl; lia].
  repeat constructor.
Defined.

(** ** Leaving a [match] element *)

Lemma frame_set_ctxt_id f : f_ctxt f = None → frame_set_ctxt None f = f.
Proof. destruct f; simpl. by intros ->. Qed.

(** What [on_popping] of [match] does to the frames, the contexts and the
    instance when it returns. *)
Lemma match_on_popping_frames co ud ctxts inst l f r co' ctxts' inst' :
  frames (co_stack co) = l ++ [f] →
  match_on_popping co ud ctxts inst = Done (r, co', ctxts', inst') →
  r = true ∧ ud = f_ctxt f ∧
  ctxts' = from_option (λ c, delete c ctxts) ctxts ud ∧
  events inst' = events inst ∧
  ∃ l',
    frames (co_stack co') = l' ++ [frame_set_ctxt None f] ∧
    pop_stack_frame (co_stack co') inst'
      = Done (stack_set_frames l' (co_stack co'), inst') ∧
    match ud ≫= (ctxts !!.) with
    | Some ctxt =>
        if cm_is_exclusively ctxt && cm_matched ctxt then
          ∃ l0 parent v,
            l = l0 ++ [parent] ∧
            l' = l0 ++ [frame_set_result_from_child (Some v) parent] ∧
            v_val v = VBoolean true
        else l' = l ∧ inst' = inst
    | None => l' = l ∧ inst' = inst
    end.
Proof.
  intros Hs. unfold match_on_popping.
  destruct (PC_ASSERT (bool_decide (is_Some (pcintr_get_stack co inst))));
    cbn [mbind outcome_bind]; [|done].
  unfold pcintr_stack_get_bottom_frame, nr_frames.
  rewrite Hs, length_app. cbn [length].
  rewrite decide_False by lia.
  replace (pred (length l + 1)) with (length l) by lia.
  cbn [mbind outcome_bind]. rewrite lookup_bottom. cbn [mbind outcome_bind].
  destruct (decide (ud = f_ctxt f)) as [Hud|Hud];
    [rewrite (bool_decide_eq_true_2 _ Hud)
    |rewrite (bool_decide_eq_false_2 _ Hud)];
    cbn [PC_ASSERT mbind outcome_bind]; [|done].
  destruct (PC_ASSERT (bool_decide (is_Some (f_pos f))));
    cbn [mbind outcome_bind]; [|done].
  destruct (f_ctxt f) as [c|] eqn:Hc; subst ud.
  2: { intros [= <- <- <- <-]. do 4 (split; [done|]). exists l.
       rewrite frame_set_ctxt_id by done. split; [done|].
       split; [by eapply pop_stack_frame_bottom|]. done. }
  cbn [mbind option_bind from_option].
  destruct (ctxts !! c) as [ctxt|]; cbn [mbind outcome_bind]; [|done].
  destruct (cm_is_exclusively ctxt && cm_matched ctxt).
  - unfold pcintr_stack_frame_get_parent. rewrite Hs, lookup_bottom.
    destruct (f_type f); [|done].
    destruct (decide (length l = 0%nat)) as [|Hl]; [done|].
    cbn [mbind outcome_bind].
    destruct l as [|parent l0 _] using rev_ind; [done|]. clear Hl.
    rewrite length_app. cbn [length].
    replace (pred (length l0 + 1)) with (length l0) by lia.
    destruct (purc_variant_make_boolean true inst) as [v inst1] eqn:Hmk.
    apply purc_variant_make_cases in Hmk as (Hev & _ & _ & Hv).
    unfold frame_write. rewrite Hs, <- (assoc_L (++)). cbn [app].
    rewrite (list_lookup_middle l0 [f] parent) by done.
    cbn [mbind outcome_bind mret outcome_ret].
    destruct v as [v|]; cbn [PC_ASSERT bool_decide mbind outcome_bind].
    2: { rewrite bool_decide_eq_false_2 by (by intros [? ?]). done. }
    rewrite bool_decide_eq_true_2 by eauto.
    cbn [PC_ASSERT mbind outcome_bind mret outcome_ret].
    unfold frame_write, stack_update_frame. cbn [co_stack co_set_stack frames
      stack_set_frames].
    assert (alter (frame_set_result_from_child (Some v)) (length l0)
              (frames (co_stack co))
            = (l0 ++ [frame_set_result_from_child (Some v) parent]) ++ [f])
      as ->.
    { rewrite Hs, <- !(assoc_L (++)).
      replace (length l0) with (length l0 + 0)%nat by lia.
      by rewrite alter_app_r. }
    assert (length l0 + 1
            = length (l0 ++ [frame_set_result_from_child (Some v) parent]))%nat
      as -> by (rewrite length_app; simpl; lia).
    rewrite lookup_bottom.
    cbn [mbind outcome_bind mret outcome_ret].
    intros [= <- <- <- <-]. do 3 (split; [done|]). split; [done|].
    eexists. cbn [co_stack co_set_stack frames stack_set_frames].
    rewrite <- (Nat.add_0_r (length (l0 ++ _))), alter_app_r.
    cbn [alter list_alter].
    split; [reflexivity|]. split.
    + eapply pop_stack_frame_bottom;
        [cbn [frames stack_set_frames]; reflexivity|done].
    + eexists l0, parent, v. destruct Hv as [Hv _]. done.
  - cbn [mbind outcome_bind mret outcome_ret].
    unfold frame_write. rewrite Hs, lookup_bottom.
    cbn [mbind outcome_bind mret outcome_ret].
    intros [= <- <- <- <-]. do 4 (split; [done|]). exists l.
    unfold stack_update_frame.
    cbn [co_stack co_set_stack frames stack_set_frames]. rewrite Hs.
    replace (length l) with (length l + 0)%nat by lia.
    rewrite alter_app_r. cbn [alter list_alter].
    split; [done|]. split; [|done].
    eapply pop_stack_frame_bottom;
      [cbn [frames stack_set_frames]; reflexivity|done].
Qed.

(** X21. [on_popping] of [match] returns [true] whenever it returns, and
    then [ud] was the context of the bottom frame.  It frees that context
    and leaves [frame->ctxt] at [NULL]: [pop_stack_frame], which the frame
    machine runs next, pops the frame without running a destructor on the
    context a second time.  No frame is added or removed and no message is
    posted. *)
Theorem match_on_popping_frees_context co ud ctxts inst l f r co' ctxts'
    inst' :
  frames (co_stack co) = l ++ [f] →
  match_on_popping co ud ctxts inst = Done (r, co', ctxts', inst') →
  r = true ∧ ud = f_ctxt f ∧
  ctxts' = from_option (λ c, delete c ctxts) ctxts ud ∧
  (∀ c, ud = Some c → ctxts' !! c = None) ∧
  events inst' = events inst ∧
  nr_frames (co_stack co') = nr_frames (co_stack co) ∧
  (f_ctxt <$> last (frames (co_stack co'))) = Some None ∧
  ∃ s, pop_stack_frame (co_stack co') inst' = Done (s, inst') ∧
       nr_frames s = length l.
Proof.
  intros Hs H.
  destruct (match_on_popping_frames _ _ _ _ _ _ _ _ _ _ Hs H)
    as (Hr & Hud & Hc & Hev & l' & Hl' & Hpop & Hp).
  split; [done|]. split; [done|]. split; [done|].
  split; [intros c ->; rewrite Hc; simpl; apply lookup_delete_eq|].
  split; [done|].
  assert (length l' = length l) as Hlen.
  { destruct (ud ≫= (ctxts !!.)) as [ctxt|]; [|by destruct Hp as [-> _]].
    destruct (cm_is_exclusively ctxt && cm_matched ctxt);
      [|by destruct Hp as [-> _]].
    destruct Hp as (l0 & parent & v & -> & -> & _).
    by rewrite !length_app. }
  split; [unfold nr_frames; rewrite Hl', Hs, !length_app; simpl; lia|].
  split; [by rewrite Hl', last_snoc|].
  eexists. split; [exact Hpop|]. done.
Qed.

Section MatchPoppingFacts.

Variable match_for_parse : string → option nat.
Variable match_for_rule_eval : nat → purc_variant → option bool.

(** X22. What a [match] element hands to its parent.  For a context
    that [post_process] has filled, starting from a fresh one: when the
    element has the attribute [exclusively] or [excl], whatever its value,
    and its rule matched (an element without [for] always matches),
    [on_popping] stores a new boolean [true] as the parent frame's result
    from the child and changes nothing else of the parent; in every other
    case no frame but the bottom one is written and the instance is
    unchanged. *)
Theorem match_exclusive_result co c ctxts inst l f ctxt0 ctxt r co' ctxts'
    inst' :
  frames (co_stack co) = l ++ [f] →
  cm_is_exclusively ctxt0 = false →
  match_post_process match_for_parse match_for_rule_eval f (Some ctxt0)
    = Done ctxt →
  match_on_popping co (Some c) (<[c := ctxt]> ctxts) inst
    = Done (r, co', ctxts', inst') →
  let exclusively :=
    bool_decide (is_Some (attr_vars_get (f_attr_vars f) "exclusively"))
    || bool_decide (is_Some (attr_vars_get (f_attr_vars f) "excl")) in
  let matched :=
    match attr_vars_get (f_attr_vars f) "for" with
    | None => true
    | Some (VString for_value) =>
        default false
          (rule ← match_for_parse for_value;
           parent_result ← f_symbol_vars f PURC_SYMBOL_VAR_QUESTION_MARK;
           match_for_rule_eval rule parent_result)
    | Some _ => false
    end in
  if exclusively && matched then
    ∃ l0 parent v,
      l = l0 ++ [parent] ∧
      frames (co_stack co')
      = l0 ++ [frame_set_result_from_child (Some v) parent;
               frame_set_ctxt None f] ∧
      v_val v = VBoolean true
  else frames (co_stack co') = l ++ [frame_set_ctxt None f] ∧ inst' = inst.
Proof.
  intros Hs Hex0 Hpost Hpop exclusively matched.
  destruct (match_on_popping_frames _ _ _ _ _ _ _ _ _ _ Hs Hpop)
    as (_ & _ & _ & _ & l' & Hl' & _ & Hp).
  cbn [mbind option_bind] in Hp. rewrite lookup_insert_eq in Hp.
  assert (cm_is_exclusively ctxt = exclusively ∧ cm_matched ctxt = matched)
    as [He Hm].
  { revert Hpost. unfold match_post_process. subst exclusively matched.
    cbn [mbind outcome_bind].
    destruct (attr_vars_get (f_attr_vars f) "for") as [for_var|].
    - destruct for_var as [| | | | |for_value| | | |]; try done.
      cbn [mbind outcome_bind option_bind].
      destruct (match_for_parse for_value) as [rule|]; [|done].
      cbn [mbind outcome_bind option_bind].
      destruct (f_symbol_vars f PURC_SYMBOL_VAR_QUESTION_MARK)
        as [parent_result|]; [|done].
      cbn [mbind outcome_bind option_bind].
      destruct (match_for_rule_eval rule parent_result) as [m|]; [|done].
      cbn [mbind outcome_bind mret outcome_ret cm_is_exclusively cm_matched
           default].
      intros [= <-]. cbn [cm_is_exclusively cm_matched]. rewrite Hex0.
      by destruct (attr_vars_get _ "exclusively"),
                  (attr_vars_get _ "excl").
    - cbn [mbind outcome_bind mret outcome_ret cm_is_exclusively cm_matched].
      intros [= <-]. cbn [cm_is_exclusively cm_matched]. rewrite Hex0.
      by destruct (attr_vars_get _ "exclusively"),
                  (attr_vars_get _ "excl"). }
  rewrite He, Hm in Hp. destruct (exclusively && matched).
  - destruct Hp as (l0 & parent & v & -> & -> & Hv).
    exists l0, parent, v. by rewrite Hl', <- (assoc_L (++)).
  - destruct Hp as [-> ->]. done.
Qed.

End MatchPoppingFacts.

Lemma match_on_popping_frees_context_witness :
  ∃ co' ctxts' inst',
    match_on_popping match_co (Some 1%nat)
      {[ 1%nat := CtxtForMatch None None None true true ]} ev_inst
    = Done (true, co', ctxts', inst') ∧
    ctxts' !! 1%nat = None ∧
    ∃ s, pop_stack_frame (co_stack co') inst' = Done (s, inst') ∧
         nr_frames s = 1%nat.
Proof.
  eassert (match_on_popping match_co (Some 1%nat)
             {[ 1%nat := CtxtForMatch None None None true true ]} ev_inst
           = Done (true, _, _, _)) as E by (vm_compute; reflexivity).
  destruct (match_on_popping_frees_context match_co _ _ _ [demo_frame]
              match_frame_2 _ _ _ _ eq_refl E)
    as (_ & _ & _ & H1 & _ & _ & _ & H2).
  eexists _, _, _. split; [exact E|]. split; [by apply H1|exact H2].
Defined.

Lemma match_exclusive_result_witness :
  ∃ co' ctxts' inst' v,
    match_on_popping match_co (Some 1%nat)
      {[ 1%nat := CtxtForMatch None None None true true ]} ev_inst
    = Done (true, co', ctxts', inst') ∧
    frames (co_stack co')
    = [frame_set_result_from_child (Some v) demo_frame;
       frame_set_ctxt None match_frame_2] ∧
    v_val v = VBoolean true.
Proof.
  eassert (match_on_popping match_co (Some 1%nat)
             (<[ 1%nat := CtxtForMatch None None None true true ]> ∅) ev_inst
           = Done (true, _, _, _)) as E by (vm_compute; reflexivity).
  pose proof (match_exclusive_result (λ _, None) (λ _ _, None) match_co
                1%nat ∅ ev_inst [demo_frame] match_frame_2
                ctxt_for_match_calloc _ _ _ _ _ eq_refl eq_refl eq_refl E)
    as H.
  cbn in H. destruct H as (l0 & parent & v & Hl & Hf & Hv).
  apply (app_inj_tail [] l0) in Hl as [<- <-].
  eexists _, _, _, v. split; [exact E|]. split; [exact Hf|exact Hv].
Defined.

